(** * Tabular distributionally robust policies: [dr_policy.py]

    A shallow embedding of the three policy classes [DRPolicyKL],
    [DRPolicySinkhorn] and [DRPolicyWass] and the properties of their
    [sample], [update] and [get_policy] methods.

    Modelling conventions.
    - A [float64] is a real number: arithmetic is exact, [exp] is the real
      exponential.  Rounding, overflow, underflow and NaN are outside the
      model, and so is division by zero (numpy gives [inf] or [nan] where
      [x / 0] is [0] here): a result that depends on the value of a
      quotient first shows that its divisor is positive.
    - A numpy array is a [list R] held by value; the Python list
      [self.distributions] is an object on the heap, so that two references
      to it can be told apart from two equal lists.
    - An exception is a value: expressions evaluate to a [result], statements
      and loops to an [outcome] that keeps the state reached when the
      exception was raised.
    - Random draws ([np.random.random], the uniform sample inside
      [np.random.choice]) are explicit arguments. *)

From Stdlib Require Import Reals Lra Lia ZArith.
From stdpp Require Import base list gmap strings.

#[local] Open Scope R_scope.

(** Comparisons of floats are decided by the classical reals. *)
#[global] Instance R_eq_dec : EqDecision R := Req_dec_T.
#[global] Instance Rlt_decision (x y : R) : Decision (x < y) := Rlt_dec x y.
#[global] Instance Rgt_decision (x y : R) : Decision (x > y) := Rgt_dec x y.
#[global] Instance Rle_decision (x y : R) : Decision (x <= y) := Rle_dec x y.
#[global] Instance Rge_decision (x y : R) : Decision (x >= y) := Rge_dec x y.

(** ** Exceptions, results and loops *)

Inductive exn : Type :=
| IndexError
| UnboundLocalError
| ValueError.

Inductive result (A : Type) : Type :=
| Ok (a : A)
| Raise (e : exn).
Arguments Ok {A} a.
Arguments Raise {A} e.

Definition bind {A B : Type} (m : result A) (k : A -> result B) : result B :=
  match m with
  | Ok a => k a
  | Raise e => Raise e
  end.

Notation "'let?' x ':=' m 'in' k" := (bind m (fun x => k))
  (at level 10, x pattern, m at level 200, k at level 200).

(** The state a statement leaves behind, whether it completed or raised. *)
Inductive outcome (St : Type) : Type :=
| Done (st : St)
| Raised (e : exn) (st : St).
Arguments Done {St} st.
Arguments Raised {St} e st.

Definition final {St : Type} (o : outcome St) : St :=
  match o with
  | Done st => st
  | Raised _ st => st
  end.

Definition next {St : Type} (o : outcome St) (k : St -> outcome St) : outcome St :=
  match o with
  | Done st => k st
  | Raised e st => Raised e st
  end.

(** A statement that evaluates [r] and, on success, moves to the new state. *)
Definition assign {St : Type} (r : result St) (st : St) : outcome St :=
  match r with
  | Ok st' => Done st'
  | Raise e => Raised e st
  end.

(** [for x in xs: body] *)
Fixpoint for_in {A St : Type} (xs : list A) (body : A -> St -> outcome St)
    (st : St) : outcome St :=
  match xs with
  | [] => Done st
  | x :: xs' => next (body x st) (for_in xs' body)
  end.

(** [for i in range(n): body] *)
Definition for_range {St : Type} (n : nat) (body : nat -> St -> outcome St)
    (st : St) : outcome St :=
  for_in (seq 0 n) body st.

(** [for i in range(lo, hi): body] *)
Definition for_range2 {St : Type} (lo hi : nat) (body : nat -> St -> outcome St)
    (st : St) : outcome St :=
  for_in (seq lo (hi - lo)) body st.

(** ** Python subscripts *)

(** Subscript [k] on a sequence of length [n]: negative subscripts count
    from the end, anything outside [-n, n) raises [IndexError]. *)
Definition norm_index (n : nat) (k : Z) : result nat :=
  if decide (0 <= k < Z.of_nat n)%Z then Ok (Z.to_nat k)
  else if decide (- Z.of_nat n <= k < 0)%Z then Ok (Z.to_nat (k + Z.of_nat n))
  else Raise IndexError.

(** Subscript by a loop index or a literal, which is never negative. *)
Definition getitem_nat {A : Type} (l : list A) (i : nat) : result A :=
  match l !! i with
  | Some x => Ok x
  | None => Raise IndexError
  end.

Definition getitem {A : Type} (l : list A) (k : Z) : result A :=
  let? i := norm_index (length l) k in getitem_nat l i.

(** ** numpy arrays *)

Abbreviation row := (list R).
Abbreviation table := (list (list R)).

Definition np_zeros (n : nat) : row := replicate n 0.
Definition np_ones (n : nat) : row := replicate n 1.
Definition np_exp (v : row) : row := map exp v.
Definition np_sum (v : row) : R := foldr Rplus 0 v.
(** [v / c] and [u * v] (the shapes agree wherever the code multiplies). *)
Definition np_div (v : row) (c : R) : row := map (fun x => x / c) v.
Definition np_mul (u v : row) : row := zip_with Rmult u v.

(** [t[s][i]] and [t[s][i] = x] for loop indices. *)
Definition get2 (t : table) (s i : nat) : result R :=
  let? r := getitem_nat t s in getitem_nat r i.

Definition set2 (t : table) (s i : nat) (x : R) : result table :=
  let? r := getitem_nat t s in
  let? _ := getitem_nat r i in
  Ok (<[s := <[i := x]> r]> t).

(** [t[s][a] += v] for subscripts read from the input. *)
Definition iadd2 (t : table) (s a : Z) (v : R) : result table :=
  let? i := norm_index (length t) s in
  let? r := getitem_nat t i in
  let? j := norm_index (length r) a in
  let? x := getitem_nat r j in
  Ok (<[i := <[j := x + v]> r]> t).

(** ** Advantage aggregation

    The first three loops of every [update] (lines 48-60, 129-141 and
    236-248 are the same text). *)

(** Lines 55-56: one sample is added to its cell and counted. *)
Definition accumulate (observes actions : list Z) (advantages : list R)
    (i : nat) (st : table * table) : outcome (table * table) :=
  let '(all_advantages, count) := st in
  assign
    (let? o := getitem_nat observes i in
     let? a := getitem_nat actions i in
     let? v := getitem_nat advantages i in
     let? all_advantages' := iadd2 all_advantages o a v in
     let? count' := iadd2 count o a 1 in
     Ok (all_advantages', count')) st.

(** Lines 59-60: a cell that was visited becomes the mean of its samples. *)
Definition average (s i : nat) (st : table * table) : outcome (table * table) :=
  let '(all_advantages, count) := st in
  assign
    (let? c := get2 count s i in
     if decide (c <> 0) then
       let? x := get2 all_advantages s i in
       let? all_advantages' := set2 all_advantages s i (x / c) in
       Ok (all_advantages', count)
     else Ok st) st.

(** Lines 48-60: [all_advantages] once the three loops are through; [count]
    is dropped. *)
Definition aggregate (sta_num act_num : nat) (observes actions : list Z)
    (advantages : list R) : result table :=
  let all_advantages := replicate sta_num (np_zeros act_num) in
  let count := replicate sta_num (np_zeros act_num) in
  match
    next (for_range (length observes) (accumulate observes actions advantages)
            (all_advantages, count))
         (for_range sta_num (fun s => for_range act_num (average s)))
  with
  | Done (all_advantages', _) => Ok all_advantages'
  | Raised e _ => Raise e
  end.

(** ** The heap of Python lists

    [self.distributions] refers to a list object; [get_policy] hands out
    the same reference. *)

Abbreviation loc := nat (only parsing).
Abbreviation heap := (gmap nat table).

Definition load (h : heap) (l : loc) : table := default [] (h !! l).

(** A new list object holding the rows [t]. *)
Definition alloc (h : heap) (t : table) : loc * heap :=
  let l := fresh (dom h) in (l, <[l := t]> h).

(** [ref[s] = v] *)
Definition store_row (h : heap) (l : loc) (s : nat) (v : row) : result heap :=
  if decide (s < length (load h l))%nat
  then Ok (<[l := <[s := v]> (load h l)]> h)
  else Raise IndexError.

(** [ref[s][i] += rhs]: the target is read, then the right-hand side is
    evaluated, then the sum is stored. *)
Definition store_iadd (h : heap) (l : loc) (s i : nat) (rhs : result R) : result heap :=
  let? cur := get2 (load h l) s i in
  let? v := rhs in
  let? t := set2 (load h l) s i (cur + v) in
  Ok (<[l := t]> h).

(** Reading a local variable that may not have been assigned. *)
Definition read_local {A : Type} (x : option A) : result A :=
  match x with
  | Some v => Ok v
  | None => Raise UnboundLocalError
  end.

(** ** [np.random.choice(a, 1, p=p)[0]]

    numpy's legacy sampler, given the uniform draw [u] of [random_sample]:
    it rejects a bad [p] with [ValueError], then returns
    [cdf.searchsorted(u, side='right')] for the normalised cumulative sums
    [cdf]. *)

Fixpoint cumsum_from (acc : R) (p : row) : row :=
  match p with
  | [] => []
  | x :: p' => (acc + x) :: cumsum_from (acc + x) p'
  end.

Definition np_cumsum (p : row) : row := cumsum_from 0 p.

(** On a sorted array: the number of leading entries that are [<= u]. *)
Fixpoint searchsorted_right (cdf : row) (u : R) : nat :=
  match cdf with
  | [] => O
  | c :: cdf' => if decide (c <= u) then S (searchsorted_right cdf' u) else O
  end.

(** [sqrt(np.finfo(np.float64).eps)] *)
Definition choice_atol : R := / 2 ^ 26.

Definition np_random_choice (a : nat) (p : row) (u : R) : result nat :=
  if decide (a = O) then Raise ValueError
  else if decide (length p = a) then
    if decide (Exists (fun x => x < 0) p) then Raise ValueError
    else if decide (Rabs (np_sum p - 1) > choice_atol) then Raise ValueError
    else
      let cdf := np_cumsum p in
      Ok (searchsorted_right (np_div cdf (List.last cdf 0)) u)
  else Raise ValueError.

(** [sample], the same text in the three classes. *)
Definition sample_from (h : heap) (distributions : loc) (act_num : nat)
    (obs : Z) (u : R) : result nat :=
  let? distribution := getitem (load h distributions) obs in
  np_random_choice act_num distribution u.

(** The uniform table built by every [__init__]. *)
Definition uniform_table (sta_num act_num : nat) : table :=
  replicate sta_num (np_div (np_ones act_num) (INR act_num)).

(** ** class DRPolicyKL *)

Module DRPolicyKL.

Record t : Type := {
  sta_num : nat;
  act_num : nat;
  distributions : loc;
  delta : R
}.

Definition init (sta_num act_num : nat) (h : heap) : t * heap :=
  let '(l, h') := alloc h (uniform_table sta_num act_num) in
  ({| sta_num := sta_num; act_num := act_num; distributions := l;
      delta := 0.01 |}, h').

Definition sample (self : t) (h : heap) (obs : Z) (u : R) : result nat :=
  sample_from h (distributions self) (act_num self) obs u.

(** Lines 62-68: the bonuses written into the table for two environments. *)
Definition adjust (env_name : string) (all_advantages : table) : result table :=
  let? all_advantages :=
    if String.eqb env_name "NChain-v0" then
      let? a := iadd2 all_advantages 0 1 0.1 in
      iadd2 a 1 1 0.3
    else Ok all_advantages in
  if String.eqb env_name "Taxi-v3" then
    match for_range2 400 500
            (fun s a => assign (iadd2 a (Z.of_nat s) 0 2) a) all_advantages with
    | Done a => Ok a
    | Raised e _ => Raise e
    end
  else Ok all_advantages.

(** The table the projection uses: lines 48-68. *)
Definition advantage_table (self : t) (observes actions : list Z)
    (advantages : list R) (env_name : string) : result table :=
  let? a := aggregate (sta_num self) (act_num self) observes actions advantages in
  adjust env_name a.

(** Lines 90-91, the body of the projection loop. *)
Definition tilt (self : t) (all_advantages : table) (beta : R)
    (old_distributions : loc) (s : nat) (h : heap) : outcome heap :=
  assign
    (let? adv := getitem_nat all_advantages s in
     let? old := getitem_nat (load h old_distributions) s in
     let denom := np_sum (np_mul (np_exp (np_div adv beta)) old) in
     let? adv := getitem_nat all_advantages s in
     let? old := getitem_nat (load h old_distributions) s in
     store_row h (distributions self) s
       (np_div (np_mul (np_exp (np_div adv beta)) old) denom)) h.

(** [gradient] and [objective] (lines 70-83) are defined and never called;
    [disc_freqs] and [eps] are read by nothing else. *)
Definition update (self : t) (h : heap) (observes actions : list Z)
    (advantages disc_freqs : list R) (env_name : string) (eps : R)
    : outcome heap :=
  match advantage_table self observes actions advantages env_name with
  | Raise e => Raised e h
  | Ok all_advantages =>
      let beta := 1 in
      let old_distributions := distributions self in
      for_range (sta_num self)
        (tilt self all_advantages beta old_distributions) h
  end.

Definition get_policy (self : t) : loc := distributions self.

(** ** The nested functions of [update] that nothing calls (lines 70-83)

    [gradient] and [objective] close over [all_advantages], [disc_freqs]
    and [self]; here these are arguments.  [np.log] is the real logarithm
    [ln], which it is on positive arguments. *)

(** Lines 73-76, one state of [gradient]. *)
Definition gradient_step (self : t) (h : heap) (all_advantages : table)
    (disc_freqs : list R) (beta : R) (s : nat) (gradient : R) : outcome R :=
  assign
    (let? f := getitem_nat disc_freqs s in
     let? adv := getitem_nat all_advantages s in
     let? dist := getitem_nat (load h (distributions self)) s in
     let gradient :=
       gradient + f * ln (np_sum (np_mul (np_exp (np_div adv beta)) dist)) in
     let? adv := getitem_nat all_advantages s in
     let? adv' := getitem_nat all_advantages s in
     let? dist := getitem_nat (load h (distributions self)) s in
     let numerator :=
       np_sum (np_mul (np_mul (np_exp (np_div adv beta)) adv') dist) in
     let? adv := getitem_nat all_advantages s in
     let? dist := getitem_nat (load h (distributions self)) s in
     let denom := beta * np_sum (np_mul (np_exp (np_div adv beta)) dist) in
     let? f := getitem_nat disc_freqs s in
     Ok (gradient - f * numerator / denom)) gradient.

Definition gradient (self : t) (h : heap) (all_advantages : table)
    (disc_freqs : list R) (beta : R) : result R :=
  match for_range (sta_num self)
          (gradient_step self h all_advantages disc_freqs beta) (delta self) with
  | Done gradient => Ok gradient
  | Raised e _ => Raise e
  end.

(** Line 82, one state of [objective]. *)
Definition objective_step (self : t) (h : heap) (all_advantages : table)
    (disc_freqs : list R) (beta : R) (s : nat) (objective : R) : outcome R :=
  assign
    (let? f := getitem_nat disc_freqs s in
     let? adv := getitem_nat all_advantages s in
     let? dist := getitem_nat (load h (distributions self)) s in
     Ok (objective +
         beta * f * ln (np_sum (np_mul (np_exp (np_div adv beta)) dist))))
    objective.

Definition objective (self : t) (h : heap) (all_advantages : table)
    (disc_freqs : list R) (beta : R) : result R :=
  match for_range (sta_num self)
          (objective_step self h all_advantages disc_freqs beta)
          (beta * delta self) with
  | Done objective => Ok objective
  | Raised e _ => Raise e
  end.

End DRPolicyKL.

(** ** class DRPolicySinkhorn *)

Module DRPolicySinkhorn.

Record t : Type := {
  sta_num : nat;
  act_num : nat;
  distributions : loc;
  delta : R;
  lamb : R
}.

Definition set_lamb (self : t) (x : R) : t :=
  {| sta_num := sta_num self; act_num := act_num self;
     distributions := distributions self; delta := delta self; lamb := x |}.

Definition set_distributions (self : t) (l : loc) : t :=
  {| sta_num := sta_num self; act_num := act_num self;
     distributions := l; delta := delta self; lamb := lamb self |}.

Definition init (sta_num act_num : nat) (h : heap) : t * heap :=
  let '(l, h') := alloc h (uniform_table sta_num act_num) in
  ({| sta_num := sta_num; act_num := act_num; distributions := l;
      delta := 0.1; lamb := 3 |}, h').

Definition sample (self : t) (h : heap) (obs : Z) (u : R) : result nat :=
  sample_from h (distributions self) (act_num self) obs u.

Definition calc_d (ai aj : nat) : R :=
  if decide (ai = aj) then 0 else 1.

Definition get_policy (self : t) : loc := distributions self.

(** Lines 143-145. *)
Definition adjust (env_name : string) (all_advantages : table) : result table :=
  if String.eqb env_name "NChain-v0" then
    let? a := iadd2 all_advantages 0 1 0.1 in
    iadd2 a 1 1 0.3
  else Ok all_advantages.

Definition advantage_table (self : t) (observes actions : list Z)
    (advantages : list R) (env_name : string) : result table :=
  let? a := aggregate (sta_num self) (act_num self) observes actions advantages in
  adjust env_name a.

(** Lines 151-166: [beta] is assigned in two branches only, and the first
    one also overwrites [self.lamb]. *)
Definition configure (self : t) (env_name : string) (eps : R) : option R * t :=
  if String.eqb env_name "Taxi-v3" then
    let lamb_value := eps ^ 2 in
    (Some 3,
     if decide (lamb_value >= 6) then set_lamb self 5.5
     else set_lamb self lamb_value)
  else if String.eqb env_name "NChain-v0" then (Some 0.8, self)
  else (None, self).

(** [exp((self.lamb/beta)*all_advantages[s][i] - self.lamb*calc_d(i,j))] *)
Definition score (self : t) (beta : option R) (all_advantages : table)
    (s i j : nat) : result R :=
  let? b := read_local beta in
  let? a := get2 all_advantages s i in
  Ok (exp (lamb self / b * a - lamb self * calc_d i j)).

(** Lines 175-177. *)
Definition denominator (self : t) (beta : option R) (all_advantages : table)
    (s j : nat) : outcome R :=
  for_range (act_num self)
    (fun k denom =>
       assign (let? e := score self beta all_advantages s k j in
               Ok (denom + e)) denom) 0.

(** Lines 178-180. *)
Definition spread (self : t) (beta : option R) (all_advantages : table)
    (old_distributions : loc) (s j : nat) (denom : R) (i : nat) (h : heap)
    : outcome heap :=
  assign
    (let? numer := score self beta all_advantages s i j in
     store_iadd h (distributions self) s i
       (let? p := get2 (load h old_distributions) s j in
        Ok (p * numer / denom))) h.

(** Lines 174-180, one source action [j] of state [s]. *)
Definition sweep (self : t) (beta : option R) (all_advantages : table)
    (old_distributions : loc) (s j : nat) (h : heap) : outcome heap :=
  match denominator self beta all_advantages s j with
  | Raised e _ => Raised e h
  | Done denom =>
      for_range (act_num self)
        (spread self beta all_advantages old_distributions s j denom) h
  end.

(** The state is the object and the heap: [update] assigns to
    [self.lamb] and [self.distributions]. *)
Definition update (self : t) (h : heap) (observes actions : list Z)
    (advantages disc_freqs : list R) (env_name : string) (eps : R)
    : outcome (t * heap) :=
  match advantage_table self observes actions advantages env_name with
  | Raise e => Raised e (self, h)
  | Ok all_advantages =>
      let '(beta, self) := configure self env_name eps in
      let old_distributions := distributions self in
      let '(l, h) :=
        alloc h (replicate (sta_num self) (np_zeros (act_num self))) in
      let self := set_distributions self l in
      match
        for_range (sta_num self)
          (fun s =>
             for_range (act_num self)
               (sweep self beta all_advantages old_distributions s)) h
      with
      | Done h' => Done (self, h')
      | Raised e h' => Raised e (self, h')
      end
  end.

End DRPolicySinkhorn.

(** ** class DRPolicyWass *)

Module DRPolicyWass.

Record t : Type := {
  sta_num : nat;
  act_num : nat;
  distributions : loc;
  delta : R
}.

Definition set_distributions (self : t) (l : loc) : t :=
  {| sta_num := sta_num self; act_num := act_num self;
     distributions := l; delta := delta self |}.

Definition init (sta_num act_num : nat) (h : heap) : t * heap :=
  let '(l, h') := alloc h (uniform_table sta_num act_num) in
  ({| sta_num := sta_num; act_num := act_num; distributions := l;
      delta := 0.01 |}, h').

Definition sample (self : t) (h : heap) (obs : Z) (u : R) : result nat :=
  sample_from h (distributions self) (act_num self) obs u.

Definition calc_d (ai aj : nat) : R :=
  if decide (ai = aj) then 0 else 1.

Definition get_policy (self : t) : loc := distributions self.

(** Lines 250-252. *)
Definition adjust (env_name : string) (all_advantages : table) : result table :=
  if String.eqb env_name "NChain-v0" then
    let? a := iadd2 all_advantages 0 1 0.1 in
    iadd2 a 1 1 0.1
  else Ok all_advantages.

Definition advantage_table (self : t) (observes actions : list Z)
    (advantages : list R) (env_name : string) : result table :=
  let? a := aggregate (sta_num self) (act_num self) observes actions advantages in
  adjust env_name a.

(** [all_advantages[s][j] - beta*calc_d(j,i)] *)
Definition value (all_advantages : table) (beta : R) (s i j : nat) : result R :=
  let? a := get2 all_advantages s j in
  Ok (a - beta * calc_d j i).

(** Lines 261-265: the scan keeps [(opt_j, opt_val)]. *)
Definition scan (all_advantages : table) (beta : R) (s i j : nat)
    (st : nat * R) : outcome (nat * R) :=
  let '(opt_j, opt_val) := st in
  assign
    (let? cur_val := value all_advantages beta s i j in
     if decide (cur_val > opt_val) then Ok (j, cur_val) else Ok st) st.

(** Lines 259-266, for one state [s] and one source action [i]. *)
Definition find_best (self : t) (all_advantages : table) (beta : R)
    (s i : nat) (best_j : list (list nat)) : outcome (list (list nat)) :=
  let opt_j := O in
  match value all_advantages beta s i opt_j with
  | Raise e => Raised e best_j
  | Ok opt_val =>
      match for_range (act_num self) (scan all_advantages beta s i)
              (opt_j, opt_val) with
      | Raised e _ => Raised e best_j
      | Done (opt_j, _) =>
          assign
            (let? r := getitem_nat best_j s in
             let? _ := getitem_nat r i in
             Ok (<[s := <[i := opt_j]> r]> best_j)) best_j
      end
  end.

Definition find_best_j (self : t) (all_advantages : table) (beta : R)
    : result (list (list nat)) :=
  let best_j := replicate (sta_num self) (replicate (act_num self) O) in
  match
    for_range (sta_num self)
      (fun s => for_range (act_num self) (find_best self all_advantages beta s))
      best_j
  with
  | Done best_j => Ok best_j
  | Raised e _ => Raise e
  end.

(** Lines 278-283: three independent tests; [rnd] is the value of
    [np.random.random()]. *)
Definition choose_beta (env_name : string) (rnd : R) : option R :=
  let opt_beta := None in
  let opt_beta :=
    if String.eqb env_name "Taxi-v3" then Some (2 + 0.8 * (rnd - 0.5))
    else opt_beta in
  let opt_beta :=
    if String.eqb env_name "NChain-v0" then Some 0.8 else opt_beta in
  let opt_beta :=
    if String.eqb env_name "CliffWalking-v0" then Some 0.5 else opt_beta in
  opt_beta.

(** Lines 301-302. *)
Definition move (self : t) (best_j : list (list nat)) (old_distributions : loc)
    (s j i : nat) (h : heap) : outcome heap :=
  assign
    (let? r := getitem_nat best_j s in
     let? b := getitem_nat r i in
     if decide (j = b) then
       store_iadd h (distributions self) s j
         (get2 (load h old_distributions) s i)
     else Ok h) h.

(** [objective] (lines 269-276) is called from commented-out code only;
    [disc_freqs] and [eps] are read by nothing else. *)
Definition update (self : t) (h : heap) (observes actions : list Z)
    (advantages disc_freqs : list R) (env_name : string) (eps : R) (rnd : R)
    : outcome (t * heap) :=
  match advantage_table self observes actions advantages env_name with
  | Raise e => Raised e (self, h)
  | Ok all_advantages =>
      let opt_beta := choose_beta env_name rnd in
      match
        (let? beta := read_local opt_beta in
         find_best_j self all_advantages beta)
      with
      | Raise e => Raised e (self, h)
      | Ok best_j =>
          let old_distributions := distributions self in
          let '(l, h) :=
            alloc h (replicate (sta_num self) (np_zeros (act_num self))) in
          let self := set_distributions self l in
          match
            for_range (sta_num self)
              (fun s =>
                 for_range (act_num self)
                   (fun j =>
                      for_range (act_num self)
                        (move self best_j old_distributions s j))) h
          with
          | Done h' => Done (self, h')
          | Raised e h' => Raised e (self, h')
          end
      end
  end.

(** ** The nested function of [update] that only commented-out code calls
    (lines 269-276)

    [objective] closes over [all_advantages], [disc_freqs] and [self]; here
    these are arguments. *)

(** Lines 274-275, one source action [i] of state [s]. *)
Definition objective_step (self : t) (h : heap) (all_advantages : table)
    (disc_freqs : list R) (beta : R) (best_j : list (list nat)) (s i : nat)
    (objective : R) : outcome R :=
  assign
    (let? r := getitem_nat best_j s in
     let? opt_j := getitem_nat r i in
     let? f := getitem_nat disc_freqs s in
     let? p := get2 (load h (distributions self)) s i in
     let? v := value all_advantages beta s i opt_j in
     Ok (objective + f * p * v)) objective.

Definition objective (self : t) (h : heap) (all_advantages : table)
    (disc_freqs : list R) (beta : R) : result R :=
  let objective := beta * delta self in
  let? best_j := find_best_j self all_advantages beta in
  match for_range (sta_num self)
          (fun s =>
             for_range (act_num self)
               (objective_step self h all_advantages disc_freqs beta best_j s))
          objective with
  | Done objective => Ok objective
  | Raised e _ => Raise e
  end.

End DRPolicyWass.

(** * Vocabulary of the properties *)

(** The table of [m] rows and [n] columns whose cell [(s, i)] is [f s i]. *)
Definition tab {A : Type} (m n : nat) (f : nat -> nat -> A) : list (list A) :=
  map (fun s => map (f s) (seq 0 n)) (seq 0 m).

(** [t[s][i] = x] on a table given by cells. *)
Definition upd {A : Type} (f : nat -> nat -> A) (s i : nat) (x : A)
    : nat -> nat -> A :=
  fun s' i' => if decide (s' = s) then if decide (i' = i) then x else f s' i'
               else f s' i'.

(** The state of the aggregation loops: [all_advantages] and [count], both
    of [m] rows and [n] columns. *)
Definition tabs (m n : nat) (st : table * table) : Prop :=
  exists f g, st = (tab m n f, tab m n g).

(** [g 0 + ... + g (n-1)] *)
Definition sum_upto (n : nat) (g : nat -> R) : R := np_sum (map g (seq 0 n)).

(** [sta_num] rows of [act_num] entries each. *)
Definition shaped (m n : nat) (t : table) : Prop :=
  length t = m /\ Forall (fun r => length r = n) t.

(** [t[s][i]] where it exists. *)
Definition cell (t : table) (s i : nat) : R :=
  default 0 (t !! s ≫= fun r => r !! i).

(** The exponential tilt of row [s]: entry [a] of line 91. *)
Definition tilted (n : nat) (fa fo : nat -> nat -> R) (beta : R) (s a : nat) : R :=
  exp (fa s a / beta) * fo s a /
  sum_upto n (fun a' => exp (fa s a' / beta) * fo s a').

(** Line 177 and line 179 for destination [i] and source [j]. *)
Definition sinkhorn_score (lam b : R) (fa : nat -> nat -> R) (s i j : nat) : R :=
  exp (lam / b * fa s i - lam * DRPolicySinkhorn.calc_d i j).

(** The mass that source [j] sends to destination [i]. *)
Definition sinkhorn_share (n : nat) (lam b : R) (fa fo : nat -> nat -> R)
    (s i j : nat) : R :=
  fo s j * sinkhorn_score lam b fa s i j /
  sum_upto n (fun k => sinkhorn_score lam b fa s k j).

(** Entry [i] of the row the sweep builds for state [s]. *)
Definition sinkhorn_new (n : nat) (lam b : R) (fa fo : nat -> nat -> R)
    (s i : nat) : R :=
  sum_upto n (fun j => sinkhorn_share n lam b fa fo s i j).

(** The quantity the scan maximises over [j], for source action [i]. *)
Definition wass_value (fa : nat -> nat -> R) (beta : R) (s i j : nat) : R :=
  fa s j - beta * DRPolicyWass.calc_d j i.

(** The pair [(opt_j, opt_val)] after [k] iterations of the scan. *)
Fixpoint scan_upto (fa : nat -> nat -> R) (beta : R) (s i k : nat) : nat * R :=
  match k with
  | O => (O, wass_value fa beta s i O)
  | S k' =>
      let st := scan_upto fa beta s i k' in
      if decide (wass_value fa beta s i k' > st.2)
      then (k', wass_value fa beta s i k') else st
  end.

(** [best_j[s][i]] *)
Definition wass_best (n : nat) (fa : nat -> nat -> R) (beta : R) (s i : nat) : nat :=
  (scan_upto fa beta s i n).1.

(** The mass destination [j] receives from the sources below [k], when
    source [i] sends its mass to [fb s i]. *)
Definition wass_received (fo : nat -> nat -> R) (fb : nat -> nat -> nat)
    (s j k : nat) : R :=
  sum_upto k (fun i => if decide (j = fb s i) then fo s i else 0).

(** A row of a valid PolicyTable: entries non-negative, summing to 1. *)
Definition pmf (r : row) : Prop :=
  Forall (fun x => 0 <= x) r /\ np_sum r = 1.

(** The conclusion of the invariant: sum within 1e-9 of 1, entries
    non-negative. *)
Definition pmf_within (tol : R) (r : row) : Prop :=
  Rabs (np_sum r - 1) <= tol /\ Forall (fun x => 0 <= x) r.

(** A list object with [m] rows of [n] entries stored at [l]. *)
Definition table_at (h : heap) (l : nat) (m n : nat) : Prop :=
  exists t, h !! l = Some t /\ shaped m n t.

(** Some sample of the batch has a state subscript outside [-S, S) or an
    action subscript outside [-A, A). *)
Definition index_out_of_range (m n : nat) (observes actions : list Z) : Prop :=
  (exists i o, observes !! i = Some o /\ ~ (- Z.of_nat m <= o < Z.of_nat m)%Z) \/
  (exists i a, (i < length observes)%nat /\ actions !! i = Some a /\
               ~ (- Z.of_nat n <= a < Z.of_nat n)%Z).

(** What [sample] promises for the table [t] it reads and the number of
    actions [act_num]: [IndexError] for a state outside [-S, S); a state in
    [-S, 0) reads the row of [state + S]; for a state in [0, S) whose row
    numpy accepts as a probability vector (length A, no negative entry,
    sum 1 within sqrt(eps)), an action index below A that has positive
    probability in the row, whatever the uniform draw in [0, 1). *)
Definition sample_contract (sample : Z -> R -> result nat) (t : table)
    (act_num : nat) : Prop :=
  forall (obs : Z) (u : R),
    let S := Z.of_nat (length t) in
    (~ (- S <= obs < S)%Z -> sample obs u = Raise IndexError) /\
    ((- S <= obs < 0)%Z -> sample obs u = sample (obs + S)%Z u) /\
    ((0 <= obs < S)%Z ->
     forall r, t !! Z.to_nat obs = Some r -> length r = act_num ->
       pmf_within choice_atol r -> 0 <= u < 1 ->
       exists a x, sample obs u = Ok a /\
                   (a < act_num)%nat /\ r !! a = Some x /\ 0 < x).

(** A batch of three lists of one length whose subscripts wrap into a table
    of [m] rows and [n] columns. *)
Definition batch_ok (m n : nat) (observes actions : list Z) (advantages : row)
    : Prop :=
  length observes = length actions /\ length observes = length advantages /\
  Forall (fun o => (- Z.of_nat m <= o < Z.of_nat m)%Z) observes /\
  Forall (fun a => (- Z.of_nat n <= a < Z.of_nat n)%Z) actions.

(** The advantage table [[1, -1], [0, 0]] of the KL example. *)
Definition example_advantage (s a : nat) : R :=
  match s, a with
  | O, O => 1
  | O, _ => -1
  | _, _ => 0
  end.



(** The advantage row [1, 0]: one sample (-1, 0, 1.0) on a single state. *)
Definition last_state_advantage (s a : nat) : R :=
  match a with
  | O => 1
  | _ => 0
  end.

(** Resolves the float comparisons of a concrete run. *)
Ltac decide_R :=
  repeat (simpl;
          match goal with
          | |- context [decide ?P] =>
              first [ destruct (decide P) as [_|?]; [ | exfalso; lra ]
                    | destruct (decide P) as [?|_]; [ exfalso; lra | ] ]
          end).

(** * Vocabulary of the further properties *)

(** The mean of a list of samples, 0 for no sample. *)
Definition mean (l : row) : R :=
  match l with
  | [] => 0
  | _ => np_sum l / INR (length l)
  end.

(** The index a subscript in [-n, n) stands for. *)
Definition wrap (n : nat) (k : Z) : nat := Z.to_nat (k mod Z.of_nat n).

(** Sample [k] of the batch falls into cell [(s, a)]. *)
Definition hits (m n : nat) (observes actions : list Z) (s a k : nat) : Prop :=
  wrap m <$> observes !! k = Some s /\ wrap n <$> actions !! k = Some a.

(** [advantages[k]] of a batch that has a sample [k]. *)
Definition sample_value (advantages : row) (k : nat) : R :=
  default 0 (advantages !! k).

(** What [__init__] leaves on the heap [h']: a new list object at [p] with
    [m] rows of [n] entries [1/n], and nothing else touched. *)
Definition fresh_uniform (h h' : heap) (p m n : nat) : Prop :=
  h !! p = None /\
  (forall l, l <> p -> h' !! l = h !! l) /\
  load h' p = replicate m (replicate n (1 / INR n)) /\
  ((0 < n)%nat ->
   Forall (fun r => pmf r /\ Forall (fun x => 0 < x) r) (load h' p)).

(** The division of lines 57-60, cell by cell. *)
Definition averaged (F G : nat -> nat -> R) (s a : nat) : R :=
  if decide (G s a <> 0) then F s a / G s a else F s a.

(** Row [s] of a table, empty where there is none. *)
Definition row_of (t : table) (s : nat) : row := default [] (t !! s).

(** [sum_a row[a] * adv[a]]: the expected advantage under a row. *)
Definition expected (n : nat) (p x : nat -> R) : R :=
  sum_upto n (fun a => p a * x a).

(** [v] in cell [(i, j)] and 0 elsewhere. *)
Definition bonus_at (i j : nat) (v : R) (s a : nat) : R :=
  if decide (s = i /\ a = j) then v else 0.

(** What the NChain branch adds to the advantage table; [v] is the second
    bonus, 0.3 in two classes and 0.1 in the third. *)
Definition nchain_bonus (v : R) (env_name : string) (s a : nat) : R :=
  if String.eqb env_name "NChain-v0"
  then bonus_at 0 1 0.1 s a + bonus_at 1 1 v s a else 0.

(** What the Taxi branch of [DRPolicyKL.update] adds. *)
Definition taxi_bonus (env_name : string) (s a : nat) : R :=
  if String.eqb env_name "Taxi-v3"
  then if decide ((400 <= s < 500)%nat /\ a = O) then 2 else 0
  else 0.

(** The table has the cells the NChain branch writes to. *)
Definition nchain_room (env_name : string) (m n : nat) : Prop :=
  String.eqb env_name "NChain-v0" = true -> (2 <= m)%nat /\ (2 <= n)%nat.

(** The table has the cells the Taxi branch writes to. *)
Definition taxi_room (env_name : string) (m n : nat) : Prop :=
  String.eqb env_name "Taxi-v3" = true -> (500 <= m)%nat /\ (1 <= n)%nat.

(** The batch [update] gets through lines 54-56 with: every sample
    [i < len(observes)] has an action and an advantage, and both of its
    subscripts fall into the table (negative ones count from the end). *)
Definition accepted (m n : nat) (observes actions : list Z) (advantages : row)
    : Prop :=
  forall i, (i < length observes)%nat ->
    exists o a v,
      observes !! i = Some o /\ actions !! i = Some a /\
      advantages !! i = Some v /\
      (- Z.of_nat m <= o < Z.of_nat m)%Z /\ (- Z.of_nat n <= a < Z.of_nat n)%Z.

(** The checks [np.random.choice] makes on [p] for [act_num] choices: there
    is a choice, [p] has one entry for each, none is negative, and the sum
    is 1 within [sqrt(eps)]. *)
Definition numpy_accepts (act_num : nat) (p : row) : Prop :=
  act_num <> O /\ length p = act_num /\ Forall (fun x => 0 <= x) p /\
  Rabs (np_sum p - 1) <= choice_atol.

(** The draw [u] falls between the normalised partial sums before and
    after entry [a]. *)
Definition drawn (p : row) (u : R) (a : nat) : Prop :=
  (a < length p)%nat /\
  np_sum (take a p) / np_sum p <= u < np_sum (take (S a) p) / np_sum p.

(** [sample] on the table [t]: a row numpy rejects gives [ValueError]; on
    any other row, the draw [u] of [0 <= u < 1] selects the one action whose
    interval of the normalised cumulative sums contains it. *)
Definition sample_law (sample : Z -> R -> result nat) (t : table)
    (act_num : nat) : Prop :=
  forall (obs : Z) (s : nat) (r : row) (u : R),
    norm_index (length t) obs = Ok s -> t !! s = Some r ->
    (~ numpy_accepts act_num r -> sample obs u = Raise ValueError) /\
    (numpy_accepts act_num r -> 0 <= u < 1 ->
     forall a, sample obs u = Ok a <-> drawn r u a).

(** The table at [p] has [m] rows of [n] entries and every row is a
    probability vector. *)
Definition valid_policy (h : heap) (p m n : nat) : Prop :=
  table_at h p m n /\ forall s, (s < m)%nat -> pmf (row_of (load h p) s).





(** * Vocabulary of the properties of the nested functions *)

(** [disc_freqs[s]] where it exists. *)
Definition freq (disc_freqs : list R) (s : nat) : R := default 0 (disc_freqs !! s).



(** * Vocabulary of the optimality properties *)




(** A transport plan out of the row [src]: [T i j >= 0] is the mass taken
    from source [i] to destination [j], and source [i] hands out all of
    [src i]. *)
Definition plan (n : nat) (T : nat -> nat -> R) (src : nat -> R) : Prop :=
  (forall i j, (i < n)%nat -> (j < n)%nat -> 0 <= T i j) /\
  (forall i, (i < n)%nat -> sum_upto n (T i) = src i).

(** What a plan collects when moving a unit from [i] to [j] gains
    [gain i j]. *)
Definition plan_value (n : nat) (T gain : nat -> nat -> R) : R :=
  sum_upto n (fun i => sum_upto n (fun j => T i j * gain i j)).

(** The row a plan arrives at: destination [j] receives from every source. *)
Definition arrivals (n : nat) (T : nat -> nat -> R) (j : nat) : R :=
  sum_upto n (fun i => T i j).

(** * Properties *)

(** ** Loops *)

Lemma for_in_app {A St : Type} (xs ys : list A) (body : A -> St -> outcome St) st :
  for_in (xs ++ ys) body st = next (for_in xs body st) (for_in ys body).
Proof.
  revert st. induction xs as [|x xs IH]; intros st; simpl; [reflexivity|].
  destruct (body x st); simpl; [apply IH | reflexivity].
Qed.

Lemma for_range_S {St : Type} (n : nat) (body : nat -> St -> outcome St) st :
  for_range (S n) body st = next (for_range n body st) (body n).
Proof.
  unfold for_range. rewrite seq_S, for_in_app. simpl.
  destruct (for_in (seq 0 n) body st); simpl; [|reflexivity].
  destruct (body n st0); reflexivity.
Qed.

Lemma for_range_0 {St : Type} (body : nat -> St -> outcome St) st :
  for_range 0 body st = Done st.
Proof. reflexivity. Qed.

(** A loop whose body cannot raise from the states of [P] completes in [P]. *)
Lemma for_in_total {A St : Type} (P : St -> Prop) (xs : list A)
    (body : A -> St -> outcome St) st :
  (forall x st, x ∈ xs -> P st -> exists st', body x st = Done st' /\ P st') ->
  P st -> exists st', for_in xs body st = Done st' /\ P st'.
Proof.
  revert st. induction xs as [|x xs IH]; intros st Hb HP; simpl.
  - eauto.
  - destruct (Hb x st) as (st1 & -> & HP1); [left | assumption |]. simpl.
    apply IH; [|assumption]. intros y st2 Hy. apply Hb. by right.
Qed.

(** A loop whose body either stays in [P] or raises [e] does the same, and
    it raises as soon as some iteration must. *)
Lemma for_in_raises {A St : Type} (P : St -> Prop) (e : exn) (xs : list A)
    (body : A -> St -> outcome St) st :
  (forall x st, x ∈ xs -> P st ->
     (exists st', body x st = Done st' /\ P st') \/ body x st = Raised e st) ->
  P st ->
  (exists st', for_in xs body st = Done st' /\ P st') \/
  (exists st', for_in xs body st = Raised e st').
Proof.
  revert st. induction xs as [|x xs IH]; intros st Hb HP; simpl.
  - left. eauto.
  - destruct (Hb x st) as [(st1 & -> & HP1) | ->]; [left | assumption | |].
    + simpl. apply IH; [|assumption]. intros y st2 Hy. apply Hb. by right.
    + right. eauto.
Qed.

Lemma for_in_must_raise {A St : Type} (P : St -> Prop) (e : exn) (xs : list A)
    (body : A -> St -> outcome St) st (bad : A) :
  (forall x st, x ∈ xs -> P st ->
     (exists st', body x st = Done st' /\ P st') \/ body x st = Raised e st) ->
  bad ∈ xs -> (forall st, P st -> body bad st = Raised e st) ->
  P st -> exists st', for_in xs body st = Raised e st'.
Proof.
  revert st. induction xs as [|x xs IH]; intros st Hb Hin Hbad HP; simpl.
  - by apply elem_of_nil in Hin.
  - apply elem_of_cons in Hin as [<- | Hin].
    + rewrite (Hbad st HP). simpl. eauto.
    + destruct (Hb x st) as [(st1 & -> & HP1) | ->]; [left | assumption | |].
      * simpl. apply IH; try assumption. intros y st2 Hy. apply Hb. by right.
      * simpl. eauto.
Qed.

(** ** Subscripts *)

Lemma norm_index_nat (n i : nat) :
  (i < n)%nat -> norm_index n (Z.of_nat i) = Ok i.
Proof.
  intros Hi. unfold norm_index. rewrite decide_True by lia.
  by rewrite Nat2Z.id.
Qed.

Lemma norm_index_wrap (n : nat) (k : Z) :
  (- Z.of_nat n <= k < 0)%Z -> norm_index n k = Ok (Z.to_nat (k + Z.of_nat n)).
Proof.
  intros Hk. unfold norm_index.
  rewrite decide_False by lia. by rewrite decide_True by lia.
Qed.

Lemma norm_index_out (n : nat) (k : Z) :
  ~ (- Z.of_nat n <= k < Z.of_nat n)%Z -> norm_index n k = Raise IndexError.
Proof.
  intros Hk. unfold norm_index.
  rewrite decide_False by lia. by rewrite decide_False by lia.
Qed.

Lemma norm_index_cases (n : nat) (k : Z) :
  (exists i, norm_index n k = Ok i /\ (i < n)%nat) \/ norm_index n k = Raise IndexError.
Proof.
  unfold norm_index. repeat case_decide; [left | left | right].
  - eexists. split; [reflexivity | lia].
  - eexists. split; [reflexivity | lia].
  - reflexivity.
Qed.

(** ** Tables given by their cells *)

Lemma lookup_map_seq {A : Type} (g : nat -> A) (n i : nat) :
  (i < n)%nat -> map g (seq 0 n) !! i = Some (g i).
Proof.
  intros Hi. rewrite list_lookup_fmap, lookup_seq_lt by assumption. reflexivity.
Qed.

Lemma tab_lookup {A : Type} (m n : nat) (f : nat -> nat -> A) (s : nat) :
  (s < m)%nat -> tab m n f !! s = Some (map (f s) (seq 0 n)).
Proof. intros Hs. unfold tab. by rewrite lookup_map_seq. Qed.

Lemma tab_length {A : Type} (m n : nat) (f : nat -> nat -> A) :
  length (tab m n f) = m.
Proof. unfold tab. by rewrite length_map, length_seq. Qed.

Lemma tab_ext {A : Type} (m n : nat) (f g : nat -> nat -> A) :
  (forall s i, (s < m)%nat -> (i < n)%nat -> f s i = g s i) ->
  tab m n f = tab m n g.
Proof.
  intros H. unfold tab. apply map_ext_in. intros s Hs%in_seq.
  apply map_ext_in. intros i Hi%in_seq. apply H; lia.
Qed.

Lemma tab_replicate {A : Type} (m n : nat) (x : A) :
  replicate m (replicate n x) = tab m n (fun _ _ => x).
Proof.
  apply list_eq. intros s. destruct (decide (s < m)%nat) as [Hs|Hs].
  - rewrite tab_lookup, lookup_replicate_2 by assumption. f_equal.
    apply list_eq. intros i. destruct (decide (i < n)%nat) as [Hi|Hi].
    + by rewrite lookup_map_seq, lookup_replicate_2.
    + rewrite !lookup_ge_None_2; [done | |].
      * rewrite length_map, length_seq. lia.
      * rewrite length_replicate. lia.
  - rewrite !lookup_ge_None_2; [done | |].
    + rewrite tab_length. lia.
    + rewrite length_replicate. lia.
Qed.

Lemma insert_map_seq {A : Type} (g : nat -> A) (n i : nat) (x : A) :
  <[i := x]> (map g (seq 0 n)) =
  map (fun i' => if decide (i' = i) then x else g i') (seq 0 n).
Proof.
  apply list_eq. intros k. destruct (decide (k < n)%nat) as [Hk|Hk].
  - rewrite (lookup_map_seq _ n k) by assumption.
    destruct (decide (k = i)) as [->|Hne].
    + rewrite list_lookup_insert_eq; [done|]. by rewrite length_map, length_seq.
    + rewrite list_lookup_insert_ne by congruence. by rewrite lookup_map_seq.
  - rewrite !lookup_ge_None_2; [done | |].
    + rewrite length_map, length_seq. lia.
    + rewrite length_insert, length_map, length_seq. lia.
Qed.

Lemma insert_tab {A : Type} (m n : nat) (f : nat -> nat -> A) (s i : nat) (x : A) :
  <[s := <[i := x]> (map (f s) (seq 0 n))]> (tab m n f) = tab m n (upd f s i x).
Proof.
  unfold tab at 1. rewrite insert_map_seq. rewrite insert_map_seq.
  unfold tab. apply map_ext_in. intros s' _. unfold upd.
  destruct (decide (s' = s)) as [->|]; reflexivity.
Qed.

Lemma get2_tab (m n : nat) (f : nat -> nat -> R) (s i : nat) :
  (s < m)%nat -> (i < n)%nat -> get2 (tab m n f) s i = Ok (f s i).
Proof.
  intros Hs Hi. unfold get2, getitem_nat.
  rewrite tab_lookup by assumption. simpl. by rewrite lookup_map_seq.
Qed.

Lemma set2_tab (m n : nat) (f : nat -> nat -> R) (s i : nat) (x : R) :
  (s < m)%nat -> (i < n)%nat ->
  set2 (tab m n f) s i x = Ok (tab m n (upd f s i x)).
Proof.
  intros Hs Hi. unfold set2, getitem_nat.
  rewrite tab_lookup by assumption. simpl.
  rewrite lookup_map_seq by assumption. simpl. by rewrite insert_tab.
Qed.

Lemma getitem_nat_tab {A : Type} (m n : nat) (f : nat -> nat -> A) (s : nat) :
  (s < m)%nat -> getitem_nat (tab m n f) s = Ok (map (f s) (seq 0 n)).
Proof. intros Hs. unfold getitem_nat. by rewrite tab_lookup. Qed.

Lemma getitem_nat_row {A : Type} (g : nat -> A) (n i : nat) :
  (i < n)%nat -> getitem_nat (map g (seq 0 n)) i = Ok (g i).
Proof. intros Hi. unfold getitem_nat. by rewrite lookup_map_seq. Qed.

Lemma getitem_nat_cases {A : Type} (l : list A) (i : nat) :
  (exists x, getitem_nat l i = Ok x /\ l !! i = Some x) \/
  (getitem_nat l i = Raise IndexError /\ l !! i = None).
Proof. unfold getitem_nat. destruct (l !! i); eauto. Qed.

(** [t[s][a] += v] on a table of [m] rows and [n] columns: the subscripts
    wrap, or the statement raises [IndexError]. *)
Lemma iadd2_tab (m n : nat) (f : nat -> nat -> R) (s a : Z) (v : R) :
  (exists i j, norm_index m s = Ok i /\ norm_index n a = Ok j /\
     (i < m)%nat /\ (j < n)%nat /\
     iadd2 (tab m n f) s a v = Ok (tab m n (upd f i j (f i j + v)))) \/
  ((norm_index m s = Raise IndexError \/ norm_index n a = Raise IndexError) /\
   iadd2 (tab m n f) s a v = Raise IndexError).
Proof.
  unfold iadd2. rewrite tab_length.
  destruct (norm_index_cases m s) as [(i & -> & Hi) | ->]; simpl; [|by right; split; [left|]].
  rewrite getitem_nat_tab by assumption. simpl. rewrite length_map, length_seq.
  destruct (norm_index_cases n a) as [(j & -> & Hj) | ->]; simpl; [|by right; split; [right|]].
  rewrite getitem_nat_row by assumption. simpl. rewrite insert_tab.
  left. exists i, j. done.
Qed.

(** ** Aggregation *)

Lemma accumulate_cases (m n : nat) observes actions advantages i st :
  tabs m n st ->
  (exists st', accumulate observes actions advantages i st = Done st' /\ tabs m n st') \/
  accumulate observes actions advantages i st = Raised IndexError st.
Proof.
  intros (f & g & ->). unfold accumulate.
  destruct (getitem_nat_cases observes i) as [(o & -> & _) | [-> _]]; simpl; [|by right].
  destruct (getitem_nat_cases actions i) as [(a & -> & _) | [-> _]]; simpl; [|by right].
  destruct (getitem_nat_cases advantages i) as [(v & -> & _) | [-> _]]; simpl; [|by right].
  destruct (iadd2_tab m n f o a v) as [(i1 & j1 & Hs & Ha & Hi1 & Hj1 & ->) | [_ ->]];
    simpl; [|by right].
  destruct (iadd2_tab m n g o a 1) as [(i2 & j2 & _ & _ & _ & _ & ->) | [_ ->]];
    simpl; [|by right].
  left. eexists. split; [reflexivity|]. by eexists _, _.
Qed.

Lemma accumulate_bad_state (m n : nat) observes actions advantages i o st :
  tabs m n st -> observes !! i = Some o ->
  ~ (- Z.of_nat m <= o < Z.of_nat m)%Z ->
  accumulate observes actions advantages i st = Raised IndexError st.
Proof.
  intros (f & g & ->) Ho Hbad. unfold accumulate, getitem_nat at 1. rewrite Ho. simpl.
  destruct (getitem_nat_cases actions i) as [(a & -> & _) | [-> _]]; simpl; [|done].
  destruct (getitem_nat_cases advantages i) as [(v & -> & _) | [-> _]]; simpl; [|done].
  unfold iadd2 at 1. rewrite tab_length, norm_index_out by assumption. done.
Qed.

Lemma accumulate_bad_action (m n : nat) observes actions advantages i a st :
  tabs m n st -> actions !! i = Some a ->
  ~ (- Z.of_nat n <= a < Z.of_nat n)%Z ->
  accumulate observes actions advantages i st = Raised IndexError st.
Proof.
  intros (f & g & ->) Ha Hbad. unfold accumulate.
  destruct (getitem_nat_cases observes i) as [(o & -> & _) | [-> _]]; simpl; [|done].
  unfold getitem_nat at 1. rewrite Ha. simpl.
  destruct (getitem_nat_cases advantages i) as [(v & -> & _) | [-> _]]; simpl; [|done].
  destruct (iadd2_tab m n f o a v) as [(i1 & j1 & _ & Hn & _) | [_ ->]]; [|done].
  rewrite norm_index_out in Hn by assumption. discriminate.
Qed.

Lemma average_tabs (m n s i : nat) st :
  (s < m)%nat -> (i < n)%nat -> tabs m n st ->
  exists st', average s i st = Done st' /\ tabs m n st'.
Proof.
  intros Hs Hi (f & g & ->). unfold average.
  rewrite get2_tab by assumption. simpl. case_decide.
  - rewrite get2_tab by assumption. simpl. rewrite set2_tab by assumption. simpl.
    eexists. split; [reflexivity|]. by eexists _, _.
  - simpl. eexists. split; [reflexivity|]. by eexists _, _.
Qed.

Lemma average_loop_tabs (m n : nat) st :
  tabs m n st ->
  exists st', for_range m (fun s => for_range n (average s)) st = Done st' /\
              tabs m n st'.
Proof.
  intros Hst. apply (for_in_total (tabs m n)); [|assumption].
  intros s st1 Hs%elem_of_seq Hst1.
  apply (for_in_total (tabs m n)); [|assumption].
  intros i st2 Hi%elem_of_seq Hst2. apply (average_tabs m n); [lia | lia | assumption].
Qed.

Lemma zeros_tabs (m n : nat) :
  tabs m n (replicate m (np_zeros n), replicate m (np_zeros n)).
Proof. unfold np_zeros. rewrite tab_replicate. by eexists _, _. Qed.

Lemma accumulate_loop_cases (m n : nat) observes actions advantages :
  (exists st', for_range (length observes) (accumulate observes actions advantages)
                 (replicate m (np_zeros n), replicate m (np_zeros n)) = Done st' /\
               tabs m n st') \/
  (exists st', for_range (length observes) (accumulate observes actions advantages)
                 (replicate m (np_zeros n), replicate m (np_zeros n)) =
               Raised IndexError st').
Proof.
  apply (for_in_raises (tabs m n)); [|apply zeros_tabs].
  intros i st _ Hst. by apply accumulate_cases.
Qed.

(** The table of averages has [sta_num] rows of [act_num] entries, unless a
    subscript was out of range. *)
Lemma aggregate_cases (m n : nat) observes actions advantages :
  (exists f, aggregate m n observes actions advantages = Ok (tab m n f)) \/
  aggregate m n observes actions advantages = Raise IndexError.
Proof.
  unfold aggregate.
  destruct (accumulate_loop_cases m n observes actions advantages)
    as [(st1 & -> & Hst1) | (st1 & ->)].
  - simpl. destruct (average_loop_tabs m n st1 Hst1) as (st2 & -> & (f & g & ->)).
    left. by exists f.
  - by right.
Qed.

Lemma aggregate_raises (m n : nat) observes actions advantages (i : nat) :
  (i < length observes)%nat ->
  (forall st, tabs m n st ->
     accumulate observes actions advantages i st = Raised IndexError st) ->
  aggregate m n observes actions advantages = Raise IndexError.
Proof.
  intros Hi Hbad.
  assert (exists st', for_range (length observes)
            (accumulate observes actions advantages)
            (replicate m (np_zeros n), replicate m (np_zeros n)) =
          Raised IndexError st') as (st1 & H1).
  { apply (for_in_must_raise (tabs m n) _ _ _ _ i); try done.
    - intros k st _ Hst. by apply accumulate_cases.
    - apply elem_of_seq. lia.
    - apply zeros_tabs. }
  unfold aggregate. by rewrite H1.
Qed.

(** ** Sums *)

Lemma np_sum_app (u v : row) : np_sum (u ++ v) = np_sum u + np_sum v.
Proof. induction u as [|x u IH]; simpl; [lra | rewrite IH; lra]. Qed.

Lemma sum_upto_S (n : nat) (g : nat -> R) :
  sum_upto (S n) g = sum_upto n g + g n.
Proof. unfold sum_upto. rewrite seq_S, map_app, np_sum_app. simpl. lra. Qed.

Lemma sum_upto_ext (n : nat) (g k : nat -> R) :
  (forall i, (i < n)%nat -> g i = k i) -> sum_upto n g = sum_upto n k.
Proof.
  intros H. unfold sum_upto. f_equal. apply map_ext_in.
  intros i Hi%in_seq. apply H. lia.
Qed.

Lemma sum_upto_0 (n : nat) : sum_upto n (fun _ => 0) = 0.
Proof. induction n as [|n IH]; [reflexivity | rewrite sum_upto_S, IH; lra]. Qed.

Lemma sum_upto_plus (n : nat) (g k : nat -> R) :
  sum_upto n (fun i => g i + k i) = sum_upto n g + sum_upto n k.
Proof.
  induction n as [|n IH]; [unfold sum_upto; simpl; lra|].
  rewrite !sum_upto_S, IH. lra.
Qed.

Lemma sum_upto_scal (n : nat) (c : R) (g : nat -> R) :
  sum_upto n (fun i => c * g i) = c * sum_upto n g.
Proof.
  induction n as [|n IH]; [unfold sum_upto; simpl; lra|].
  rewrite !sum_upto_S, IH. lra.
Qed.

Lemma sum_upto_div (n : nat) (c : R) (g : nat -> R) :
  sum_upto n (fun i => g i / c) = sum_upto n g / c.
Proof.
  induction n as [|n IH]; [unfold sum_upto; simpl; lra|].
  rewrite !sum_upto_S, IH. lra.
Qed.

Lemma sum_upto_swap (m n : nat) (g : nat -> nat -> R) :
  sum_upto m (fun i => sum_upto n (fun j => g i j)) =
  sum_upto n (fun j => sum_upto m (fun i => g i j)).
Proof.
  induction m as [|m IH].
  - unfold sum_upto at 1. simpl. symmetry. apply sum_upto_0.
  - rewrite sum_upto_S, IH, <- sum_upto_plus. apply sum_upto_ext.
    intros j _. by rewrite sum_upto_S.
Qed.

Lemma sum_upto_nonneg (n : nat) (g : nat -> R) :
  (forall i, (i < n)%nat -> 0 <= g i) -> 0 <= sum_upto n g.
Proof.
  induction n as [|n IH]; intros H; [unfold sum_upto; simpl; lra|].
  rewrite sum_upto_S. specialize (H n (Nat.lt_succ_diag_r n)) as Hn.
  assert (0 <= sum_upto n g) by (apply IH; intros i Hi; apply H; lia). lra.
Qed.



(** Exactly one destination receives the mass of a source. *)
Lemma sum_upto_indicator (m b : nat) (x : R) :
  (b < m)%nat -> sum_upto m (fun j => if decide (j = b) then x else 0) = x.
Proof.
  induction m as [|m IH]; intros Hb; [lia|].
  rewrite sum_upto_S. destruct (decide (m = b)) as [->|Hne].
  - rewrite (sum_upto_ext _ _ (fun _ => 0)), sum_upto_0; [lra|].
    intros i Hi. rewrite decide_False by lia. reflexivity.
  - rewrite IH by lia. lra.
Qed.

(** The sum over the indices that satisfy a test. *)
Lemma sum_filter (n : nat) (g : nat -> R) (P : nat -> Prop)
    `{!forall i, Decision (P i)} :
  sum_upto n (fun i => if decide (P i) then g i else 0) =
  np_sum (map g (filter P (seq 0 n))).
Proof.
  unfold sum_upto. induction (seq 0 n) as [|i l IH]; [reflexivity|].
  simpl. rewrite filter_cons. case_decide; simpl; rewrite IH; lra.
Qed.

(** ** Array operations on rows given by their entries *)

Lemma np_div_row (g : nat -> R) (n : nat) (c : R) :
  np_div (map g (seq 0 n)) c = map (fun i => g i / c) (seq 0 n).
Proof. unfold np_div. by rewrite map_map. Qed.

Lemma np_exp_row (g : nat -> R) (n : nat) :
  np_exp (map g (seq 0 n)) = map (fun i => exp (g i)) (seq 0 n).
Proof. unfold np_exp. by rewrite map_map. Qed.

Lemma np_mul_row (g k : nat -> R) (n : nat) :
  np_mul (map g (seq 0 n)) (map k (seq 0 n)) = map (fun i => g i * k i) (seq 0 n).
Proof. unfold np_mul. induction (seq 0 n) as [|i l IH]; simpl; [done | by rewrite IH]. Qed.

Lemma insert_tab_row {A : Type} (m n : nat) (f : nat -> nat -> A) (s : nat)
    (g : nat -> A) :
  <[s := map g (seq 0 n)]> (tab m n f) =
  tab m n (fun s' i => if decide (s' = s) then g i else f s' i).
Proof.
  unfold tab. rewrite insert_map_seq. apply map_ext_in. intros s' _.
  case_decide; reflexivity.
Qed.

(** ** Shapes *)

Lemma shaped_tab (m n : nat) (t : table) :
  shaped m n t -> t = tab m n (cell t).
Proof.
  intros [Hm Hn]. apply list_eq. intros s.
  destruct (decide (s < m)%nat) as [Hs|Hs].
  - rewrite tab_lookup by assumption.
    destruct (lookup_lt_is_Some_2 t s) as [r Hr]; [lia|]. rewrite Hr. f_equal.
    assert (length r = n) as Hlen.
    { rewrite Forall_forall in Hn. apply Hn. by eapply list_elem_of_lookup_2. }
    apply list_eq. intros i. destruct (decide (i < n)%nat) as [Hi|Hi].
    + rewrite lookup_map_seq by assumption.
      destruct (lookup_lt_is_Some_2 r i) as [x Hx]; [lia|].
      unfold cell. rewrite Hr. simpl. by rewrite Hx.
    + rewrite !lookup_ge_None_2; [done | |]; [rewrite length_map, length_seq|]; lia.
  - rewrite !lookup_ge_None_2; [done | |]; [rewrite tab_length|]; lia.
Qed.

Lemma tab_shaped (m n : nat) (f : nat -> nat -> R) : shaped m n (tab m n f).
Proof.
  split; [apply tab_length|]. unfold tab. apply Forall_forall.
  intros r (s & -> & _)%list_elem_of_fmap. by rewrite length_map, length_seq.
Qed.

Lemma cell_tab (m n : nat) (f : nat -> nat -> R) (s i : nat) :
  (s < m)%nat -> (i < n)%nat -> cell (tab m n f) s i = f s i.
Proof.
  intros Hs Hi. unfold cell. rewrite tab_lookup by assumption. simpl.
  by rewrite lookup_map_seq.
Qed.

Lemma iadd2_cases (m n : nat) (f : nat -> nat -> R) (s a : Z) (v : R) :
  (exists f', iadd2 (tab m n f) s a v = Ok (tab m n f')) \/
  iadd2 (tab m n f) s a v = Raise IndexError.
Proof.
  destruct (iadd2_tab m n f s a v) as [(i & j & _ & _ & _ & _ & ->) | [_ ->]];
    [left; eauto | by right].
Qed.

(** Two bonuses in a row, as every [adjust] writes them for NChain. *)
Lemma iadd2_twice_cases (m n : nat) (f : nat -> nat -> R) (s1 a1 s2 a2 : Z) (v1 v2 : R) :
  (exists f', (let? a := iadd2 (tab m n f) s1 a1 v1 in iadd2 a s2 a2 v2) =
              Ok (tab m n f')) \/
  (let? a := iadd2 (tab m n f) s1 a1 v1 in iadd2 a s2 a2 v2) = Raise IndexError.
Proof.
  destruct (iadd2_cases m n f s1 a1 v1) as [(f1 & ->) | ->]; simpl; [|by right].
  apply iadd2_cases.
Qed.

(** ** DRPolicyKL: the advantage table and the projection loop *)

Lemma KL_adjust_cases (m n : nat) (f : nat -> nat -> R) (env_name : string) :
  (exists f', DRPolicyKL.adjust env_name (tab m n f) = Ok (tab m n f')) \/
  DRPolicyKL.adjust env_name (tab m n f) = Raise IndexError.
Proof.
  unfold DRPolicyKL.adjust.
  assert ((exists f1, (if String.eqb env_name "NChain-v0"
                       then let? a := iadd2 (tab m n f) 0 1 0.1 in iadd2 a 1 1 0.3
                       else Ok (tab m n f)) = Ok (tab m n f1)) \/
          (if String.eqb env_name "NChain-v0"
           then let? a := iadd2 (tab m n f) 0 1 0.1 in iadd2 a 1 1 0.3
           else Ok (tab m n f)) = Raise IndexError) as [(f1 & ->) | ->].
  { destruct (String.eqb env_name "NChain-v0"); [apply iadd2_twice_cases | left; eauto]. }
  2: by right.
  simpl. destruct (String.eqb env_name "Taxi-v3"); [|left; eauto].
  assert ((exists st', for_range2 400 500
             (fun s a => assign (iadd2 a (Z.of_nat s) 0 2) a) (tab m n f1) = Done st' /\
             exists f', st' = tab m n f') \/
          (exists st', for_range2 400 500
             (fun s a => assign (iadd2 a (Z.of_nat s) 0 2) a) (tab m n f1) =
             Raised IndexError st')) as [(st' & -> & f' & ->) | (st' & ->)].
  { apply (for_in_raises (fun t => exists f', t = tab m n f')); [|eauto].
    intros s t _ (f2 & ->).
    destruct (iadd2_cases m n f2 (Z.of_nat s) 0 2) as [(f3 & ->) | ->]; simpl; eauto. }
  - left. eauto.
  - by right.
Qed.

Lemma KL_advantage_table_cases (self : DRPolicyKL.t) observes actions advantages env_name :
  (exists f, DRPolicyKL.advantage_table self observes actions advantages env_name =
             Ok (tab (DRPolicyKL.sta_num self) (DRPolicyKL.act_num self) f)) \/
  DRPolicyKL.advantage_table self observes actions advantages env_name = Raise IndexError.
Proof.
  unfold DRPolicyKL.advantage_table.
  destruct (aggregate_cases (DRPolicyKL.sta_num self) (DRPolicyKL.act_num self)
              observes actions advantages) as [(f & ->) | ->]; simpl; [|by right].
  apply KL_adjust_cases.
Qed.

Lemma load_insert (h : heap) (l : nat) (t : table) : load (<[l := t]> h) l = t.
Proof. unfold load. by rewrite lookup_insert_eq. Qed.

Lemma load_insert_ne (h : heap) (l l' : nat) (t : table) :
  l <> l' -> load (<[l := t]> h) l' = load h l'.
Proof. intros Hne. unfold load. by rewrite lookup_insert_ne. Qed.

Lemma load_Some (h : heap) (l : nat) (t : table) : h !! l = Some t -> load h l = t.
Proof. intros H. unfold load. by rewrite H. Qed.

(** After [k] iterations the first [k] rows are tilted and the others are
    still the old ones. *)
Lemma KL_tilt_loop (self : DRPolicyKL.t) (h : heap) (m n : nat)
    (fa fo : nat -> nat -> R) (beta : R) (k : nat) :
  h !! DRPolicyKL.distributions self = Some (tab m n fo) -> (k <= m)%nat ->
  for_range k
    (DRPolicyKL.tilt self (tab m n fa) beta (DRPolicyKL.distributions self)) h =
  Done (<[DRPolicyKL.distributions self :=
            tab m n (fun s a => if decide (s < k)%nat then tilted n fa fo beta s a
                                else fo s a)]> h).
Proof.
  intros Hh. induction k as [|k IH]; intros Hk.
  - rewrite for_range_0. f_equal. symmetry. by apply insert_id.
  - rewrite for_range_S, IH by lia. simpl. unfold DRPolicyKL.tilt.
    rewrite getitem_nat_tab by lia. simpl.
    rewrite load_insert, getitem_nat_tab by lia. simpl.
    unfold store_row. rewrite load_insert, tab_length, decide_True by lia. simpl.
    rewrite insert_insert_eq. do 2 f_equal.
    rewrite np_div_row, np_exp_row, np_mul_row, np_div_row, insert_tab_row.
    apply tab_ext. intros s a Hs Ha.
    destruct (decide (s = k)) as [->|Hne].
    + destruct (decide (k < k)%nat); [lia|].
      by rewrite decide_True by lia.
    + destruct (decide (s < k)%nat); [by rewrite decide_True by lia|
                                       by rewrite decide_False by lia].
Qed.

(** What a completed [DRPolicyKL.update] leaves on the heap: the list object
    itself now holds the tilted rows. *)
Lemma KL_update_done (self : DRPolicyKL.t) (h h' : heap) (fo : nat -> nat -> R)
    observes actions advantages disc_freqs env_name eps :
  h !! DRPolicyKL.distributions self =
    Some (tab (DRPolicyKL.sta_num self) (DRPolicyKL.act_num self) fo) ->
  DRPolicyKL.update self h observes actions advantages disc_freqs env_name eps = Done h' ->
  exists fa,
    DRPolicyKL.advantage_table self observes actions advantages env_name =
      Ok (tab (DRPolicyKL.sta_num self) (DRPolicyKL.act_num self) fa) /\
    h' = <[DRPolicyKL.distributions self :=
             tab (DRPolicyKL.sta_num self) (DRPolicyKL.act_num self)
               (tilted (DRPolicyKL.act_num self) fa fo 1)]> h.
Proof.
  intros Hh. unfold DRPolicyKL.update.
  destruct (KL_advantage_table_cases self observes actions advantages env_name)
    as [(fa & ->) | ->]; [|discriminate].
  rewrite (KL_tilt_loop self h _ _ fa fo 1 _ Hh) by lia.
  intros [= <-]. exists fa. split; [reflexivity|]. f_equal.
  apply tab_ext. intros s a Hs Ha. by rewrite decide_True by lia.
Qed.

(** ** DRPolicySinkhorn: the advantage table and the three nested loops *)

Lemma Sinkhorn_advantage_table_cases (self : DRPolicySinkhorn.t)
    observes actions advantages env_name :
  (exists f, DRPolicySinkhorn.advantage_table self observes actions advantages env_name =
             Ok (tab (DRPolicySinkhorn.sta_num self) (DRPolicySinkhorn.act_num self) f)) \/
  DRPolicySinkhorn.advantage_table self observes actions advantages env_name =
    Raise IndexError.
Proof.
  unfold DRPolicySinkhorn.advantage_table.
  destruct (aggregate_cases (DRPolicySinkhorn.sta_num self)
              (DRPolicySinkhorn.act_num self) observes actions advantages)
    as [(f & ->) | ->]; simpl; [|by right].
  unfold DRPolicySinkhorn.adjust.
  destruct (String.eqb env_name "NChain-v0"); [apply iadd2_twice_cases | left; eauto].
Qed.

Section SinkhornLoops.

Variable self : DRPolicySinkhorn.t.
Variable b : R.
Variables fa fo : nat -> nat -> R.
Variable h : heap.
Variable p : nat.

Variables m n : nat.

#[local] Abbreviation l := (DRPolicySinkhorn.distributions self).
#[local] Abbreviation lam := (DRPolicySinkhorn.lamb self).

Hypothesis Hm : DRPolicySinkhorn.sta_num self = m.
Hypothesis Hn : DRPolicySinkhorn.act_num self = n.
Hypothesis Hpl : l <> p.
Hypothesis Hold : h !! p = Some (tab m n fo).

Lemma Sinkhorn_score_ok (s i j : nat) :
  (s < m)%nat -> (i < n)%nat ->
  DRPolicySinkhorn.score self (Some b) (tab m n fa) s i j =
  Ok (sinkhorn_score lam b fa s i j).
Proof.
  intros Hs Hi. unfold DRPolicySinkhorn.score. simpl.
  by rewrite get2_tab by assumption.
Qed.

Lemma Sinkhorn_denominator_loop (s j k : nat) :
  (s < m)%nat -> (k <= n)%nat ->
  for_range k
    (fun k denom =>
       assign (let? e := DRPolicySinkhorn.score self (Some b) (tab m n fa) s k j in
               Ok (denom + e)) denom) 0 =
  Done (sum_upto k (fun k => sinkhorn_score lam b fa s k j)).
Proof.
  intros Hs. induction k as [|k IH]; intros Hk; [reflexivity|].
  rewrite for_range_S, IH by lia. simpl.
  rewrite Sinkhorn_score_ok by (assumption || lia). simpl. by rewrite sum_upto_S.
Qed.

Lemma Sinkhorn_spread_loop (fn : nat -> nat -> R) (s j k : nat) (denom : R) :
  (s < m)%nat -> (j < n)%nat -> (k <= n)%nat ->
  for_range k (DRPolicySinkhorn.spread self (Some b) (tab m n fa) p s j denom)
    (<[l := tab m n fn]> h) =
  Done (<[l := tab m n
            (fun s' i => if decide (s' = s /\ i < k)%nat
                         then fn s' i + fo s j * sinkhorn_score lam b fa s i j / denom
                         else fn s' i)]> h).
Proof.
  intros Hs Hj. induction k as [|k IH]; intros Hk.
  - rewrite for_range_0. do 2 f_equal. apply tab_ext. intros s' i _ _.
    by rewrite decide_False by lia.
  - rewrite for_range_S, IH by lia. simpl. unfold DRPolicySinkhorn.spread.
    rewrite Sinkhorn_score_ok by (assumption || lia). simpl.
    unfold store_iadd. rewrite load_insert.
    rewrite get2_tab by (assumption || lia). simpl.
    rewrite load_insert_ne, (load_Some _ _ _ Hold) by assumption.
    rewrite get2_tab by assumption. simpl.
    rewrite set2_tab by (assumption || lia). simpl.
    rewrite insert_insert_eq. do 2 f_equal. apply tab_ext. intros s' i Hs' Hi.
    unfold upd. destruct (decide (s' = s)) as [->|Hne].
    + destruct (decide (i = k)) as [->|Hne'].
      * rewrite decide_False by lia. by rewrite decide_True by lia.
      * destruct (decide (s = s /\ i < k)%nat);
          [by rewrite decide_True by lia | by rewrite decide_False by lia].
    + rewrite !(decide_False (P := (s' = s /\ _)%nat)) by lia. reflexivity.
Qed.

Lemma Sinkhorn_sweep_loop (fn : nat -> nat -> R) (s k : nat) :
  (s < m)%nat -> (k <= n)%nat ->
  for_range k (DRPolicySinkhorn.sweep self (Some b) (tab m n fa) p s)
    (<[l := tab m n fn]> h) =
  Done (<[l := tab m n
            (fun s' i => if decide (s' = s)
                         then fn s' i +
                              sum_upto k (fun j => sinkhorn_share n lam b fa fo s i j)
                         else fn s' i)]> h).
Proof.
  intros Hs. induction k as [|k IH]; intros Hk.
  - rewrite for_range_0. do 2 f_equal. apply tab_ext. intros s' i _ _.
    case_decide; [unfold sum_upto; simpl; lra | reflexivity].
  - rewrite for_range_S, IH by lia. simpl. unfold DRPolicySinkhorn.sweep.
    unfold DRPolicySinkhorn.denominator. rewrite Hn.
    rewrite Sinkhorn_denominator_loop by (assumption || lia).
    rewrite Sinkhorn_spread_loop by (assumption || lia).
    do 2 f_equal. apply tab_ext. intros s' i Hs' Hi.
    destruct (decide (s' = s)) as [->|Hne].
    + rewrite decide_True by lia. rewrite sum_upto_S. unfold sinkhorn_share. lra.
    + by rewrite decide_False by lia.
Qed.

Lemma Sinkhorn_state_loop (fn : nat -> nat -> R) (k : nat) :
  (k <= m)%nat ->
  for_range k
    (fun s => for_range n (DRPolicySinkhorn.sweep self (Some b) (tab m n fa) p s))
    (<[l := tab m n fn]> h) =
  Done (<[l := tab m n
            (fun s i => if decide (s < k)%nat
                        then fn s i + sinkhorn_new n lam b fa fo s i
                        else fn s i)]> h).
Proof.
  induction k as [|k IH]; intros Hk.
  - rewrite for_range_0. f_equal.
  - rewrite for_range_S, IH by lia. simpl.
    rewrite Sinkhorn_sweep_loop by lia.
    do 2 f_equal. apply tab_ext. intros s i Hs Hi.
    destruct (decide (s = k)) as [->|Hne].
    + destruct (decide (k < k)%nat); [lia|]. by rewrite decide_True by lia.
    + destruct (decide (s < k)%nat);
        [by rewrite decide_True by lia | by rewrite decide_False by lia].
Qed.

End SinkhornLoops.

(** With [beta] unbound, the first evaluation of line 177 raises and the
    heap is as the loop found it. *)
Lemma Sinkhorn_unbound_loop (self : DRPolicySinkhorn.t) (adv : table)
    (p m n : nat) (h0 : heap) :
  DRPolicySinkhorn.act_num self = n -> (0 < m)%nat -> (0 < n)%nat ->
  for_range m
    (fun s => for_range n (DRPolicySinkhorn.sweep self None adv p s)) h0 =
  Raised UnboundLocalError h0.
Proof.
  intros Hn Hm0 Hn0. unfold for_range.
  destruct m as [|m']; [lia|]. destruct n as [|n']; [lia|].
  simpl. unfold DRPolicySinkhorn.sweep at 1, DRPolicySinkhorn.denominator.
  rewrite Hn. reflexivity.
Qed.

Lemma fresh_ne (h : heap) (p : nat) (t : table) :
  h !! p = Some t -> fresh (dom h) <> p.
Proof.
  intros Hp Heq. apply (is_fresh (dom h)). rewrite Heq.
  apply elem_of_dom. eauto.
Qed.

Lemma Sinkhorn_configure_fields (self : DRPolicySinkhorn.t) env_name eps beta self1 :
  DRPolicySinkhorn.configure self env_name eps = (beta, self1) ->
  DRPolicySinkhorn.sta_num self1 = DRPolicySinkhorn.sta_num self /\
  DRPolicySinkhorn.act_num self1 = DRPolicySinkhorn.act_num self /\
  DRPolicySinkhorn.distributions self1 = DRPolicySinkhorn.distributions self.
Proof.
  unfold DRPolicySinkhorn.configure.
  destruct (String.eqb env_name "Taxi-v3").
  - case_decide; intros [= <- <-]; done.
  - destruct (String.eqb env_name "NChain-v0"); intros [= <- <-]; done.
Qed.

(** [beta] is bound exactly for the two names the branches test. *)
Lemma Sinkhorn_configure_beta (self : DRPolicySinkhorn.t) env_name eps :
  (DRPolicySinkhorn.configure self env_name eps).1 =
  if String.eqb env_name "Taxi-v3" then Some 3
  else if String.eqb env_name "NChain-v0" then Some 0.8 else None.
Proof.
  unfold DRPolicySinkhorn.configure.
  destruct (String.eqb env_name "Taxi-v3"); [reflexivity|].
  destruct (String.eqb env_name "NChain-v0"); reflexivity.
Qed.

(** What a completed [DRPolicySinkhorn.update] leaves behind: a new list
    object holds the new rows, and the old one is untouched. *)
Lemma Sinkhorn_update_done (self self' : DRPolicySinkhorn.t) (h h' : heap)
    (fo : nat -> nat -> R) observes actions advantages disc_freqs env_name eps :
  let m := DRPolicySinkhorn.sta_num self in
  let n := DRPolicySinkhorn.act_num self in
  h !! DRPolicySinkhorn.distributions self = Some (tab m n fo) ->
  (0 < m)%nat -> (0 < n)%nat ->
  DRPolicySinkhorn.update self h observes actions advantages disc_freqs env_name eps =
    Done (self', h') ->
  exists fa b self1,
    DRPolicySinkhorn.advantage_table self observes actions advantages env_name =
      Ok (tab m n fa) /\
    DRPolicySinkhorn.configure self env_name eps = (Some b, self1) /\
    self' = DRPolicySinkhorn.set_distributions self1 (fresh (dom h)) /\
    h' = <[fresh (dom h) :=
             tab m n (sinkhorn_new n (DRPolicySinkhorn.lamb self1) b fa fo)]> h.
Proof.
  intros m n Hh Hm Hn. unfold DRPolicySinkhorn.update.
  destruct (Sinkhorn_advantage_table_cases self observes actions advantages env_name)
    as [(fa & ->) | ->]; [|discriminate].
  fold m n.
  destruct (DRPolicySinkhorn.configure self env_name eps) as [beta self1] eqn:Hc.
  destruct (Sinkhorn_configure_fields _ _ _ _ _ Hc) as (Hm1 & Hn1 & Hd1).
  unfold alloc. simpl. rewrite Hm1, Hn1, Hd1. fold m n.
  set (self2 := DRPolicySinkhorn.set_distributions self1 (fresh (dom h))).
  assert (DRPolicySinkhorn.distributions self2 <> DRPolicySinkhorn.distributions self)
    as Hne by (simpl; by eapply fresh_ne).
  destruct beta as [b|].
  - unfold np_zeros. rewrite tab_replicate.
    change (fresh (dom h)) with (DRPolicySinkhorn.distributions self2) at 1.
    rewrite (Sinkhorn_state_loop self2 b fa fo h _ m n) by (done || lia).
    intros [= <- <-]. exists fa, b, self1. repeat split; [].
    simpl. f_equal. apply tab_ext. intros s i Hs Hi.
    rewrite decide_True by lia. lra.
  - rewrite (Sinkhorn_unbound_loop self2 _ _ m n) by (done || lia). discriminate.
Qed.

(** ** DRPolicyWass: the advantage table, the scan and the transport loops *)

Lemma Wass_advantage_table_cases (self : DRPolicyWass.t)
    observes actions advantages env_name :
  (exists f, DRPolicyWass.advantage_table self observes actions advantages env_name =
             Ok (tab (DRPolicyWass.sta_num self) (DRPolicyWass.act_num self) f)) \/
  DRPolicyWass.advantage_table self observes actions advantages env_name =
    Raise IndexError.
Proof.
  unfold DRPolicyWass.advantage_table.
  destruct (aggregate_cases (DRPolicyWass.sta_num self)
              (DRPolicyWass.act_num self) observes actions advantages)
    as [(f & ->) | ->]; simpl; [|by right].
  unfold DRPolicyWass.adjust.
  destruct (String.eqb env_name "NChain-v0"); [apply iadd2_twice_cases | left; eauto].
Qed.

(** The scan returns the first maximiser. *)
Lemma scan_upto_spec (fa : nat -> nat -> R) (beta : R) (s i k : nat) :
  let st := scan_upto fa beta s i k in
  st.2 = wass_value fa beta s i st.1 /\
  (st.1 < Nat.max 1 k)%nat /\
  (forall j, (j < k)%nat -> wass_value fa beta s i j <= st.2) /\
  (forall j, (j < st.1)%nat -> wass_value fa beta s i j < st.2).
Proof.
  induction k as [|k (Hv & Hlt & Hmax & Hfirst)]; simpl.
  - repeat split; [lia | intros; lia | intros; lia].
  - case_decide as Hgt; simpl.
    + repeat split; [lia | |].
      * intros j Hj. destruct (decide (j = k)) as [->|]; [lra|].
        specialize (Hmax j ltac:(lia)). lra.
      * intros j Hj. specialize (Hmax j Hj). lra.
    + repeat split; [assumption | lia | | assumption].
      intros j Hj. destruct (decide (j = k)) as [->|]; [lra|].
      apply Hmax. lia.
Qed.

Lemma wass_best_lt (n : nat) (fa : nat -> nat -> R) (beta : R) (s i : nat) :
  (0 < n)%nat -> (wass_best n fa beta s i < n)%nat.
Proof.
  intros Hn. destruct (scan_upto_spec fa beta s i n) as (_ & Hlt & _).
  unfold wass_best. lia.
Qed.

Section WassScan.

Variable self : DRPolicyWass.t.
Variable beta : R.
Variable fa : nat -> nat -> R.
Variables m n : nat.

Hypothesis Hm : DRPolicyWass.sta_num self = m.
Hypothesis Hn : DRPolicyWass.act_num self = n.

Lemma Wass_value_ok (s i j : nat) :
  (s < m)%nat -> (j < n)%nat ->
  DRPolicyWass.value (tab m n fa) beta s i j = Ok (wass_value fa beta s i j).
Proof.
  intros Hs Hj. unfold DRPolicyWass.value. by rewrite get2_tab by assumption.
Qed.

Lemma Wass_scan_loop (s i k : nat) :
  (s < m)%nat -> (k <= n)%nat ->
  for_range k (DRPolicyWass.scan (tab m n fa) beta s i)
    (O, wass_value fa beta s i O) =
  Done (scan_upto fa beta s i k).
Proof.
  intros Hs. induction k as [|k IH]; intros Hk; [reflexivity|].
  rewrite for_range_S, IH by lia. simpl.
  unfold DRPolicyWass.scan. destruct (scan_upto fa beta s i k) as [oj ov] eqn:E.
  rewrite Wass_value_ok by (assumption || lia). simpl.
  case_decide; reflexivity.
Qed.

Lemma Wass_find_best_ok (g : nat -> nat -> nat) (s i : nat) :
  (s < m)%nat -> (i < n)%nat ->
  DRPolicyWass.find_best self (tab m n fa) beta s i (tab m n g) =
  Done (tab m n (upd g s i (wass_best n fa beta s i))).
Proof.
  intros Hs Hi. unfold DRPolicyWass.find_best.
  rewrite Wass_value_ok by (assumption || lia).
  rewrite Hn, Wass_scan_loop by (assumption || lia).
  unfold wass_best. destruct (scan_upto fa beta s i n) as [oj ov].
  rewrite getitem_nat_tab by assumption. simpl.
  rewrite getitem_nat_row by assumption. simpl. by rewrite insert_tab.
Qed.

Lemma Wass_find_best_loop (g : nat -> nat -> nat) (s k : nat) :
  (s < m)%nat -> (k <= n)%nat ->
  for_range k (DRPolicyWass.find_best self (tab m n fa) beta s) (tab m n g) =
  Done (tab m n (fun s' i => if decide (s' = s /\ i < k)%nat
                             then wass_best n fa beta s i else g s' i)).
Proof.
  intros Hs. induction k as [|k IH]; intros Hk.
  - rewrite for_range_0. f_equal. apply tab_ext. intros s' i _ _.
    by rewrite decide_False by lia.
  - rewrite for_range_S, IH by lia. simpl.
    rewrite Wass_find_best_ok by (assumption || lia).
    f_equal. apply tab_ext. intros s' i Hs' Hi. unfold upd.
    destruct (decide (s' = s)) as [->|Hne].
    + destruct (decide (i = k)) as [->|Hne'].
      * by rewrite decide_True by lia.
      * destruct (decide (s = s /\ i < k)%nat);
          [by rewrite decide_True by lia | by rewrite decide_False by lia].
    + rewrite !(decide_False (P := (s' = s /\ _)%nat)) by lia. reflexivity.
Qed.

Lemma Wass_find_best_states (g : nat -> nat -> nat) (k : nat) :
  (k <= m)%nat ->
  for_range k
    (fun s => for_range n (DRPolicyWass.find_best self (tab m n fa) beta s))
    (tab m n g) =
  Done (tab m n (fun s i => if decide (s < k)%nat
                            then wass_best n fa beta s i else g s i)).
Proof.
  induction k as [|k IH]; intros Hk.
  - rewrite for_range_0. f_equal.
  - rewrite for_range_S, IH by lia. simpl.
    rewrite Wass_find_best_loop by lia.
    f_equal. apply tab_ext. intros s i Hs Hi.
    destruct (decide (s = k)) as [->|Hne].
    + rewrite decide_True by lia. by rewrite decide_True by lia.
    + rewrite (decide_False (P := (s = k /\ _)%nat)) by lia.
      destruct (decide (s < k)%nat);
        [by rewrite decide_True by lia | by rewrite decide_False by lia].
Qed.

Lemma Wass_find_best_j_ok :
  DRPolicyWass.find_best_j self (tab m n fa) beta =
  Ok (tab m n (wass_best n fa beta)).
Proof.
  unfold DRPolicyWass.find_best_j. rewrite Hm, Hn, tab_replicate.
  rewrite Wass_find_best_states by lia. f_equal. apply tab_ext.
  intros s i Hs Hi. by rewrite decide_True by lia.
Qed.

End WassScan.

Section WassMove.

Variable self : DRPolicyWass.t.
Variable fo : nat -> nat -> R.
Variable fb : nat -> nat -> nat.
Variable h : heap.
Variable p : nat.
Variables m n : nat.

#[local] Abbreviation l := (DRPolicyWass.distributions self).

Hypothesis Hm : DRPolicyWass.sta_num self = m.
Hypothesis Hn : DRPolicyWass.act_num self = n.
Hypothesis Hpl : l <> p.
Hypothesis Hold : h !! p = Some (tab m n fo).

Lemma Wass_move_loop (fn : nat -> nat -> R) (s j k : nat) :
  (s < m)%nat -> (j < n)%nat -> (k <= n)%nat ->
  for_range k (DRPolicyWass.move self (tab m n fb) p s j) (<[l := tab m n fn]> h) =
  Done (<[l := tab m n (upd fn s j (fn s j + wass_received fo fb s j k))]> h).
Proof.
  intros Hs Hj. induction k as [|k IH]; intros Hk.
  - rewrite for_range_0. do 2 f_equal. apply tab_ext. intros s' i _ _.
    unfold upd, wass_received, sum_upto. simpl.
    repeat case_decide; subst; lra.
  - rewrite for_range_S, IH by lia. simpl. unfold DRPolicyWass.move.
    rewrite getitem_nat_tab by assumption. simpl.
    rewrite getitem_nat_row by lia. simpl.
    unfold wass_received. rewrite sum_upto_S.
    destruct (decide (j = fb s k)) as [Hb|Hb]; simpl; [|do 4 f_equal; lra].
    unfold store_iadd. rewrite load_insert.
    rewrite get2_tab by assumption. simpl.
    rewrite load_insert_ne, (load_Some _ _ _ Hold) by assumption.
    rewrite get2_tab by (assumption || lia). simpl.
    rewrite set2_tab by assumption. simpl.
    rewrite insert_insert_eq. do 2 f_equal. apply tab_ext. intros s' i Hs' Hi.
    unfold upd. repeat case_decide; try lra; congruence.
Qed.

Lemma Wass_move_actions (fn : nat -> nat -> R) (s k : nat) :
  (s < m)%nat -> (k <= n)%nat ->
  for_range k
    (fun j => for_range n (DRPolicyWass.move self (tab m n fb) p s j))
    (<[l := tab m n fn]> h) =
  Done (<[l := tab m n
            (fun s' j => if decide (s' = s /\ j < k)%nat
                         then fn s' j + wass_received fo fb s j n else fn s' j)]> h).
Proof.
  intros Hs. induction k as [|k IH]; intros Hk.
  - rewrite for_range_0. do 2 f_equal. apply tab_ext. intros s' i _ _.
    by rewrite decide_False by lia.
  - rewrite for_range_S, IH by lia. simpl.
    rewrite Wass_move_loop by (assumption || lia).
    do 2 f_equal. apply tab_ext. intros s' j Hs' Hj. unfold upd.
    destruct (decide (s' = s)) as [->|Hne].
    + destruct (decide (j = k)) as [->|Hne'].
      * rewrite (decide_False (P := (s = s /\ k < k)%nat)) by lia.
        by rewrite decide_True by lia.
      * destruct (decide (s = s /\ j < k)%nat);
          [by rewrite decide_True by lia | by rewrite decide_False by lia].
    + rewrite !(decide_False (P := (s' = s /\ _)%nat)) by lia. reflexivity.
Qed.

Lemma Wass_move_states (fn : nat -> nat -> R) (k : nat) :
  (k <= m)%nat ->
  for_range k
    (fun s => for_range n
       (fun j => for_range n (DRPolicyWass.move self (tab m n fb) p s j)))
    (<[l := tab m n fn]> h) =
  Done (<[l := tab m n
            (fun s j => if decide (s < k)%nat
                        then fn s j + wass_received fo fb s j n else fn s j)]> h).
Proof.
  induction k as [|k IH]; intros Hk.
  - rewrite for_range_0. f_equal.
  - rewrite for_range_S, IH by lia. simpl.
    rewrite Wass_move_actions by lia.
    do 2 f_equal. apply tab_ext. intros s j Hs Hj.
    destruct (decide (s = k)) as [->|Hne].
    + rewrite decide_True by lia. destruct (decide (k < k)%nat); [lia|].
      by rewrite decide_True by lia.
    + rewrite (decide_False (P := (s = k /\ _)%nat)) by lia.
      destruct (decide (s < k)%nat);
        [by rewrite decide_True by lia | by rewrite decide_False by lia].
Qed.

End WassMove.

(** What a completed [DRPolicyWass.update] leaves behind: a new list object
    holds the transported rows, and the old one is untouched. *)
Lemma Wass_update_done (self self' : DRPolicyWass.t) (h h' : heap)
    (fo : nat -> nat -> R) observes actions advantages disc_freqs env_name eps rnd :
  let m := DRPolicyWass.sta_num self in
  let n := DRPolicyWass.act_num self in
  h !! DRPolicyWass.distributions self = Some (tab m n fo) ->
  DRPolicyWass.update self h observes actions advantages disc_freqs env_name eps rnd =
    Done (self', h') ->
  exists fa beta,
    DRPolicyWass.advantage_table self observes actions advantages env_name =
      Ok (tab m n fa) /\
    DRPolicyWass.choose_beta env_name rnd = Some beta /\
    self' = DRPolicyWass.set_distributions self (fresh (dom h)) /\
    h' = <[fresh (dom h) :=
             tab m n (fun s j => wass_received fo (wass_best n fa beta) s j n)]> h.
Proof.
  intros m n Hh. unfold DRPolicyWass.update.
  destruct (Wass_advantage_table_cases self observes actions advantages env_name)
    as [(fa & ->) | ->]; [|discriminate].
  fold m n.
  destruct (DRPolicyWass.choose_beta env_name rnd) as [beta|]; simpl; [|discriminate].
  rewrite (Wass_find_best_j_ok self beta fa m n) by reflexivity.
  unfold alloc. simpl. fold m n.
  set (self2 := DRPolicyWass.set_distributions self (fresh (dom h))).
  assert (DRPolicyWass.distributions self2 <> DRPolicyWass.distributions self)
    as Hne by (simpl; by eapply fresh_ne).
  unfold np_zeros. rewrite tab_replicate.
  change (fresh (dom h)) with (DRPolicyWass.distributions self2) at 1.
  rewrite (Wass_move_states self2 fo (wass_best n fa beta) h _ m n) by (done || lia).
  intros [= <- <-]. exists fa, beta. repeat split; [].
  simpl. f_equal. apply tab_ext. intros s i Hs Hi.
  rewrite decide_True by lia. lra.
Qed.

(** ** Probability mass functions *)

Lemma Forall_row (P : R -> Prop) (g : nat -> R) (n : nat) :
  Forall P (map g (seq 0 n)) <-> forall i, (i < n)%nat -> P (g i).
Proof.
  rewrite Forall_forall. split.
  - intros H i Hi. apply H. apply list_elem_of_fmap. exists i. split; [done|].
    apply elem_of_seq. lia.
  - intros H x (i & -> & Hi%elem_of_seq)%list_elem_of_fmap. apply H. lia.
Qed.

Lemma pmf_row (g : nat -> R) (n : nat) :
  pmf (map g (seq 0 n)) <->
  (forall i, (i < n)%nat -> 0 <= g i) /\ sum_upto n g = 1.
Proof. unfold pmf. by rewrite Forall_row. Qed.

Lemma pmf_nonempty (g : nat -> R) (n : nat) : pmf (map g (seq 0 n)) -> (0 < n)%nat.
Proof.
  intros [_ Hsum]. destruct n; [|lia]. simpl in Hsum. lra.
Qed.


Lemma table_at_tab (h : heap) (l m n : nat) :
  table_at h l m n -> h !! l = Some (tab m n (cell (load h l))).
Proof.
  intros (t & Ht & Hshape). rewrite (load_Some _ _ _ Ht).
  by rewrite <- (shaped_tab m n t Hshape).
Qed.


(** *** The tilt *)




(** *** The entropic sweep *)




(** *** The transport *)

(** The new row is a re-partition of the old one: every source action sends
    its mass to exactly one destination. *)
Lemma wass_received_sum (n : nat) (fo : nat -> nat -> R) (fb : nat -> nat -> nat)
    (s : nat) :
  (forall i, (i < n)%nat -> (fb s i < n)%nat) ->
  sum_upto n (fun j => wass_received fo fb s j n) = sum_upto n (fo s).
Proof.
  intros Hb. unfold wass_received. rewrite sum_upto_swap.
  apply sum_upto_ext. intros i Hi.
  apply (sum_upto_indicator n (fb s i) (fo s i)). by apply Hb.
Qed.

Lemma wass_received_nonneg (n : nat) (fo : nat -> nat -> R) (fb : nat -> nat -> nat)
    (s j : nat) :
  (forall i, (i < n)%nat -> 0 <= fo s i) -> 0 <= wass_received fo fb s j n.
Proof.
  intros Hpos. apply sum_upto_nonneg. intros i Hi.
  case_decide; [by apply Hpos | lra].
Qed.

(** ** Construction *)

Lemma uniform_table_tab (m n : nat) :
  uniform_table m n = tab m n (fun _ _ => 1 / INR n).
Proof.
  unfold uniform_table, np_div, np_ones.
  rewrite <- tab_replicate. f_equal.
  apply (fmap_replicate (fun x => x / INR n) n 1).
Qed.

Lemma uniform_row_pmf (n : nat) :
  (0 < n)%nat -> pmf (map (fun _ => 1 / INR n) (seq 0 n)).
Proof.
  intros Hn. apply pmf_row. assert (0 < INR n) as Hpos by (by apply lt_0_INR).
  split.
  - intros i _. apply Rlt_le, Rdiv_lt_0_compat; lra.
  - assert (forall k, sum_upto k (fun _ => 1 / INR n) = INR k / INR n) as Hk.
    { induction k as [|k IH]; [unfold sum_upto; simpl; lra|].
      rewrite sum_upto_S, IH, S_INR. lra. }
    rewrite Hk. field. lra.
Qed.

(** ** When [update] completes *)

Lemma KL_update_total (self : DRPolicyKL.t) (h : heap) (m n : nat)
    (fa fo : nat -> nat -> R) observes actions advantages disc_freqs env_name eps :
  DRPolicyKL.sta_num self = m -> DRPolicyKL.act_num self = n ->
  h !! DRPolicyKL.distributions self = Some (tab m n fo) ->
  DRPolicyKL.advantage_table self observes actions advantages env_name =
    Ok (tab m n fa) ->
  DRPolicyKL.update self h observes actions advantages disc_freqs env_name eps =
  Done (<[DRPolicyKL.distributions self := tab m n (tilted n fa fo 1)]> h).
Proof.
  intros <- <- Hh Ha. unfold DRPolicyKL.update. rewrite Ha.
  rewrite (KL_tilt_loop self h _ _ fa fo 1 _ Hh) by lia.
  do 2 f_equal. apply tab_ext. intros s a Hs _. by rewrite decide_True by lia.
Qed.

Lemma Sinkhorn_update_total (self self1 : DRPolicySinkhorn.t) (h : heap)
    (m n : nat) (fa fo : nat -> nat -> R) (b : R)
    observes actions advantages disc_freqs env_name eps :
  DRPolicySinkhorn.sta_num self = m -> DRPolicySinkhorn.act_num self = n ->
  h !! DRPolicySinkhorn.distributions self = Some (tab m n fo) ->
  DRPolicySinkhorn.advantage_table self observes actions advantages env_name =
    Ok (tab m n fa) ->
  DRPolicySinkhorn.configure self env_name eps = (Some b, self1) ->
  DRPolicySinkhorn.update self h observes actions advantages disc_freqs env_name eps =
  Done (DRPolicySinkhorn.set_distributions self1 (fresh (dom h)),
        <[fresh (dom h) :=
            tab m n (sinkhorn_new n (DRPolicySinkhorn.lamb self1) b fa fo)]> h).
Proof.
  intros Hm Hn Hh Ha Hc. unfold DRPolicySinkhorn.update. rewrite Ha, Hc.
  destruct (Sinkhorn_configure_fields _ _ _ _ _ Hc) as (Hm1 & Hn1 & Hd1).
  unfold alloc. simpl. rewrite Hm1, Hn1, Hd1, Hm, Hn.
  set (self2 := DRPolicySinkhorn.set_distributions self1 (fresh (dom h))).
  assert (DRPolicySinkhorn.distributions self2 <> DRPolicySinkhorn.distributions self)
    as Hne by (simpl; by eapply fresh_ne).
  unfold np_zeros. rewrite tab_replicate.
  change (fresh (dom h)) with (DRPolicySinkhorn.distributions self2) at 1.
  rewrite (Sinkhorn_state_loop self2 b fa fo h _ m n)
    by (simpl; (congruence || done || lia)).
  simpl. do 3 f_equal. apply tab_ext. intros s i Hs Hi.
  rewrite decide_True by lia. lra.
Qed.

Lemma Wass_update_total (self : DRPolicyWass.t) (h : heap) (m n : nat)
    (fa fo : nat -> nat -> R) (beta : R)
    observes actions advantages disc_freqs env_name eps rnd :
  DRPolicyWass.sta_num self = m -> DRPolicyWass.act_num self = n ->
  h !! DRPolicyWass.distributions self = Some (tab m n fo) ->
  DRPolicyWass.advantage_table self observes actions advantages env_name =
    Ok (tab m n fa) ->
  DRPolicyWass.choose_beta env_name rnd = Some beta ->
  DRPolicyWass.update self h observes actions advantages disc_freqs env_name eps rnd =
  Done (DRPolicyWass.set_distributions self (fresh (dom h)),
        <[fresh (dom h) :=
            tab m n (fun s j => wass_received fo (wass_best n fa beta) s j n)]> h).
Proof.
  intros Hm Hn Hh Ha Hb. unfold DRPolicyWass.update. rewrite Ha, Hb. simpl.
  rewrite (Wass_find_best_j_ok self beta fa m n) by assumption.
  unfold alloc. simpl. rewrite Hm, Hn.
  set (self2 := DRPolicyWass.set_distributions self (fresh (dom h))).
  assert (DRPolicyWass.distributions self2 <> DRPolicyWass.distributions self)
    as Hne by (simpl; by eapply fresh_ne).
  unfold np_zeros. rewrite tab_replicate.
  change (fresh (dom h)) with (DRPolicyWass.distributions self2) at 1.
  rewrite (Wass_move_states self2 fo (wass_best n fa beta) h _ m n) by (done || lia).
  simpl. do 3 f_equal. apply tab_ext. intros s i Hs Hi.
  rewrite decide_True by lia. lra.
Qed.

(** * Main results *)


(** ** Concrete runs *)

(** An empty batch gives the zero table. *)
Lemma aggregate_nil (m n : nat) :
  aggregate m n [] [] [] = Ok (tab m n (fun _ _ => 0)).
Proof.
  unfold aggregate. simpl length. rewrite for_range_0. simpl next.
  unfold np_zeros. rewrite tab_replicate.
  set (z := tab m n (fun _ _ => 0)).
  assert (exists st', for_range m (fun s => for_range n (average s)) (z, z) = Done st' /\
                      st' = (z, z)) as (st' & -> & ->); [|reflexivity].
  apply (for_in_total (fun st => st = (z, z))); [|reflexivity].
  intros s st Hs%elem_of_seq ->.
  apply (for_in_total (fun st => st = (z, z))); [|reflexivity].
  intros i st Hi%elem_of_seq ->. exists (z, z). split; [|reflexivity].
  unfold average, z. rewrite get2_tab by lia. simpl.
  rewrite decide_False by (intros H; by apply H). reflexivity.
Qed.

Lemma KL_init_table (m n : nat) (h : heap) :
  let st := DRPolicyKL.init m n h in
  st.2 !! DRPolicyKL.distributions st.1 = Some (tab m n (fun _ _ => 1 / INR n)) /\
  DRPolicyKL.sta_num st.1 = m /\ DRPolicyKL.act_num st.1 = n.
Proof. simpl. by rewrite lookup_insert_eq, uniform_table_tab. Qed.

Lemma Sinkhorn_init_table (m n : nat) (h : heap) :
  let st := DRPolicySinkhorn.init m n h in
  st.2 !! DRPolicySinkhorn.distributions st.1 =
    Some (tab m n (fun _ _ => 1 / INR n)) /\
  DRPolicySinkhorn.sta_num st.1 = m /\ DRPolicySinkhorn.act_num st.1 = n.
Proof. simpl. by rewrite lookup_insert_eq, uniform_table_tab. Qed.

Lemma Wass_init_table (m n : nat) (h : heap) :
  let st := DRPolicyWass.init m n h in
  st.2 !! DRPolicyWass.distributions st.1 = Some (tab m n (fun _ _ => 1 / INR n)) /\
  DRPolicyWass.sta_num st.1 = m /\ DRPolicyWass.act_num st.1 = n.
Proof. simpl. by rewrite lookup_insert_eq, uniform_table_tab. Qed.

Lemma table_at_intro (h : heap) (l m n : nat) (f : nat -> nat -> R) :
  h !! l = Some (tab m n f) -> table_at h l m n.
Proof. intros H. exists (tab m n f). split; [assumption | apply tab_shaped]. Qed.

Lemma half_row_pmf : pmf [1 / INR 2; 1 / INR 2].
Proof. apply (uniform_row_pmf 2). lia. Defined.


(** ** Bounds on [e]

    From [1 + x < exp x] at [x = 1/4096] and [x = -1/4096], squared twelve
    times with the rationals rounded outwards. *)

Lemma exp_lower_step (x b b' : R) :
  0 < b -> b < exp x -> b' <= b * b -> b' < exp (2 * x).
Proof.
  intros Hb Hx Hb'. replace (2 * x) with (x + x) by lra. rewrite exp_plus. nra.
Qed.


Lemma exp_1_lower : 2.7179 < exp 1.
Proof.
  assert (1.000244140625 < exp (1 / 4096)) as H0.
  { pose proof (exp_ineq1 (1 / 4096)) as H. lra. }
  assert (1.000488340854 < exp (1 / 2048)) as H1.
  { replace (1 / 2048) with (2 * (1 / 4096)) by lra.
    apply (exp_lower_step _ 1.000244140625); [lra | exact H0 | lra]. }
  assert (1.000976920184 < exp (1 / 1024)) as H2.
  { replace (1 / 1024) with (2 * (1 / 2048)) by lra.
    apply (exp_lower_step _ 1.000488340854); [lra | exact H1 | lra]. }
  assert (1.001954794741 < exp (1 / 512)) as H3.
  { replace (1 / 512) with (2 * (1 / 1024)) by lra.
    apply (exp_lower_step _ 1.000976920184); [lra | exact H2 | lra]. }
  assert (1.003913410704 < exp (1 / 256)) as H4.
  { replace (1 / 256) with (2 * (1 / 512)) by lra.
    apply (exp_lower_step _ 1.001954794741); [lra | exact H3 | lra]. }
  assert (1.007842136191 < exp (1 / 128)) as H5.
  { replace (1 / 128) with (2 * (1 / 256)) by lra.
    apply (exp_lower_step _ 1.003913410704); [lra | exact H4 | lra]. }
  assert (1.015745771482 < exp (1 / 64)) as H6.
  { replace (1 / 64) with (2 * (1 / 128)) by lra.
    apply (exp_lower_step _ 1.007842136191); [lra | exact H5 | lra]. }
  assert (1.031739472283 < exp (1 / 32)) as H7.
  { replace (1 / 32) with (2 * (1 / 64)) by lra.
    apply (exp_lower_step _ 1.015745771482); [lra | exact H6 | lra]. }
  assert (1.064486338666 < exp (1 / 16)) as H8.
  { replace (1 / 16) with (2 * (1 / 32)) by lra.
    apply (exp_lower_step _ 1.031739472283); [lra | exact H7 | lra]. }
  assert (1.133131165206 < exp (1 / 8)) as H9.
  { replace (1 / 8) with (2 * (1 / 16)) by lra.
    apply (exp_lower_step _ 1.064486338666); [lra | exact H8 | lra]. }
  assert (1.283986237561 < exp (1 / 4)) as H10.
  { replace (1 / 4) with (2 * (1 / 8)) by lra.
    apply (exp_lower_step _ 1.133131165206); [lra | exact H9 | lra]. }
  assert (1.648620658246 < exp (1 / 2)) as H11.
  { replace (1 / 2) with (2 * (1 / 4)) by lra.
    apply (exp_lower_step _ 1.283986237561); [lra | exact H10 | lra]. }
  assert (2.717950074795 < exp (1 / 1)) as H12.
  { replace (1 / 1) with (2 * (1 / 2)) by lra.
    apply (exp_lower_step _ 1.648620658246); [lra | exact H11 | lra]. }
  replace 1 with (1 / 1) at 1 by lra. lra.
Qed.


(** ** The worked example of the KL projector *)

(** The samples (0,0,1.0), (0,1,-1.0), (1,0,0.0), (1,1,0.0) average to the
    table [[1,-1],[0,0]]. *)
Lemma example_aggregate :
  aggregate 2 2 [0; 0; 1; 1]%Z [0; 1; 0; 1]%Z [1; -1; 0; 0] =
  Ok (tab 2 2 example_advantage).
Proof.
  unfold aggregate, for_range. decide_R.
  unfold tab, example_advantage. simpl. repeat f_equal; lra.
Qed.

Lemma example_advantage_table (self : DRPolicyKL.t) (env_name : string) :
  DRPolicyKL.sta_num self = 2%nat -> DRPolicyKL.act_num self = 2%nat ->
  String.eqb env_name "NChain-v0" = false ->
  String.eqb env_name "Taxi-v3" = false ->
  DRPolicyKL.advantage_table self [0; 0; 1; 1]%Z [0; 1; 0; 1]%Z [1; -1; 0; 0]
    env_name = Ok (tab 2 2 example_advantage).
Proof.
  intros Hm Hn H1 H2. unfold DRPolicyKL.advantage_table.
  rewrite Hm, Hn, example_aggregate. simpl. unfold DRPolicyKL.adjust.
  by rewrite H1, H2.
Qed.







(** ** The transport of [DRPolicyWass] *)

(** One state, two actions, an empty batch, the CliffWalking penalty. *)
Lemma Wass_example_run :
  let self := (DRPolicyWass.init 1 2 ∅).1 in
  let h := (DRPolicyWass.init 1 2 ∅).2 in
  h !! DRPolicyWass.distributions self = Some (tab 1 2 (fun _ _ => 1 / INR 2)) /\
  DRPolicyWass.advantage_table self [] [] [] "CliffWalking-v0" =
    Ok (tab 1 2 (fun _ _ => 0)) /\
  DRPolicyWass.update self h [] [] [] [] "CliffWalking-v0" 1 0 =
  Done (DRPolicyWass.set_distributions self (fresh (dom h)),
        <[fresh (dom h) :=
            tab 1 2 (fun s j => wass_received (fun _ _ => 1 / INR 2)
                                  (wass_best 2 (fun _ _ => 0) 0.5) s j 2)]> h).
Proof.
  intros self h. destruct (Wass_init_table 1 2 ∅) as (Hh & _ & _).
  fold self h in Hh.
  assert (DRPolicyWass.advantage_table self [] [] [] "CliffWalking-v0" =
          Ok (tab 1 2 (fun _ _ => 0))) as Ha.
  { unfold DRPolicyWass.advantage_table. by rewrite aggregate_nil. }
  split; [exact Hh | split; [exact Ha |]].
  exact (Wass_update_total self h 1 2 _ _ 0.5 [] [] [] [] "CliffWalking-v0" 1 0
           eq_refl eq_refl Hh Ha eq_refl).
Qed.

(** C3 — [DRPolicyWass.update] moves the whole mass of every source action
    [i] to [best(i)], the first [j] in ascending order that maximises
    [advantage[s][j] - beta*distance(j,i)]: [find_best_j] returns that
    table, and [new[s][b]] is the sum of [old[s][i]] over exactly the
    sources [i] with [best(i) = b]. *)
Theorem Wass_update_transport :
  forall (self self' : DRPolicyWass.t) (h h' : heap) observes actions advantages
         disc_freqs env_name eps rnd (adv : table),
    table_at h (DRPolicyWass.distributions self)
      (DRPolicyWass.sta_num self) (DRPolicyWass.act_num self) ->
    DRPolicyWass.advantage_table self observes actions advantages env_name = Ok adv ->
    DRPolicyWass.update self h observes actions advantages disc_freqs env_name
      eps rnd = Done (self', h') ->
    let m := DRPolicyWass.sta_num self in
    let n := DRPolicyWass.act_num self in
    let old := load h (DRPolicyWass.get_policy self) in
    exists (beta : R) (best : nat -> nat -> nat),
      DRPolicyWass.choose_beta env_name rnd = Some beta /\
      DRPolicyWass.find_best_j self adv beta = Ok (tab m n best) /\
      (forall s i, (s < m)%nat -> (i < n)%nat ->
         let value j := cell adv s j - beta * DRPolicyWass.calc_d j i in
         (best s i < n)%nat /\
         (forall j, (j < n)%nat -> value j <= value (best s i)) /\
         (forall j, (j < best s i)%nat -> value j < value (best s i))) /\
      (forall s b, (s < m)%nat -> (b < n)%nat ->
         load h' (DRPolicyWass.get_policy self') !! s ≫= (fun r => r !! b) =
         Some (np_sum (map (cell old s)
                         (filter (fun i => b = best s i) (seq 0 n))))).
Proof.
  intros self self' h h' observes actions advantages disc_freqs env_name eps rnd
    adv Hwf%table_at_tab Hadv Hup m n old.
  unfold DRPolicyWass.get_policy in *. subst old.
  set (fo := cell (load h (DRPolicyWass.distributions self))) in *.
  destruct (Wass_update_done _ _ _ _ _ _ _ _ _ _ _ _ Hwf Hup)
    as (fa & beta & Hfa & Hbeta & -> & ->).
  rewrite Hadv in Hfa. injection Hfa as ->. fold m n.
  exists beta, (wass_best n fa beta). split; [assumption|].
  split; [by apply Wass_find_best_j_ok|]. split.
  - intros s i Hs Hi.
    destruct (scan_upto_spec fa beta s i n) as (Hv & Hlt & Hmax & Hfirst).
    assert (wass_best n fa beta s i < n)%nat as Hb by (unfold wass_best; lia).
    split; [assumption|]. split.
    + intros j Hj. rewrite !cell_tab by assumption.
      change (wass_value fa beta s i j <=
              wass_value fa beta s i (wass_best n fa beta s i)).
      unfold wass_best. rewrite <- Hv. by apply Hmax.
    + intros j Hj. rewrite !cell_tab by (assumption || lia).
      change (wass_value fa beta s i j <
              wass_value fa beta s i (wass_best n fa beta s i)).
      unfold wass_best. rewrite <- Hv. by apply Hfirst.
  - intros s b Hs Hb. simpl. rewrite load_insert, tab_lookup by assumption.
    simpl. rewrite lookup_map_seq by assumption. f_equal.
    unfold wass_received. apply sum_filter.
Qed.

Lemma Wass_update_transport_witness :
  let self := (DRPolicyWass.init 1 2 ∅).1 in
  let h := (DRPolicyWass.init 1 2 ∅).2 in
  let o := DRPolicyWass.update self h [] [] [] [] "CliffWalking-v0" 1 0 in
  exists (beta : R) (best : nat -> nat -> nat),
    DRPolicyWass.choose_beta "CliffWalking-v0" 0 = Some beta /\
    DRPolicyWass.find_best_j self (tab 1 2 (fun _ _ => 0)) beta = Ok (tab 1 2 best) /\
    (forall s i, (s < 1)%nat -> (i < 2)%nat ->
       let value j := cell (tab 1 2 (fun _ _ => 0)) s j -
                      beta * DRPolicyWass.calc_d j i in
       (best s i < 2)%nat /\
       (forall j, (j < 2)%nat -> value j <= value (best s i)) /\
       (forall j, (j < best s i)%nat -> value j < value (best s i))) /\
    (forall s b, (s < 1)%nat -> (b < 2)%nat ->
       load (final o).2 (DRPolicyWass.get_policy (final o).1) !! s
         ≫= (fun r => r !! b) =
       Some (np_sum (map (cell (load h (DRPolicyWass.get_policy self)) s)
                       (filter (fun i => b = best s i) (seq 0 2))))).
Proof.
  intros self h o. destruct Wass_example_run as (Hh & Ha & Hup).
  fold self h in Hh, Ha, Hup. fold o in Hup.
  apply (Wass_update_transport self (final o).1 h (final o).2 [] [] [] []
           "CliffWalking-v0" 1 0 (tab 1 2 (fun _ _ => 0))).
  - by eapply table_at_intro.
  - exact Ha.
  - by rewrite Hup.
Defined.



(** ** Constant advantage rows *)

Lemma sum_upto_const (n : nat) (c : R) : sum_upto n (fun _ => c) = INR n * c.
Proof.
  induction n as [|n IH]; [unfold sum_upto; simpl; lra|].
  rewrite sum_upto_S, IH, S_INR. lra.
Qed.






Lemma map_seq_eq (f g : nat -> R) (n : nat) :
  map f (seq 0 n) = map g (seq 0 n) <-> forall i, (i < n)%nat -> f i = g i.
Proof.
  split.
  - intros H i Hi. assert (map f (seq 0 n) !! i = map g (seq 0 n) !! i) as Hl
      by (by rewrite H).
    rewrite !lookup_map_seq in Hl by assumption. congruence.
  - intros H. apply map_ext_in. intros i Hi%in_seq. apply H. lia.
Qed.


Lemma KL_empty_run :
  let self := (DRPolicyKL.init 1 2 ∅).1 in
  let h := (DRPolicyKL.init 1 2 ∅).2 in
  h !! DRPolicyKL.distributions self = Some (tab 1 2 (fun _ _ => 1 / INR 2)) /\
  DRPolicyKL.advantage_table self [] [] [] "FrozenLake-v0" =
    Ok (tab 1 2 (fun _ _ => 0)) /\
  DRPolicyKL.update self h [] [] [] [] "FrozenLake-v0" 1 =
  Done (<[DRPolicyKL.distributions self :=
            tab 1 2 (tilted 2 (fun _ _ => 0) (fun _ _ => 1 / INR 2) 1)]> h).
Proof.
  intros self h. destruct (KL_init_table 1 2 ∅) as (Hh & _ & _).
  fold self h in Hh.
  assert (DRPolicyKL.advantage_table self [] [] [] "FrozenLake-v0" =
          Ok (tab 1 2 (fun _ _ => 0))) as Ha.
  { unfold DRPolicyKL.advantage_table. by rewrite aggregate_nil. }
  split; [exact Hh | split; [exact Ha |]].
  exact (KL_update_total self h 1 2 _ _ [] [] [] [] "FrozenLake-v0" 1
           eq_refl eq_refl Hh Ha).
Qed.

Lemma Taxi_configure (self : DRPolicySinkhorn.t) :
  DRPolicySinkhorn.configure self "Taxi-v3" 1 =
  (Some 3, DRPolicySinkhorn.set_lamb self (1 ^ 2)).
Proof.
  unfold DRPolicySinkhorn.configure. simpl String.eqb. cbv iota.
  by rewrite decide_False by lra.
Qed.

Lemma Sinkhorn_empty_run :
  let self := (DRPolicySinkhorn.init 1 2 ∅).1 in
  let h := (DRPolicySinkhorn.init 1 2 ∅).2 in
  h !! DRPolicySinkhorn.distributions self =
    Some (tab 1 2 (fun _ _ => 1 / INR 2)) /\
  DRPolicySinkhorn.advantage_table self [] [] [] "Taxi-v3" =
    Ok (tab 1 2 (fun _ _ => 0)) /\
  DRPolicySinkhorn.update self h [] [] [] [] "Taxi-v3" 1 =
  Done (DRPolicySinkhorn.set_distributions
          (DRPolicySinkhorn.set_lamb self (1 ^ 2)) (fresh (dom h)),
        <[fresh (dom h) :=
            tab 1 2 (sinkhorn_new 2 (1 ^ 2) 3 (fun _ _ => 0)
                       (fun _ _ => 1 / INR 2))]> h).
Proof.
  intros self h. destruct (Sinkhorn_init_table 1 2 ∅) as (Hh & _ & _).
  fold self h in Hh.
  assert (DRPolicySinkhorn.advantage_table self [] [] [] "Taxi-v3" =
          Ok (tab 1 2 (fun _ _ => 0))) as Ha.
  { unfold DRPolicySinkhorn.advantage_table. by rewrite aggregate_nil. }
  split; [exact Hh | split; [exact Ha |]].
  exact (Sinkhorn_update_total self _ h 1 2 _ _ _ [] [] [] [] "Taxi-v3" 1
           eq_refl eq_refl Hh Ha (Taxi_configure self)).
Qed.


(** ** A run on which the entropic sweep moves a row under a constant
    advantage *)






(** ** Subscripts out of range *)

Lemma aggregate_out_of_range (m n : nat) observes actions advantages :
  index_out_of_range m n observes actions ->
  aggregate m n observes actions advantages = Raise IndexError.
Proof.
  intros [(i & o & Ho & Hbad) | (i & a & Hi & Ha & Hbad)].
  - apply (aggregate_raises m n _ _ _ i).
    + by eapply lookup_lt_Some.
    + intros st Hst. by eapply accumulate_bad_state.
  - apply (aggregate_raises m n _ _ _ i); [assumption|].
    intros st Hst. by eapply accumulate_bad_action.
Qed.

(** A batch whose subscripts all lie in [-S, S) and [-A, A) is accepted:
    the negative ones count from the end. *)
Lemma accumulate_accepts (m n : nat) observes actions advantages i st :
  tabs m n st -> (i < length observes)%nat ->
  length observes = length actions -> length observes = length advantages ->
  Forall (fun o => (- Z.of_nat m <= o < Z.of_nat m)%Z) observes ->
  Forall (fun a => (- Z.of_nat n <= a < Z.of_nat n)%Z) actions ->
  exists st', accumulate observes actions advantages i st = Done st' /\ tabs m n st'.
Proof.
  intros Hst Hi Hla Hlv Ho Ha.
  destruct (lookup_lt_is_Some_2 observes i Hi) as [o Hoi].
  destruct (lookup_lt_is_Some_2 actions i ltac:(lia)) as [a Hai].
  destruct (accumulate_cases m n observes actions advantages i st Hst)
    as [? | Hr]; [assumption|].
  exfalso. destruct Hst as (f & g & ->). revert Hr.
  unfold accumulate, getitem_nat. rewrite Hoi, Hai. simpl.
  destruct (lookup_lt_is_Some_2 advantages i ltac:(lia)) as [v ->]. simpl.
  rewrite Forall_forall in Ho, Ha.
  assert (- Z.of_nat m <= o < Z.of_nat m)%Z as Ho'
    by (apply Ho; by eapply list_elem_of_lookup_2).
  assert (- Z.of_nat n <= a < Z.of_nat n)%Z as Ha'
    by (apply Ha; by eapply list_elem_of_lookup_2).
  destruct (iadd2_tab m n f o a v) as [(i1 & j1 & _ & _ & _ & _ & ->) | [[H | H] _]].
  - simpl.
    destruct (iadd2_tab m n g o a 1) as [(i2 & j2 & _ & _ & _ & _ & ->) | [[H | H] _]];
      [discriminate | |].
    + unfold norm_index in H. repeat case_decide; (discriminate || lia).
    + unfold norm_index in H. repeat case_decide; (discriminate || lia).
  - unfold norm_index in H. repeat case_decide; (discriminate || lia).
  - unfold norm_index in H. repeat case_decide; (discriminate || lia).
Qed.

Lemma aggregate_accepts (m n : nat) observes actions advantages :
  length observes = length actions -> length observes = length advantages ->
  Forall (fun o => (- Z.of_nat m <= o < Z.of_nat m)%Z) observes ->
  Forall (fun a => (- Z.of_nat n <= a < Z.of_nat n)%Z) actions ->
  exists f, aggregate m n observes actions advantages = Ok (tab m n f).
Proof.
  intros Hla Hlv Ho Ha.
  assert (exists st', for_range (length observes)
            (accumulate observes actions advantages)
            (replicate m (np_zeros n), replicate m (np_zeros n)) = Done st' /\
          tabs m n st') as (st1 & H1 & Hst1).
  { apply (for_in_total (tabs m n)); [|apply zeros_tabs].
    intros i st Hi%elem_of_seq Hst. apply accumulate_accepts; try done. lia. }
  unfold aggregate. rewrite H1. simpl.
  destruct (average_loop_tabs m n st1 Hst1) as (st2 & -> & (f & g & ->)).
  by exists f.
Qed.

(** C6, as the code has it — a batch with a state subscript outside
    [-S, S) or an action subscript outside [-A, A) makes [update] raise
    Python's [IndexError] in the aggregation loop, before anything is
    assigned: the object and the heap are the ones [update] was called on.
    Subscripts in [-S, 0) and [-A, 0) are accepted by the aggregation (they
    count from the end). *)
Theorem out_of_range_subscript_raises :
  (forall (self : DRPolicyKL.t) (h : heap) observes actions advantages
          disc_freqs env_name eps,
     index_out_of_range (DRPolicyKL.sta_num self) (DRPolicyKL.act_num self)
       observes actions ->
     DRPolicyKL.update self h observes actions advantages disc_freqs env_name eps =
     Raised IndexError h) /\
  (forall (self : DRPolicySinkhorn.t) (h : heap) observes actions advantages
          disc_freqs env_name eps,
     index_out_of_range (DRPolicySinkhorn.sta_num self)
       (DRPolicySinkhorn.act_num self) observes actions ->
     DRPolicySinkhorn.update self h observes actions advantages disc_freqs
       env_name eps = Raised IndexError (self, h)) /\
  (forall (self : DRPolicyWass.t) (h : heap) observes actions advantages
          disc_freqs env_name eps rnd,
     index_out_of_range (DRPolicyWass.sta_num self) (DRPolicyWass.act_num self)
       observes actions ->
     DRPolicyWass.update self h observes actions advantages disc_freqs
       env_name eps rnd = Raised IndexError (self, h)) /\
  (forall (m n : nat) observes actions advantages,
     length observes = length actions -> length observes = length advantages ->
     Forall (fun o => (- Z.of_nat m <= o < Z.of_nat m)%Z) observes ->
     Forall (fun a => (- Z.of_nat n <= a < Z.of_nat n)%Z) actions ->
     exists t, aggregate m n observes actions advantages = Ok t /\ shaped m n t).
Proof.
  split; [|split; [|split]].
  - intros self h observes actions advantages disc_freqs env_name eps Hbad.
    unfold DRPolicyKL.update, DRPolicyKL.advantage_table.
    by rewrite (aggregate_out_of_range _ _ _ _ advantages Hbad).
  - intros self h observes actions advantages disc_freqs env_name eps Hbad.
    unfold DRPolicySinkhorn.update, DRPolicySinkhorn.advantage_table.
    by rewrite (aggregate_out_of_range _ _ _ _ advantages Hbad).
  - intros self h observes actions advantages disc_freqs env_name eps rnd Hbad.
    unfold DRPolicyWass.update, DRPolicyWass.advantage_table.
    by rewrite (aggregate_out_of_range _ _ _ _ advantages Hbad).
  - intros m n observes actions advantages Hla Hlv Ho Ha.
    destruct (aggregate_accepts m n observes actions advantages Hla Hlv Ho Ha)
      as (f & ->).
    eexists. split; [reflexivity | apply tab_shaped].
Qed.


Lemma out_of_range_subscript_raises_witness :
  index_out_of_range 1 2 [5]%Z [0]%Z /\
  DRPolicyKL.update (DRPolicyKL.init 1 2 ∅).1 (DRPolicyKL.init 1 2 ∅).2
    [5]%Z [0]%Z [1] [] "FrozenLake-v0" 1 =
  Raised IndexError (DRPolicyKL.init 1 2 ∅).2.
Proof.
  assert (index_out_of_range 1 2 [5]%Z [0]%Z) as Hbad.
  { left. exists O, 5%Z. split; [reflexivity | lia]. }
  split; [exact Hbad|].
  destruct out_of_range_subscript_raises as (HKL & _).
  exact (HKL (DRPolicyKL.init 1 2 ∅).1 (DRPolicyKL.init 1 2 ∅).2
           [5]%Z [0]%Z [1] [] "FrozenLake-v0" 1 Hbad).
Defined.

(** ** A negative subscript *)

Lemma last_state_aggregate :
  aggregate 1 2 [-1]%Z [0]%Z [1] = Ok (tab 1 2 last_state_advantage).
Proof.
  unfold aggregate, for_range. decide_R.
  unfold tab, last_state_advantage. simpl. repeat f_equal; lra.
Qed.

(** C6, counterexample — the state subscript -1 is outside [0, 1), yet
    [DRPolicyKL.update] completes and has replaced the row of state 0. *)
Lemma negative_subscript_accepted :
  let self := (DRPolicyKL.init 1 2 ∅).1 in
  let h := (DRPolicyKL.init 1 2 ∅).2 in
  ~ (0 <= -1 < Z.of_nat (DRPolicyKL.sta_num self))%Z /\
  exists h',
    DRPolicyKL.update self h [-1]%Z [0]%Z [1] [] "FrozenLake-v0" 1 = Done h' /\
    load h' (DRPolicyKL.get_policy self) <> load h (DRPolicyKL.get_policy self).
Proof.
  intros self h. split; [simpl; lia|].
  destruct (KL_init_table 1 2 ∅) as (Hh & Hm & Hn). fold self h in Hh, Hm, Hn.
  assert (DRPolicyKL.advantage_table self [-1]%Z [0]%Z [1] "FrozenLake-v0" =
          Ok (tab 1 2 last_state_advantage)) as Ha.
  { unfold DRPolicyKL.advantage_table. rewrite Hm, Hn, last_state_aggregate.
    reflexivity. }
  eexists. split.
  - exact (KL_update_total self h 1 2 _ _ _ _ _ [] "FrozenLake-v0" 1 Hm Hn Hh Ha).
  - unfold DRPolicyKL.get_policy. rewrite load_insert, (load_Some _ _ _ Hh).
    intros Heq.
    assert (cell (tab 1 2 (tilted 2 last_state_advantage
                             (fun _ _ => 1 / INR 2) 1)) 0 0 =
            cell (tab 1 2 (fun _ _ => 1 / INR 2)) 0 0) as Hc by (by rewrite Heq).
    rewrite !cell_tab in Hc by lia. revert Hc.
    unfold tilted, sum_upto, last_state_advantage. simpl.
    replace (1 / 1) with 1 by lra. replace (0 / 1) with 0 by lra.
    rewrite exp_0. pose proof exp_1_lower as He. set (e := exp 1) in *.
    intros Hc.
    assert (e * (1 / (1 + 1)) / (e * (1 / (1 + 1)) + (1 * (1 / (1 + 1)) + 0)) =
            e / (e + 1)) as Hq by (field; lra).
    rewrite Hq in Hc.
    assert (e = (e + 1) * (1 / (1 + 1))) as He2.
    { rewrite <- Hc. field. lra. }
    lra.
Qed.

(** ** Environment names no branch tests *)

Lemma Wass_choose_beta_unbound (env_name : string) (rnd : R) :
  env_name <> "Taxi-v3" -> env_name <> "NChain-v0" ->
  env_name <> "CliffWalking-v0" ->
  DRPolicyWass.choose_beta env_name rnd = None.
Proof.
  intros H1%String.eqb_neq H2%String.eqb_neq H3%String.eqb_neq.
  unfold DRPolicyWass.choose_beta. by rewrite H1, H2, H3.
Qed.

Lemma Sinkhorn_configure_unbound (self : DRPolicySinkhorn.t) (env_name : string)
    (eps : R) :
  env_name <> "Taxi-v3" -> env_name <> "NChain-v0" ->
  DRPolicySinkhorn.configure self env_name eps = (None, self).
Proof.
  intros H1%String.eqb_neq H2%String.eqb_neq.
  unfold DRPolicySinkhorn.configure. by rewrite H1, H2.
Qed.

(** Without rows or without actions line 177 is never reached. *)
Lemma Sinkhorn_empty_loop (self : DRPolicySinkhorn.t) (beta : option R)
    (adv : table) (p m n : nat) (h0 : heap) :
  DRPolicySinkhorn.act_num self = n -> (m = 0 \/ n = 0)%nat ->
  for_range m
    (fun s => for_range n (DRPolicySinkhorn.sweep self beta adv p s)) h0 =
  Done h0.
Proof.
  intros Hn [-> | ->]; [reflexivity|].
  assert (exists st', for_range m
            (fun s => for_range 0 (DRPolicySinkhorn.sweep self beta adv p s)) h0 =
            Done st' /\ st' = h0) as (st' & -> & ->); [|reflexivity].
  apply (for_in_total (fun st => st = h0)); [|reflexivity].
  intros s st _ ->. exists h0. by rewrite for_range_0.
Qed.

(** For an environment name that no branch tests, [DRPolicyWass.update]
    always raises and assigns nothing: the exception is Python's
    [UnboundLocalError] for [opt_beta] when the batch was aggregated, the
    aggregation's own exception otherwise.  [DRPolicySinkhorn.update] raises
    the [UnboundLocalError] for [beta] at its first use when there is at
    least one state and one action, and completes without an exception when
    there is no state or no action. *)
Theorem unrecognised_env_name :
  (forall (self : DRPolicyWass.t) (h : heap) observes actions advantages
          disc_freqs env_name eps rnd,
     env_name <> "Taxi-v3" -> env_name <> "NChain-v0" ->
     env_name <> "CliffWalking-v0" ->
     (exists e, DRPolicyWass.update self h observes actions advantages disc_freqs
                  env_name eps rnd = Raised e (self, h)) /\
     (forall adv,
        DRPolicyWass.advantage_table self observes actions advantages env_name =
          Ok adv ->
        DRPolicyWass.update self h observes actions advantages disc_freqs
          env_name eps rnd = Raised UnboundLocalError (self, h))) /\
  (forall (self : DRPolicySinkhorn.t) (h : heap) observes actions advantages
          disc_freqs env_name eps (adv : table),
     env_name <> "Taxi-v3" -> env_name <> "NChain-v0" ->
     DRPolicySinkhorn.advantage_table self observes actions advantages env_name =
       Ok adv ->
     ((0 < DRPolicySinkhorn.sta_num self)%nat ->
      (0 < DRPolicySinkhorn.act_num self)%nat ->
      exists st, DRPolicySinkhorn.update self h observes actions advantages
                   disc_freqs env_name eps = Raised UnboundLocalError st) /\
     ((DRPolicySinkhorn.sta_num self = 0 \/ DRPolicySinkhorn.act_num self = 0)%nat ->
      exists st, DRPolicySinkhorn.update self h observes actions advantages
                   disc_freqs env_name eps = Done st)).
Proof.
  split.
  - intros self h observes actions advantages disc_freqs env_name eps rnd H1 H2 H3.
    pose proof (Wass_choose_beta_unbound env_name rnd H1 H2 H3) as Hb.
    split.
    + unfold DRPolicyWass.update.
      destruct (DRPolicyWass.advantage_table self observes actions advantages
                  env_name); [|eauto].
      rewrite Hb. simpl. eauto.
    + intros adv Ha. unfold DRPolicyWass.update. by rewrite Ha, Hb.
  - intros self h observes actions advantages disc_freqs env_name eps adv H1 H2 Ha.
    pose proof (Sinkhorn_configure_unbound self env_name eps H1 H2) as Hc.
    split.
    + intros Hm Hn. unfold DRPolicySinkhorn.update. rewrite Ha, Hc.
      unfold alloc. simpl.
      rewrite Sinkhorn_unbound_loop by done. eauto.
    + intros Hz. unfold DRPolicySinkhorn.update. rewrite Ha, Hc.
      unfold alloc. simpl.
      rewrite Sinkhorn_empty_loop by done. eauto.
Qed.

Lemma unrecognised_env_name_witness :
  (exists e, DRPolicyWass.update (DRPolicyWass.init 1 2 ∅).1
               (DRPolicyWass.init 1 2 ∅).2 [] [] [] [] "MountainCar-v0" 1 0 =
             Raised e (DRPolicyWass.init 1 2 ∅)) /\
  (exists st, DRPolicySinkhorn.update (DRPolicySinkhorn.init 1 2 ∅).1
                (DRPolicySinkhorn.init 1 2 ∅).2 [] [] [] [] "MountainCar-v0" 1 =
              Raised UnboundLocalError st).
Proof.
  destruct unrecognised_env_name as (HWass & HSink). split.
  - destruct (HWass (DRPolicyWass.init 1 2 ∅).1 (DRPolicyWass.init 1 2 ∅).2
                [] [] [] [] "MountainCar-v0" 1 0) as [He _]; [done..|].
    exact He.
  - destruct (HSink (DRPolicySinkhorn.init 1 2 ∅).1 (DRPolicySinkhorn.init 1 2 ∅).2
                [] [] [] [] "MountainCar-v0" 1 (tab 1 2 (fun _ _ => 0)))
      as [Hr _]; [done | done | |].
    + unfold DRPolicySinkhorn.advantage_table. simpl DRPolicySinkhorn.sta_num.
      simpl DRPolicySinkhorn.act_num. by rewrite aggregate_nil.
    + apply Hr; simpl; lia.
Defined.

(** C7 — the failing input: an environment name no branch tests.
    [DRPolicySinkhorn.update] on a policy without states returns normally
    (no exception at all); on a policy with one state it raises Python's
    [UnboundLocalError], after it has replaced the table by rows of zeros;
    [DRPolicyWass.update] raises [UnboundLocalError] too, with the table
    untouched.  None of them signals a configuration error. *)
Lemma unrecognised_env_no_configuration_error :
  (exists st,
     DRPolicySinkhorn.update (DRPolicySinkhorn.init 0 2 ∅).1
       (DRPolicySinkhorn.init 0 2 ∅).2 [] [] [] [] "MountainCar-v0" 1 = Done st) /\
  (exists st,
     DRPolicySinkhorn.update (DRPolicySinkhorn.init 1 2 ∅).1
       (DRPolicySinkhorn.init 1 2 ∅).2 [] [] [] [] "MountainCar-v0" 1 =
     Raised UnboundLocalError st /\
     load st.2 (DRPolicySinkhorn.get_policy st.1) = [[0; 0]]) /\
  DRPolicyWass.update (DRPolicyWass.init 1 2 ∅).1 (DRPolicyWass.init 1 2 ∅).2
    [] [] [] [] "MountainCar-v0" 1 0 =
  Raised UnboundLocalError (DRPolicyWass.init 1 2 ∅).
Proof.
  split; [|split].
  - unfold DRPolicySinkhorn.update, DRPolicySinkhorn.advantage_table.
    simpl DRPolicySinkhorn.sta_num. simpl DRPolicySinkhorn.act_num.
    rewrite aggregate_nil. simpl. eauto.
  - unfold DRPolicySinkhorn.update, DRPolicySinkhorn.advantage_table.
    simpl DRPolicySinkhorn.sta_num. simpl DRPolicySinkhorn.act_num.
    rewrite aggregate_nil. simpl. eexists. split; [reflexivity|].
    simpl. by rewrite load_insert.
  - unfold DRPolicyWass.update, DRPolicyWass.advantage_table.
    simpl DRPolicyWass.sta_num. simpl DRPolicyWass.act_num.
    by rewrite aggregate_nil.
Qed.

(** ** Sampling *)

Lemma cumsum_from_last (acc : R) (p : row) :
  p <> [] -> List.last (cumsum_from acc p) 0 = acc + np_sum p.
Proof.
  revert acc. induction p as [|x p IH]; intros acc Hne; [done|].
  destruct p as [|y p].
  - simpl. lra.
  - change (List.last (cumsum_from (acc + x) (y :: p)) 0 = acc + np_sum (x :: y :: p)).
    rewrite IH by done. simpl. lra.
Qed.

(** The search over the normalised cumulative sums stops at an entry of
    positive probability. *)
Lemma searchsorted_right_spec (c : R) (p : row) (acc u : R) :
  0 < c -> Forall (fun x => 0 <= x) p ->
  acc / c <= u < (acc + np_sum p) / c ->
  exists x, p !! searchsorted_right (np_div (cumsum_from acc p) c) u = Some x /\
            0 < x.
Proof.
  intros Hc. revert acc. induction p as [|x p IH]; intros acc Hpos [Hlo Hhi].
  - simpl in Hhi. rewrite Rplus_0_r in Hhi. lra.
  - apply Forall_cons in Hpos as [Hx Hpos]. simpl. case_decide as Hle.
    + simpl. apply IH; [assumption|]. split; [assumption|].
      simpl in Hhi. by rewrite Rplus_assoc.
    + exists x. split; [reflexivity|].
      assert (acc / c < (acc + x) / c) as Hlt by lra.
      unfold Rdiv in Hlt. apply Rmult_lt_reg_r in Hlt; [lra|].
      by apply Rinv_0_lt_compat.
Qed.

Lemma choice_atol_pos : 0 < choice_atol.
Proof. unfold choice_atol. apply Rinv_0_lt_compat. apply pow_lt. lra. Qed.

(** A row that numpy accepts yields an index of positive probability. *)
Lemma np_random_choice_spec (a : nat) (p : row) (u : R) :
  length p = a -> pmf_within choice_atol p -> 0 <= u < 1 ->
  exists i x, np_random_choice a p u = Ok i /\ p !! i = Some x /\ 0 < x /\
              (i < a)%nat.
Proof.
  intros Hlen [Hsum Hpos] Hu.
  assert (0 < np_sum p) as Hmass.
  { assert (choice_atol < 1).
    { unfold choice_atol. rewrite <- Rinv_1. apply Rinv_lt_contravar; [|].
      - rewrite Rmult_1_l. apply pow_lt. lra.
      - replace 1 with (1 ^ 26) by (apply pow1). simpl. lra. }
    unfold Rabs in Hsum. destruct (Rcase_abs (np_sum p - 1)); lra. }
  assert (p <> []) as Hne.
  { intros ->. simpl in Hmass. lra. }
  unfold np_random_choice.
  rewrite decide_False by (destruct p; simpl in *; [done | lia]).
  rewrite decide_True by assumption.
  rewrite decide_False.
  2: { rewrite Exists_exists. intros (x & Hin & Hx).
       rewrite Forall_forall in Hpos. specialize (Hpos x Hin). lra. }
  rewrite decide_False by lra.
  unfold np_cumsum. rewrite cumsum_from_last by assumption. rewrite Rplus_0_l.
  destruct (searchsorted_right_spec (np_sum p) p 0 u Hmass Hpos) as (x & Hx & Hx0).
  { rewrite Rplus_0_l. unfold Rdiv at 1. rewrite Rmult_0_l.
    replace (np_sum p / np_sum p) with 1 by (field; lra). assumption. }
  eexists _, x. split; [reflexivity|]. split; [exact Hx|]. split; [exact Hx0|].
  rewrite <- Hlen. by eapply lookup_lt_Some.
Qed.

Lemma getitem_out (l : table) (k : Z) :
  ~ (- Z.of_nat (length l) <= k < Z.of_nat (length l))%Z ->
  getitem l k = Raise IndexError.
Proof. intros Hk. unfold getitem. by rewrite norm_index_out. Qed.

Lemma getitem_in (l : table) (k : nat) (r : row) :
  l !! k = Some r -> getitem l (Z.of_nat k) = Ok r.
Proof.
  intros Hk. unfold getitem. rewrite norm_index_nat by (by eapply lookup_lt_Some).
  simpl. unfold getitem_nat. by rewrite Hk.
Qed.

Lemma getitem_wrap (l : table) (k : Z) :
  (- Z.of_nat (length l) <= k < 0)%Z ->
  getitem l k = getitem l (k + Z.of_nat (length l)).
Proof.
  intros Hk. unfold getitem. rewrite norm_index_wrap by assumption.
  replace (k + Z.of_nat (length l))%Z
    with (Z.of_nat (Z.to_nat (k + Z.of_nat (length l)))) at 2 by lia.
  by rewrite norm_index_nat by lia.
Qed.

Lemma sample_from_contract (h : heap) (distributions act_num : nat) :
  sample_contract (sample_from h distributions act_num)
    (load h distributions) act_num.
Proof.
  intros obs u S. set (t := load h distributions) in *. split; [|split].
  - intros Hout. unfold sample_from. fold t. by rewrite getitem_out.
  - intros Hwrap. unfold sample_from. fold t. by rewrite getitem_wrap.
  - intros Hin r Hr Hlen Hpmf Hu. unfold sample_from. fold t.
    replace obs with (Z.of_nat (Z.to_nat obs)) by lia.
    rewrite (getitem_in t _ r Hr). simpl.
    destruct (np_random_choice_spec act_num r u Hlen Hpmf Hu)
      as (a & x & -> & Hx & Hx0 & Ha).
    exists a, x. done.
Qed.

(** C9, as the code has it — in the three classes, [sample(state)] raises
    [IndexError] for a state outside [-S, S), reads the row of [state + S]
    for a state in [-S, 0), and for a state in [0, S) whose row is a
    probability vector returns an action index in [0, A) that has positive
    probability in that row. *)
Theorem sample_spec :
  (forall (self : DRPolicyKL.t) (h : heap),
     sample_contract (DRPolicyKL.sample self h)
       (load h (DRPolicyKL.get_policy self)) (DRPolicyKL.act_num self)) /\
  (forall (self : DRPolicySinkhorn.t) (h : heap),
     sample_contract (DRPolicySinkhorn.sample self h)
       (load h (DRPolicySinkhorn.get_policy self)) (DRPolicySinkhorn.act_num self)) /\
  (forall (self : DRPolicyWass.t) (h : heap),
     sample_contract (DRPolicyWass.sample self h)
       (load h (DRPolicyWass.get_policy self)) (DRPolicyWass.act_num self)).
Proof.
  split; [|split]; intros self h; apply sample_from_contract.
Qed.

Lemma half_row_accepted : pmf_within choice_atol [1 / INR 2; 1 / INR 2].
Proof.
  destruct half_row_pmf as [Hpos Hsum]. split; [|exact Hpos].
  rewrite Hsum, Rminus_diag, Rabs_R0. apply Rlt_le, choice_atol_pos.
Defined.

Lemma sample_spec_witness :
  let self := (DRPolicyKL.init 1 2 ∅).1 in
  let h := (DRPolicyKL.init 1 2 ∅).2 in
  exists a x, DRPolicyKL.sample self h 0 0 = Ok a /\ (a < 2)%nat /\
              [1 / INR 2; 1 / INR 2] !! a = Some x /\ 0 < x.
Proof.
  intros self h. destruct (KL_init_table 1 2 ∅) as (Hh & _ & _).
  fold self h in Hh. apply load_Some in Hh.
  destruct sample_spec as (HKL & _).
  destruct (HKL self h 0%Z 0) as (_ & _ & Hin).
  unfold DRPolicyKL.get_policy in Hin. rewrite Hh in Hin.
  apply Hin.
  - simpl. lia.
  - reflexivity.
  - reflexivity.
  - exact half_row_accepted.
  - lra.
Defined.

(** C9, counterexample — the state -1 is outside [0, 1), and [sample]
    returns an action for it. *)
Lemma sample_negative_state :
  let self := (DRPolicyKL.init 1 2 ∅).1 in
  let h := (DRPolicyKL.init 1 2 ∅).2 in
  ~ (0 <= -1 < Z.of_nat (DRPolicyKL.sta_num self))%Z /\
  exists a, DRPolicyKL.sample self h (-1) 0 = Ok a.
Proof.
  intros self h. split; [simpl; lia|].
  destruct (KL_init_table 1 2 ∅) as (Hh & _ & _).
  fold self h in Hh. apply load_Some in Hh.
  unfold DRPolicyKL.sample, sample_from. rewrite Hh.
  rewrite getitem_wrap by (simpl; lia).
  change (-1 + Z.of_nat (length (tab 1 2 (fun _ _ => (1 / INR 2)%R))))%Z
    with (Z.of_nat 0).
  rewrite (getitem_in _ O [1 / INR 2; 1 / INR 2]) by reflexivity. simpl bind.
  destruct (np_random_choice_spec 2 [1 / INR 2; 1 / INR 2] 0)
    as (a & x & Ha & _); [reflexivity | exact half_row_accepted | lra |].
  exists a. exact Ha.
Qed.

(** ** Aliases of the table *)

(** A completed [DRPolicySinkhorn.update] has bound [self.distributions] to
    a list object that did not exist before, and has written nowhere else. *)
Lemma Sinkhorn_update_frame (self self' : DRPolicySinkhorn.t) (h h' : heap)
    observes actions advantages disc_freqs env_name eps :
  table_at h (DRPolicySinkhorn.distributions self)
    (DRPolicySinkhorn.sta_num self) (DRPolicySinkhorn.act_num self) ->
  DRPolicySinkhorn.update self h observes actions advantages disc_freqs env_name eps =
    Done (self', h') ->
  DRPolicySinkhorn.distributions self' = fresh (dom h) /\
  exists new, h' = <[fresh (dom h) := new]> h.
Proof.
  intros Hwf%table_at_tab. unfold DRPolicySinkhorn.update.
  destruct (Sinkhorn_advantage_table_cases self observes actions advantages env_name)
    as [(fa & ->) | ->]; [|discriminate].
  destruct (DRPolicySinkhorn.configure self env_name eps) as [beta self1] eqn:Hc.
  destruct (Sinkhorn_configure_fields _ _ _ _ _ Hc) as (Hm1 & Hn1 & Hd1).
  unfold alloc. simpl. rewrite Hm1, Hn1, Hd1.
  set (m := DRPolicySinkhorn.sta_num self) in *.
  set (n := DRPolicySinkhorn.act_num self) in *.
  set (self2 := DRPolicySinkhorn.set_distributions self1 (fresh (dom h))).
  assert (DRPolicySinkhorn.distributions self2 <> DRPolicySinkhorn.distributions self)
    as Hne by (simpl; by eapply fresh_ne).
  destruct beta as [b|].
  - unfold np_zeros. rewrite tab_replicate.
    change (fresh (dom h)) with (DRPolicySinkhorn.distributions self2) at 1.
    rewrite (Sinkhorn_state_loop self2 b fa _ h _ m n Hm1 Hn1 Hne Hwf) by lia.
    intros [= <- <-]. split; [reflexivity | eauto].
  - destruct (decide (0 < m /\ 0 < n)%nat) as [[Hm Hn] | Hz].
    + rewrite (Sinkhorn_unbound_loop self2 _ _ m n) by done. discriminate.
    + rewrite (Sinkhorn_empty_loop self2 None _ _ m n) by (done || lia).
      intros [= <- <-]. split; [reflexivity | eauto].
Qed.

(** C10 — a reference obtained from [get_policy] before an update:
    after [DRPolicyKL.update] it reads the new rows, because line 91
    assigns them into the list object it refers to, and [get_policy] still
    returns it; after [DRPolicySinkhorn.update] and [DRPolicyWass.update]
    it still reads the old table, because these bind [self.distributions]
    to a new list object and write nowhere else, and [get_policy] no longer
    returns it. *)
Theorem get_policy_alias :
  (forall (self : DRPolicyKL.t) (h h' : heap) observes actions advantages
          disc_freqs env_name eps (adv : table),
     let m := DRPolicyKL.sta_num self in
     let n := DRPolicyKL.act_num self in
     let p := DRPolicyKL.get_policy self in
     table_at h p m n ->
     DRPolicyKL.advantage_table self observes actions advantages env_name = Ok adv ->
     DRPolicyKL.update self h observes actions advantages disc_freqs env_name eps =
       Done h' ->
     load h' p = tab m n (tilted n (cell adv) (cell (load h p)) 1) /\
     forall l, l <> p -> h' !! l = h !! l) /\
  (forall (self self' : DRPolicySinkhorn.t) (h h' : heap) observes actions
          advantages disc_freqs env_name eps,
     let p := DRPolicySinkhorn.get_policy self in
     table_at h p (DRPolicySinkhorn.sta_num self) (DRPolicySinkhorn.act_num self) ->
     DRPolicySinkhorn.update self h observes actions advantages disc_freqs
       env_name eps = Done (self', h') ->
     DRPolicySinkhorn.get_policy self' <> p /\
     h !! DRPolicySinkhorn.get_policy self' = None /\
     load h' p = load h p /\
     forall l, l <> DRPolicySinkhorn.get_policy self' -> h' !! l = h !! l) /\
  (forall (self self' : DRPolicyWass.t) (h h' : heap) observes actions
          advantages disc_freqs env_name eps rnd,
     let p := DRPolicyWass.get_policy self in
     table_at h p (DRPolicyWass.sta_num self) (DRPolicyWass.act_num self) ->
     DRPolicyWass.update self h observes actions advantages disc_freqs
       env_name eps rnd = Done (self', h') ->
     DRPolicyWass.get_policy self' <> p /\
     h !! DRPolicyWass.get_policy self' = None /\
     load h' p = load h p /\
     forall l, l <> DRPolicyWass.get_policy self' -> h' !! l = h !! l).
Proof.
  assert (forall (h : heap), h !! fresh (dom h) = None) as Hfresh.
  { intros h. apply not_elem_of_dom, is_fresh. }
  split; [|split].
  - intros self h h' observes actions advantages disc_freqs env_name eps adv m n p
      Hwf%table_at_tab Hadv Hup. subst p. unfold DRPolicyKL.get_policy in *.
    destruct (KL_update_done _ _ _ _ _ _ _ _ _ _ Hwf Hup) as (fa & Hfa & ->).
    rewrite Hadv in Hfa. injection Hfa as ->. fold m n. split.
    + rewrite load_insert. apply tab_ext. intros s a Hs Ha. unfold tilted.
      rewrite cell_tab by assumption. f_equal.
      apply sum_upto_ext. intros a' Ha'. by rewrite cell_tab.
    + intros l Hl. by rewrite lookup_insert_ne.
  - intros self self' h h' observes actions advantages disc_freqs env_name eps p
      Hwf Hup. subst p. unfold DRPolicySinkhorn.get_policy in *.
    destruct (Sinkhorn_update_frame _ _ _ _ _ _ _ _ _ _ Hwf Hup) as (-> & new & ->).
    destruct Hwf as (t & Ht & _).
    repeat split.
    + by eapply fresh_ne.
    + apply Hfresh.
    + apply load_insert_ne. by eapply fresh_ne.
    + intros l Hl. by rewrite lookup_insert_ne.
  - intros self self' h h' observes actions advantages disc_freqs env_name eps rnd
      p Hwf Hup. subst p. unfold DRPolicyWass.get_policy in *.
    pose proof Hwf as (t & Ht & _). apply table_at_tab in Hwf.
    destruct (Wass_update_done _ _ _ _ _ _ _ _ _ _ _ _ Hwf Hup)
      as (fa & beta & _ & _ & -> & ->).
    simpl. repeat split.
    + by eapply fresh_ne.
    + apply Hfresh.
    + apply load_insert_ne. by eapply fresh_ne.
    + intros l Hl. by rewrite lookup_insert_ne.
Qed.

Lemma get_policy_alias_witness :
  (let self := (DRPolicyKL.init 1 2 ∅).1 in
   let h := (DRPolicyKL.init 1 2 ∅).2 in
   let p := DRPolicyKL.get_policy self in
   let h' := final (DRPolicyKL.update self h [] [] [] [] "FrozenLake-v0" 1) in
   load h' p = tab 1 2 (tilted 2 (cell (tab 1 2 (fun _ _ => 0))) (cell (load h p)) 1) /\
   forall l, l <> p -> h' !! l = h !! l) /\
  (let self := (DRPolicySinkhorn.init 1 2 ∅).1 in
   let h := (DRPolicySinkhorn.init 1 2 ∅).2 in
   let p := DRPolicySinkhorn.get_policy self in
   let o := DRPolicySinkhorn.update self h [] [] [] [] "Taxi-v3" 1 in
   DRPolicySinkhorn.get_policy (final o).1 <> p /\
   h !! DRPolicySinkhorn.get_policy (final o).1 = None /\
   load (final o).2 p = load h p /\
   forall l, l <> DRPolicySinkhorn.get_policy (final o).1 -> (final o).2 !! l = h !! l) /\
  (let self := (DRPolicyWass.init 1 2 ∅).1 in
   let h := (DRPolicyWass.init 1 2 ∅).2 in
   let p := DRPolicyWass.get_policy self in
   let o := DRPolicyWass.update self h [] [] [] [] "CliffWalking-v0" 1 0 in
   DRPolicyWass.get_policy (final o).1 <> p /\
   h !! DRPolicyWass.get_policy (final o).1 = None /\
   load (final o).2 p = load h p /\
   forall l, l <> DRPolicyWass.get_policy (final o).1 -> (final o).2 !! l = h !! l).
Proof.
  destruct get_policy_alias as (HKL & HSink & HWass). split; [|split].
  - intros self h p h'. destruct KL_empty_run as (Hh & Ha & Hup).
    fold self h in Hh, Ha, Hup.
    apply (HKL self h h' [] [] [] [] "FrozenLake-v0" 1 (tab 1 2 (fun _ _ => 0))).
    + by eapply table_at_intro.
    + exact Ha.
    + subst h'. by rewrite Hup.
  - intros self h p o. destruct Sinkhorn_empty_run as (Hh & Ha & Hup).
    fold self h in Hh, Ha, Hup. fold o in Hup.
    apply (HSink self (final o).1 h (final o).2 [] [] [] [] "Taxi-v3" 1).
    + by eapply table_at_intro.
    + by rewrite Hup.
  - intros self h p o. destruct Wass_example_run as (Hh & Ha & Hup).
    fold self h in Hh, Ha, Hup. fold o in Hup.
    apply (HWass self (final o).1 h (final o).2 [] [] [] [] "CliffWalking-v0" 1 0).
    + by eapply table_at_intro.
    + by rewrite Hup.
Defined.


(** ** The shape of the table along a run

    Every lemma above asks that [self.distributions] holds [sta_num] rows of
    [act_num] entries.  [__init__] builds such a table and every completed
    [update] leaves one. *)

Lemma init_table_at (m n : nat) (h : heap) :
  (let st := DRPolicyKL.init m n h in
   table_at st.2 (DRPolicyKL.distributions st.1)
     (DRPolicyKL.sta_num st.1) (DRPolicyKL.act_num st.1)) /\
  (let st := DRPolicySinkhorn.init m n h in
   table_at st.2 (DRPolicySinkhorn.distributions st.1)
     (DRPolicySinkhorn.sta_num st.1) (DRPolicySinkhorn.act_num st.1)) /\
  (let st := DRPolicyWass.init m n h in
   table_at st.2 (DRPolicyWass.distributions st.1)
     (DRPolicyWass.sta_num st.1) (DRPolicyWass.act_num st.1)).
Proof.
  split; [|split]; intros st.
  - destruct (KL_init_table m n h) as (Hh & Hm & Hn). fold st in Hh, Hm, Hn.
    rewrite Hm, Hn. by eapply table_at_intro.
  - destruct (Sinkhorn_init_table m n h) as (Hh & Hm & Hn). fold st in Hh, Hm, Hn.
    rewrite Hm, Hn. by eapply table_at_intro.
  - destruct (Wass_init_table m n h) as (Hh & Hm & Hn). fold st in Hh, Hm, Hn.
    rewrite Hm, Hn. by eapply table_at_intro.
Qed.

Lemma KL_update_table_at (self : DRPolicyKL.t) (h h' : heap)
    observes actions advantages disc_freqs env_name eps :
  table_at h (DRPolicyKL.distributions self)
    (DRPolicyKL.sta_num self) (DRPolicyKL.act_num self) ->
  DRPolicyKL.update self h observes actions advantages disc_freqs env_name eps =
    Done h' ->
  table_at h' (DRPolicyKL.distributions self)
    (DRPolicyKL.sta_num self) (DRPolicyKL.act_num self).
Proof.
  intros Hwf%table_at_tab Hup.
  destruct (KL_update_done _ _ _ _ _ _ _ _ _ _ Hwf Hup) as (fa & _ & ->).
  eapply table_at_intro. apply lookup_insert_eq.
Qed.

Lemma Wass_update_table_at (self self' : DRPolicyWass.t) (h h' : heap)
    observes actions advantages disc_freqs env_name eps rnd :
  table_at h (DRPolicyWass.distributions self)
    (DRPolicyWass.sta_num self) (DRPolicyWass.act_num self) ->
  DRPolicyWass.update self h observes actions advantages disc_freqs env_name
    eps rnd = Done (self', h') ->
  table_at h' (DRPolicyWass.distributions self')
    (DRPolicyWass.sta_num self') (DRPolicyWass.act_num self').
Proof.
  intros Hwf%table_at_tab Hup.
  destruct (Wass_update_done _ _ _ _ _ _ _ _ _ _ _ _ Hwf Hup)
    as (fa & beta & _ & _ & -> & ->).
  eapply table_at_intro. simpl. apply lookup_insert_eq.
Qed.

Lemma Sinkhorn_update_table_at (self self' : DRPolicySinkhorn.t) (h h' : heap)
    observes actions advantages disc_freqs env_name eps :
  table_at h (DRPolicySinkhorn.distributions self)
    (DRPolicySinkhorn.sta_num self) (DRPolicySinkhorn.act_num self) ->
  (0 < DRPolicySinkhorn.sta_num self)%nat ->
  (0 < DRPolicySinkhorn.act_num self)%nat ->
  DRPolicySinkhorn.update self h observes actions advantages disc_freqs
    env_name eps = Done (self', h') ->
  table_at h' (DRPolicySinkhorn.distributions self')
    (DRPolicySinkhorn.sta_num self') (DRPolicySinkhorn.act_num self').
Proof.
  intros Hwf%table_at_tab Hm Hn Hup.
  destruct (Sinkhorn_update_done _ _ _ _ _ _ _ _ _ _ _ Hwf Hm Hn Hup)
    as (fa & b & self1 & _ & Hc & -> & ->).
  destruct (Sinkhorn_configure_fields _ _ _ _ _ Hc) as (Hm1 & Hn1 & _).
  simpl. rewrite Hm1, Hn1. eapply table_at_intro. apply lookup_insert_eq.
Qed.


(** ** Updates that complete

    A batch of three lists of one length whose subscripts wrap into the
    table is aggregated; with an environment name that asks for no bonus
    and, for the two transport classes, selects a [beta], [update] runs to
    its end. *)

Lemma KL_update_completes (self : DRPolicyKL.t) (h : heap)
    observes actions advantages disc_freqs env_name eps :
  table_at h (DRPolicyKL.distributions self)
    (DRPolicyKL.sta_num self) (DRPolicyKL.act_num self) ->
  batch_ok (DRPolicyKL.sta_num self) (DRPolicyKL.act_num self)
    observes actions advantages ->
  env_name <> "NChain-v0" -> env_name <> "Taxi-v3" ->
  exists h', DRPolicyKL.update self h observes actions advantages disc_freqs
               env_name eps = Done h'.
Proof.
  intros Hwf%table_at_tab (Hla & Hlv & Ho & Ha) H1%String.eqb_neq H2%String.eqb_neq.
  destruct (aggregate_accepts _ _ _ _ _ Hla Hlv Ho Ha) as (fa & Hfa).
  eexists. eapply (KL_update_total self h _ _ fa); [reflexivity.. | exact Hwf |].
  unfold DRPolicyKL.advantage_table. rewrite Hfa. simpl.
  unfold DRPolicyKL.adjust. by rewrite H1, H2.
Qed.

Lemma Sinkhorn_update_completes (self : DRPolicySinkhorn.t) (h : heap)
    observes actions advantages disc_freqs eps :
  table_at h (DRPolicySinkhorn.distributions self)
    (DRPolicySinkhorn.sta_num self) (DRPolicySinkhorn.act_num self) ->
  batch_ok (DRPolicySinkhorn.sta_num self) (DRPolicySinkhorn.act_num self)
    observes actions advantages ->
  exists st, DRPolicySinkhorn.update self h observes actions advantages disc_freqs
               "Taxi-v3" eps = Done st.
Proof.
  intros Hwf%table_at_tab (Hla & Hlv & Ho & Ha).
  destruct (aggregate_accepts _ _ _ _ _ Hla Hlv Ho Ha) as (fa & Hfa).
  destruct (DRPolicySinkhorn.configure self "Taxi-v3" eps) as [beta self1] eqn:Hc.
  pose proof (Sinkhorn_configure_beta self "Taxi-v3" eps) as Hb.
  rewrite Hc in Hb. simpl in Hb. subst beta.
  eexists.
  eapply (Sinkhorn_update_total self self1 h _ _ fa);
    [reflexivity.. | exact Hwf | | exact Hc].
  unfold DRPolicySinkhorn.advantage_table. by rewrite Hfa.
Qed.

Lemma Wass_update_completes (self : DRPolicyWass.t) (h : heap)
    observes actions advantages disc_freqs env_name eps rnd :
  table_at h (DRPolicyWass.distributions self)
    (DRPolicyWass.sta_num self) (DRPolicyWass.act_num self) ->
  batch_ok (DRPolicyWass.sta_num self) (DRPolicyWass.act_num self)
    observes actions advantages ->
  env_name = "Taxi-v3" \/ env_name = "CliffWalking-v0" ->
  exists st, DRPolicyWass.update self h observes actions advantages disc_freqs
               env_name eps rnd = Done st.
Proof.
  intros Hwf%table_at_tab (Hla & Hlv & Ho & Ha) Henv.
  destruct (aggregate_accepts _ _ _ _ _ Hla Hlv Ho Ha) as (fa & Hfa).
  assert (exists beta, DRPolicyWass.choose_beta env_name rnd = Some beta) as (beta & Hb).
  { destruct Henv as [-> | ->]; eexists; reflexivity. }
  eexists.
  eapply (Wass_update_total self h _ _ fa);
    [reflexivity.. | exact Hwf | | exact Hb].
  unfold DRPolicyWass.advantage_table. rewrite Hfa. simpl.
  unfold DRPolicyWass.adjust. by destruct Henv as [-> | ->].
Qed.

(** * Further properties *)

(** ** The distance between actions *)

(** X1 — [calc_d] is the discrete metric, the same in [DRPolicySinkhorn]
    and [DRPolicyWass]: never negative, zero exactly on equal actions,
    symmetric, and it satisfies the triangle inequality. *)
Theorem calc_d_metric :
  forall a b c : nat,
    DRPolicySinkhorn.calc_d a b = DRPolicyWass.calc_d a b /\
    0 <= DRPolicyWass.calc_d a b /\
    (DRPolicyWass.calc_d a b = 0 <-> a = b) /\
    DRPolicyWass.calc_d a b = DRPolicyWass.calc_d b a /\
    DRPolicyWass.calc_d a c <= DRPolicyWass.calc_d a b + DRPolicyWass.calc_d b c.
Proof.
  intros a b c. unfold DRPolicySinkhorn.calc_d, DRPolicyWass.calc_d.
  repeat case_decide; subst; repeat split; try lra; try congruence; intros; lra.
Qed.

(** ** Construction *)

Lemma uniform_table_replicate (m n : nat) :
  uniform_table m n = replicate m (replicate n (1 / INR n)).
Proof. by rewrite uniform_table_tab, tab_replicate. Qed.

Lemma map_const_seq {A : Type} (c : A) (n : nat) :
  map (fun _ : nat => c) (seq 0 n) = replicate n c.
Proof.
  apply list_eq. intros i. destruct (decide (i < n)%nat).
  - by rewrite lookup_map_seq, lookup_replicate_2.
  - rewrite !lookup_ge_None_2; [done | |];
      [rewrite length_replicate | rewrite length_map, length_seq]; lia.
Qed.

Lemma alloc_fresh_uniform (h : heap) (m n : nat) :
  fresh_uniform h (alloc h (uniform_table m n)).2
    (alloc h (uniform_table m n)).1 m n.
Proof.
  unfold alloc. simpl. repeat split.
  - apply not_elem_of_dom, is_fresh.
  - intros l Hl. by rewrite lookup_insert_ne.
  - by rewrite load_insert, uniform_table_replicate.
  - intros Hn. rewrite load_insert, uniform_table_replicate.
    apply Forall_replicate. split.
    + rewrite <- map_const_seq. by apply uniform_row_pmf.
    + apply Forall_replicate. apply Rdiv_lt_0_compat; [lra | by apply lt_0_INR].
Qed.

(** X2 — [__init__] of each class allocates a list object that did not
    exist, touches no other object, records [sta_num] and [act_num], and
    fills the table with [sta_num] rows of [act_num] entries [1/act_num]:
    with at least one action every row is a strictly positive PMF. *)
Theorem init_uniform :
  forall (m n : nat) (h : heap),
    (let st := DRPolicyKL.init m n h in
     fresh_uniform h st.2 (DRPolicyKL.get_policy st.1) m n /\
     DRPolicyKL.sta_num st.1 = m /\ DRPolicyKL.act_num st.1 = n) /\
    (let st := DRPolicySinkhorn.init m n h in
     fresh_uniform h st.2 (DRPolicySinkhorn.get_policy st.1) m n /\
     DRPolicySinkhorn.sta_num st.1 = m /\ DRPolicySinkhorn.act_num st.1 = n /\
     DRPolicySinkhorn.lamb st.1 = 3) /\
    (let st := DRPolicyWass.init m n h in
     fresh_uniform h st.2 (DRPolicyWass.get_policy st.1) m n /\
     DRPolicyWass.sta_num st.1 = m /\ DRPolicyWass.act_num st.1 = n).
Proof.
  intros m n h. pose proof (alloc_fresh_uniform h m n) as H.
  split; [|split]; simpl; repeat split; try apply H.
Qed.

Lemma init_uniform_witness :
  Forall (fun r => pmf r /\ Forall (fun x => 0 < x) r)
    (load (DRPolicyKL.init 1 2 ∅).2
       (DRPolicyKL.get_policy (DRPolicyKL.init 1 2 ∅).1)).
Proof.
  destruct (init_uniform 1 2 ∅) as ((Hf & _) & _).
  destruct Hf as (_ & _ & _ & Hpmf). apply Hpmf. lia.
Defined.

(** ** The table of averages *)

Lemma norm_index_in (n : nat) (k : Z) :
  (- Z.of_nat n <= k < Z.of_nat n)%Z -> norm_index n k = Ok (wrap n k).
Proof.
  intros Hk. unfold norm_index, wrap. case_decide as H0.
  - by rewrite Z.mod_small by lia.
  - rewrite decide_True by lia. f_equal. f_equal.
    rewrite <- (Z.mod_add k 1 (Z.of_nat n)) by lia.
    rewrite Z.mod_small; lia.
Qed.

Lemma hits_here (m n : nat) observes actions (k : nat) (o c : Z) (s a : nat) :
  observes !! k = Some o -> actions !! k = Some c ->
  hits m n observes actions s a k <-> (s = wrap m o /\ a = wrap n c).
Proof.
  intros Ho Hc. unfold hits. rewrite Ho, Hc. simpl. split.
  - intros [[= <-] [= <-]]. done.
  - intros [-> ->]. done.
Qed.

(** After [k] samples every cell holds the sum, respectively the number,
    of the samples that fell into it. *)
Lemma accumulate_loop_sums (m n : nat) observes actions advantages (k : nat) :
  batch_ok m n observes actions advantages -> (k <= length observes)%nat ->
  for_range k (accumulate observes actions advantages)
    (tab m n (fun _ _ => 0), tab m n (fun _ _ => 0)) =
  Done (tab m n (fun s a =>
                   sum_upto k (fun i => if decide (hits m n observes actions s a i)
                                        then sample_value advantages i else 0)),
        tab m n (fun s a =>
                   sum_upto k (fun i => if decide (hits m n observes actions s a i)
                                        then 1 else 0))).
Proof.
  intros (Hla & Hlv & Ho & Ha). induction k as [|k IH]; intros Hk; [reflexivity|].
  rewrite for_range_S, IH by lia. simpl.
  destruct (lookup_lt_is_Some_2 observes k ltac:(lia)) as [o Hok].
  destruct (lookup_lt_is_Some_2 actions k ltac:(lia)) as [c Hck].
  destruct (lookup_lt_is_Some_2 advantages k ltac:(lia)) as [v Hvk].
  assert (- Z.of_nat m <= o < Z.of_nat m)%Z as Ho'.
  { rewrite Forall_forall in Ho. apply Ho. by eapply list_elem_of_lookup_2. }
  assert (- Z.of_nat n <= c < Z.of_nat n)%Z as Hc'.
  { rewrite Forall_forall in Ha. apply Ha. by eapply list_elem_of_lookup_2. }
  unfold accumulate, getitem_nat. rewrite Hok, Hck, Hvk. simpl.
  match goal with
  | |- context [iadd2 (tab m n ?F) o c v] =>
      destruct (iadd2_tab m n F o c v) as [(i & j & Hi & Hj & _ & _ & ->) | [[H | H] _]]
  end.
  2, 3: rewrite norm_index_in in H by assumption; discriminate.
  simpl.
  match goal with
  | |- context [iadd2 (tab m n ?G) o c 1] =>
      destruct (iadd2_tab m n G o c 1) as [(i' & j' & Hi' & Hj' & _ & _ & ->) | [[H | H] _]]
  end.
  2, 3: rewrite norm_index_in in H by assumption; discriminate.
  rewrite norm_index_in in Hi, Hj, Hi', Hj' by assumption.
  injection Hi as <-. injection Hj as <-. injection Hi' as <-. injection Hj' as <-.
  simpl. do 2 f_equal; apply tab_ext; intros s a Hs Has; rewrite sum_upto_S;
    unfold upd, sample_value.
  - rewrite Hvk. simpl.
    destruct (decide (hits m n observes actions s a k)) as [Hh | Hh];
      rewrite (hits_here m n _ _ k o c s a Hok Hck) in Hh.
    + destruct Hh as [-> ->]. by rewrite !decide_True by done.
    + repeat case_decide; subst; try lra. by destruct Hh.
  - destruct (decide (hits m n observes actions s a k)) as [Hh | Hh];
      rewrite (hits_here m n _ _ k o c s a Hok Hck) in Hh.
    + destruct Hh as [-> ->]. by rewrite !decide_True by done.
    + repeat case_decide; subst; try lra. by destruct Hh.
Qed.

Lemma average_row_loop (m n : nat) (F G : nat -> nat -> R) (s k : nat) :
  (s < m)%nat -> (k <= n)%nat ->
  for_range k (average s) (tab m n F, tab m n G) =
  Done (tab m n (fun s' a => if decide (s' = s /\ a < k)%nat
                             then averaged F G s' a else F s' a),
        tab m n G).
Proof.
  intros Hs. induction k as [|k IH]; intros Hk.
  - rewrite for_range_0. do 2 f_equal. apply tab_ext. intros s' a _ _.
    by rewrite decide_False by lia.
  - rewrite for_range_S, IH by lia. simpl. unfold average.
    rewrite get2_tab by lia. simpl.
    assert (forall (X Y : nat -> nat -> R),
              (forall s' a, (s' < m)%nat -> (a < n)%nat -> X s' a = Y s' a) ->
              Done (tab m n X, tab m n G) = Done (tab m n Y, tab m n G)) as Hext.
    { intros X Y HXY. do 2 f_equal. by apply tab_ext. }
    case_decide as Hg.
    + rewrite get2_tab by lia. simpl. rewrite set2_tab by lia. simpl.
      apply Hext. intros s' a Hs' Ha. unfold upd.
      destruct (decide (s' = s)) as [->|Hne].
      * destruct (decide (a = k)) as [->|Hne'].
        -- rewrite (decide_False (P := (s = s /\ k < k)%nat)) by lia.
           rewrite decide_True by lia. unfold averaged. by rewrite decide_True.
        -- destruct (decide (s = s /\ a < k)%nat);
             [by rewrite decide_True by lia | by rewrite decide_False by lia].
      * rewrite !(decide_False (P := (s' = s /\ _)%nat)) by lia. reflexivity.
    + simpl. apply Hext. intros s' a Hs' Ha.
      destruct (decide (s' = s /\ a = k)%nat) as [[-> ->]|Hne].
      * destruct (decide (s = s /\ k < k)%nat) as [[_ ?]|_]; [lia|].
        rewrite decide_True by lia. unfold averaged.
        rewrite decide_False; [reflexivity | by intros H; apply H].
      * destruct (decide (s' = s /\ a < k)%nat);
          [by rewrite decide_True by lia | by rewrite decide_False by lia].
Qed.

Lemma average_loop (m n : nat) (F G : nat -> nat -> R) (k : nat) :
  (k <= m)%nat ->
  for_range k (fun s => for_range n (average s)) (tab m n F, tab m n G) =
  Done (tab m n (fun s a => if decide (s < k)%nat then averaged F G s a else F s a),
        tab m n G).
Proof.
  induction k as [|k IH]; intros Hk.
  - rewrite for_range_0. do 2 f_equal.
  - rewrite for_range_S, IH by lia. simpl.
    rewrite average_row_loop by lia. do 2 f_equal.
    apply tab_ext. intros s a Hs Ha.
    destruct (decide (s = k)) as [->|Hne].
    + rewrite decide_True by lia. rewrite (decide_True (P := (k < S k)%nat)) by lia.
      unfold averaged. destruct (decide (k < k)%nat); [lia|]. reflexivity.
    + rewrite (decide_False (P := (s = k /\ _)%nat)) by lia.
      destruct (decide (s < k)%nat);
        [by rewrite decide_True by lia | by rewrite decide_False by lia].
Qed.

Lemma count_filter (n : nat) (P : nat -> Prop) `{!forall i, Decision (P i)} :
  sum_upto n (fun i => if decide (P i) then 1 else 0) =
  INR (length (filter P (seq 0 n))).
Proof.
  unfold sum_upto. induction (seq 0 n) as [|i l IH]; [reflexivity|].
  rewrite filter_cons. simpl map. simpl np_sum. case_decide.
  - rewrite length_cons, S_INR, IH. lra.
  - rewrite IH. lra.
Qed.

(** X3 — for a batch of three lists of one length whose subscripts lie in
    [-S, S) and [-A, A), the aggregation of lines 48-60 returns a table of
    [S] rows and [A] columns whose cell [(s, a)] is the mean of the
    advantages of the samples that fall into it (a negative subscript counts
    from the end), and 0 where no sample does. *)
Theorem aggregate_is_mean :
  forall (m n : nat) observes actions advantages,
    batch_ok m n observes actions advantages ->
    exists t,
      aggregate m n observes actions advantages = Ok t /\ shaped m n t /\
      forall s a, (s < m)%nat -> (a < n)%nat ->
        cell t s a =
        mean (map (sample_value advantages)
                (filter (hits m n observes actions s a)
                   (seq 0 (length observes)))).
Proof.
  intros m n observes actions advantages Hb.
  unfold aggregate, np_zeros. rewrite tab_replicate.
  rewrite (accumulate_loop_sums m n _ _ _ _ Hb) by lia. simpl next.
  rewrite average_loop by lia.
  eexists. split; [reflexivity|]. split; [apply tab_shaped|].
  intros s a Hs Ha. rewrite cell_tab by assumption.
  rewrite decide_True by lia. unfold averaged.
  rewrite count_filter, sum_filter.
  set (l := filter (hits m n observes actions s a) (seq 0 (length observes))).
  destruct l as [|k l'].
  - simpl. rewrite decide_False; [reflexivity | by intros H; apply H].
  - cbn [map]. unfold mean. rewrite decide_True.
    + f_equal. f_equal. cbn [length]. by rewrite length_map.
    + rewrite length_cons, S_INR. pose proof (pos_INR (length l')). lra.
Qed.

Lemma example_batch_ok : batch_ok 2 2 [0; 0; 1; 1]%Z [0; 1; 0; 1]%Z [1; -1; 0; 0].
Proof.
  repeat split; repeat constructor; simpl; lia.
Defined.

Lemma aggregate_is_mean_witness :
  exists t,
    aggregate 2 2 [0; 0; 1; 1]%Z [0; 1; 0; 1]%Z [1; -1; 0; 0] = Ok t /\
    shaped 2 2 t /\
    forall s a, (s < 2)%nat -> (a < 2)%nat ->
      cell t s a =
      mean (map (sample_value [1; -1; 0; 0])
              (filter (hits 2 2 [0; 0; 1; 1]%Z [0; 1; 0; 1]%Z s a) (seq 0 4))).
Proof. exact (aggregate_is_mean 2 2 _ _ _ example_batch_ok). Defined.

(** ** The exponential tilt *)

Lemma row_of_tab (m n : nat) (f : nat -> nat -> R) (s : nat) :
  (s < m)%nat -> row_of (tab m n f) s = map (f s) (seq 0 n).
Proof. intros Hs. unfold row_of. by rewrite tab_lookup. Qed.

(** A PMF row of a table with [m] rows of [n] entries. *)
Lemma row_of_pmf (m n : nat) (f : nat -> nat -> R) (s : nat) :
  pmf (row_of (tab m n f) s) ->
  (s < m)%nat /\ (0 < n)%nat /\ (forall a, (a < n)%nat -> 0 <= f s a) /\
  sum_upto n (f s) = 1.
Proof.
  intros Hpmf. assert (s < m)%nat as Hs.
  { destruct (decide (s < m)%nat) as [|Hge]; [done|]. exfalso.
    unfold row_of in Hpmf. rewrite lookup_ge_None_2 in Hpmf
      by (rewrite tab_length; lia).
    destruct Hpmf as [_ Hsum]. simpl in Hsum. lra. }
  rewrite row_of_tab in Hpmf by assumption.
  split; [assumption|]. split; [by eapply pmf_nonempty|]. by apply pmf_row.
Qed.




(** *** Sums over pairs *)


Lemma sum_upto_le (n : nat) (f g : nat -> R) :
  (forall i, (i < n)%nat -> f i <= g i) -> sum_upto n f <= sum_upto n g.
Proof.
  induction n as [|n IH]; intros H; [unfold sum_upto; simpl; lra|].
  rewrite !sum_upto_S. specialize (H n (Nat.lt_succ_diag_r n)) as Hn.
  assert (sum_upto n f <= sum_upto n g) by (apply IH; intros; apply H; lia). lra.
Qed.




(** ** DRPolicyKL.update: what the tilt does to a row *)

(** A completed update in cells: the three tables involved. *)
Lemma KL_update_rows (self : DRPolicyKL.t) (h h' : heap)
    observes actions advantages disc_freqs env_name eps (adv : table) :
  let p := DRPolicyKL.distributions self in
  let m := DRPolicyKL.sta_num self in
  let n := DRPolicyKL.act_num self in
  table_at h p m n ->
  DRPolicyKL.advantage_table self observes actions advantages env_name = Ok adv ->
  DRPolicyKL.update self h observes actions advantages disc_freqs env_name eps =
    Done h' ->
  exists fa fo,
    adv = tab m n fa /\ h !! p = Some (tab m n fo) /\
    h' = <[p := tab m n (tilted n fa fo 1)]> h.
Proof.
  intros p m n Hwf%table_at_tab Hadv Hup.
  destruct (KL_update_done _ _ _ _ _ _ _ _ _ _ Hwf Hup) as (fa & Hfa & ->).
  rewrite Hadv in Hfa. injection Hfa as ->. eauto.
Qed.

(** The example run: two states, two actions, the batch of the worked
    example on the table [__init__] builds. *)
Lemma example_KL_run (disc_freqs : list R) (eps : R) :
  let self := (DRPolicyKL.init 2 2 ∅).1 in
  let h := (DRPolicyKL.init 2 2 ∅).2 in
  let p := DRPolicyKL.distributions self in
  h !! p = Some (tab 2 2 (fun _ _ => 1 / INR 2)) /\
  table_at h p 2 2 /\
  DRPolicyKL.advantage_table self [0; 0; 1; 1]%Z [0; 1; 0; 1]%Z [1; -1; 0; 0]
    "FrozenLake-v0" = Ok (tab 2 2 example_advantage) /\
  DRPolicyKL.update self h [0; 0; 1; 1]%Z [0; 1; 0; 1]%Z [1; -1; 0; 0]
    disc_freqs "FrozenLake-v0" eps =
  Done (<[p := tab 2 2 (tilted 2 example_advantage (fun _ _ => 1 / INR 2) 1)]> h) /\
  pmf (row_of (load h p) 0).
Proof.
  intros self h p. destruct (KL_init_table 2 2 ∅) as (Hh & Hm & Hn).
  fold self h p in Hh, Hm, Hn.
  pose proof (example_advantage_table self "FrozenLake-v0" Hm Hn eq_refl eq_refl)
    as Hadv.
  split; [exact Hh|]. split; [by eapply table_at_intro|]. split; [exact Hadv|].
  split.
  - exact (KL_update_total self h 2 2 example_advantage _ _ _ _ disc_freqs
             "FrozenLake-v0" eps Hm Hn Hh Hadv).
  - rewrite (load_Some _ _ _ Hh), row_of_tab by lia. apply (uniform_row_pmf 2). lia.
Qed.







Lemma tab_inj (m n : nat) (f g : nat -> nat -> R) (s a : nat) :
  tab m n f = tab m n g -> (s < m)%nat -> (a < n)%nat -> f s a = g s a.
Proof.
  intros H Hs Ha. by rewrite <- (cell_tab m n f), H, cell_tab.
Qed.


(** The batch (0,0,2.0), (0,1,0.0): the advantages of state 0 are those of
    the worked example plus 1. *)
Lemma shifted_aggregate :
  aggregate 2 2 [0; 0]%Z [0; 1]%Z [2; 0] =
  Ok (tab 2 2 (fun s a => match s, a with O, O => 2 | _, _ => 0 end)).
Proof.
  unfold aggregate, for_range. decide_R.
  unfold tab. simpl. repeat f_equal; lra.
Qed.





(** ** The bonuses of lines 62-68, 143-145 and 250-252 *)

(** [t[i][j] += v] for literal subscripts. *)
Lemma iadd2_nat (m n : nat) (f : nat -> nat -> R) (i j : nat) (v : R) :
  iadd2 (tab m n f) (Z.of_nat i) (Z.of_nat j) v =
  if decide ((i < m)%nat /\ (j < n)%nat)
  then Ok (tab m n (fun s a => f s a + bonus_at i j v s a))
  else Raise IndexError.
Proof.
  destruct (decide ((i < m)%nat /\ (j < n)%nat)) as [[Hi Hj] | Hno].
  - destruct (iadd2_tab m n f (Z.of_nat i) (Z.of_nat j) v)
      as [(i' & j' & Hi' & Hj' & _ & _ & ->) | [[H | H] _]].
    + rewrite norm_index_nat in Hi', Hj' by assumption.
      injection Hi' as <-. injection Hj' as <-. f_equal. apply tab_ext.
      intros s a _ _. unfold upd, bonus_at.
      destruct (decide (s = i)) as [->|]; [destruct (decide (a = j)) as [->|]|].
      * by rewrite decide_True.
      * rewrite decide_False by (intros [_ ?]; congruence). lra.
      * rewrite decide_False by (intros [? _]; congruence). lra.
    + by rewrite norm_index_nat in H.
    + by rewrite norm_index_nat in H.
  - unfold iadd2. rewrite tab_length.
    destruct (decide (i < m)%nat) as [Hi | Hi].
    + rewrite norm_index_nat by assumption. simpl.
      rewrite getitem_nat_tab by assumption. simpl.
      rewrite length_map, length_seq, norm_index_out by lia. done.
    + by rewrite norm_index_out by lia.
Qed.

(** The two NChain statements. *)
Lemma nchain_adjust (m n : nat) (f : nat -> nat -> R) (v : R) :
  (let? a := iadd2 (tab m n f) 0 1 0.1 in iadd2 a 1 1 v) =
  if decide ((2 <= m)%nat /\ (2 <= n)%nat)
  then Ok (tab m n (fun s a => f s a + (bonus_at 0 1 0.1 s a + bonus_at 1 1 v s a)))
  else Raise IndexError.
Proof.
  pose proof (iadd2_nat m n f 0 1 0.1) as H1. change (Z.of_nat 0) with 0%Z in H1. change (Z.of_nat 1) with 1%Z in H1. rewrite H1.
  destruct (decide ((0 < m)%nat /\ (1 < n)%nat)) as [[Hm Hn] | Hno]; simpl.
  - pose proof (iadd2_nat m n (fun s a => f s a + bonus_at 0 1 0.1 s a) 1 1 v) as H2.
    change (Z.of_nat 1) with 1%Z in H2. rewrite H2.
    destruct (decide ((1 < m)%nat /\ (1 < n)%nat)) as [[Hm' _] | Hno].
    + rewrite decide_True by lia. f_equal. apply tab_ext. intros s a _ _. lra.
    + by rewrite decide_False by lia.
  - by rewrite decide_False by lia.
Qed.

(** [for s in range(lo, lo + k): t[s][0] += v] *)
Lemma bonus_loop (m n : nat) (f : nat -> nat -> R) (lo k : nat) (v : R) :
  (lo + k <= m)%nat -> (0 < n)%nat ->
  for_in (seq lo k) (fun s a => assign (iadd2 a (Z.of_nat s) 0 v) a) (tab m n f) =
  Done (tab m n (fun s a =>
          f s a + if decide ((lo <= s < lo + k)%nat /\ a = O) then v else 0)).
Proof.
  intros Hk Hn. induction k as [|k IH].
  - simpl. f_equal. apply tab_ext. intros s a _ _.
    rewrite decide_False by lia. lra.
  - rewrite seq_S, for_in_app, IH by lia. cbn [for_in next].
    pose proof (iadd2_nat m n
      (fun s a => f s a + if decide ((lo <= s < lo + k)%nat /\ a = O) then v else 0)
      (lo + k) 0 v) as H.
    change (Z.of_nat 0) with 0%Z in H. rewrite H.
    rewrite decide_True by lia. cbn [assign next]. f_equal. apply tab_ext.
    intros s a _ _. unfold bonus_at.
    destruct (decide (s = (lo + k)%nat /\ a = O)) as [[-> ->] | Hne].
    + rewrite decide_False by lia. rewrite decide_True by lia. lra.
    + destruct (decide ((lo <= s < lo + k)%nat /\ a = O)) as [Hin | Hout].
      * rewrite decide_True by lia. lra.
      * rewrite decide_False by lia. lra.
Qed.

(** The Taxi loop on a table that is too small. *)
Lemma taxi_loop_raises (m n : nat) (f : nat -> nat -> R) :
  ~ ((500 <= m)%nat /\ (1 <= n)%nat) ->
  exists st, for_range2 400 500
               (fun s a => assign (iadd2 a (Z.of_nat s) 0 2) a) (tab m n f) =
             Raised IndexError st.
Proof.
  intros Hno. unfold for_range2.
  apply (for_in_must_raise (fun t => exists f', t = tab m n f') IndexError _ _ _
           (if decide (m < 500)%nat then Nat.max 400 m else 400%nat)).
  - intros s t _ (f' & ->).
    destruct (iadd2_cases m n f' (Z.of_nat s) 0 2) as [(f3 & ->) | ->]; simpl; eauto.
  - apply elem_of_seq. destruct (decide (m < 500)%nat); lia.
  - intros t (f' & ->).
    pose proof (iadd2_nat m n f'
                  (if decide (m < 500)%nat then Nat.max 400 m else 400%nat) 0 2) as H.
    change (Z.of_nat 0) with 0%Z in H. rewrite H.
    rewrite decide_False; [done|]. destruct (decide (m < 500)%nat); lia.
  - eauto.
Qed.

Lemma KL_adjust_closed (m n : nat) (f : nat -> nat -> R) (env_name : string) :
  (nchain_room env_name m n /\ taxi_room env_name m n ->
   DRPolicyKL.adjust env_name (tab m n f) =
   Ok (tab m n (fun s a => f s a + nchain_bonus 0.3 env_name s a +
                           taxi_bonus env_name s a))) /\
  (~ (nchain_room env_name m n /\ taxi_room env_name m n) ->
   DRPolicyKL.adjust env_name (tab m n f) = Raise IndexError).
Proof.
  unfold DRPolicyKL.adjust, nchain_room, taxi_room, nchain_bonus, taxi_bonus.
  destruct (String.eqb env_name "NChain-v0") eqn:HN.
  - rewrite nchain_adjust.
    destruct (decide ((2 <= m)%nat /\ (2 <= n)%nat)) as [Hroom | Hno]; simpl.
    + destruct (String.eqb env_name "Taxi-v3") eqn:HT.
      * apply String.eqb_eq in HN, HT. congruence.
      * split; [|intros H; exfalso; apply H; by split].
        intros _. f_equal. apply tab_ext. intros s a _ _. lra.
    + split; [|done]. intros [H _]. exfalso. apply Hno. by apply H.
  - simpl. destruct (String.eqb env_name "Taxi-v3") eqn:HT.
    + destruct (decide ((500 <= m)%nat /\ (1 <= n)%nat)) as [[Hm Hn] | Hno].
      * split; [|intros H; exfalso; apply H; split; [done | by intros _]].
        intros _. unfold for_range2.
        rewrite (bonus_loop m n _ 400 (500 - 400) 2) by lia.
        f_equal. apply tab_ext. intros s a _ _.
        destruct (decide ((400 <= s < 500)%nat /\ a = O)) as [Hin | Hout].
        -- rewrite decide_True by lia. lra.
        -- rewrite decide_False by lia. lra.
      * split; [intros [_ H]; exfalso; apply Hno; by apply H|].
        intros _. destruct (taxi_loop_raises m n f Hno) as (st & ->). done.
    + split; [|intros H; exfalso; apply H; by split].
      intros _. f_equal. apply tab_ext. intros s a _ _. lra.
Qed.

Lemma nchain_adjust_closed (m n : nat) (f : nat -> nat -> R) (env_name : string)
    (v : R) :
  let r := if String.eqb env_name "NChain-v0"
           then let? a := iadd2 (tab m n f) 0 1 0.1 in iadd2 a 1 1 v
           else Ok (tab m n f) in
  (nchain_room env_name m n ->
   r = Ok (tab m n (fun s a => f s a + nchain_bonus v env_name s a))) /\
  (~ nchain_room env_name m n -> r = Raise IndexError).
Proof.
  unfold nchain_room, nchain_bonus.
  destruct (String.eqb env_name "NChain-v0") eqn:HN; cbv zeta.
  - rewrite nchain_adjust.
    destruct (decide ((2 <= m)%nat /\ (2 <= n)%nat)) as [Hroom | Hno].
    + split; [done|]. intros H. exfalso. by apply H.
    + split; [|done]. intros H. exfalso. by apply Hno, H.
  - split; [|intros H; exfalso; by apply H].
    intros _. f_equal. apply tab_ext. intros s a _ _. lra.
Qed.

(** A table [aggregate] returns is one of [m] rows and [n] columns. *)
Lemma aggregate_tab (m n : nat) observes actions advantages (agg : table) :
  aggregate m n observes actions advantages = Ok agg -> agg = tab m n (cell agg).
Proof.
  intros H. destruct (aggregate_cases m n observes actions advantages)
    as [(f & Hf) | Hf]; rewrite Hf in H; [|discriminate].
  injection H as <-. apply shaped_tab, tab_shaped.
Qed.

(** X9 — The bonuses of [DRPolicyKL.update] (lines 62-68).  On top of the
    averaged advantages, 'NChain-v0' adds 0.1 to cell (0,1) and 0.3 to cell
    (1,1), and 'Taxi-v3' adds 2 to column 0 of the states 400..499; no other
    name changes the table.  The NChain statements need 2 states and 2
    actions, the Taxi loop 500 states and 1 action: on a smaller policy the
    update raises [IndexError] whatever the batch, with the policy table as
    it was. *)
Theorem KL_bonuses :
  forall (self : DRPolicyKL.t) observes actions advantages env_name,
    let m := DRPolicyKL.sta_num self in
    let n := DRPolicyKL.act_num self in
    (forall agg,
       aggregate m n observes actions advantages = Ok agg ->
       nchain_room env_name m n /\ taxi_room env_name m n ->
       DRPolicyKL.advantage_table self observes actions advantages env_name =
       Ok (tab m n (fun s a => cell agg s a + nchain_bonus 0.3 env_name s a +
                               taxi_bonus env_name s a))) /\
    (~ (nchain_room env_name m n /\ taxi_room env_name m n) ->
     forall h disc_freqs eps,
       DRPolicyKL.update self h observes actions advantages disc_freqs env_name
         eps = Raised IndexError h).
Proof.
  intros self observes actions advantages env_name m n. split.
  - intros agg Hagg Hroom. unfold DRPolicyKL.advantage_table. fold m n.
    rewrite Hagg. simpl. rewrite (aggregate_tab _ _ _ _ _ _ Hagg) at 1.
    by apply KL_adjust_closed.
  - intros Hno h disc_freqs eps. unfold DRPolicyKL.update,
      DRPolicyKL.advantage_table. fold m n.
    destruct (aggregate_cases m n observes actions advantages)
      as [(f & ->) | ->]; simpl; [|done].
    by rewrite (proj2 (KL_adjust_closed m n f env_name) Hno).
Qed.

Lemma KL_bonuses_witness :
  (let self := (DRPolicyKL.init 500 1 ∅).1 in
   DRPolicyKL.advantage_table self [] [] [] "Taxi-v3" =
   Ok (tab (DRPolicyKL.sta_num self) (DRPolicyKL.act_num self)
         (fun s a => cell (tab 500 1 (fun _ _ => 0)) s a +
                     nchain_bonus 0.3 "Taxi-v3" s a + taxi_bonus "Taxi-v3" s a))) /\
  (let self := (DRPolicyKL.init 499 1 ∅).1 in
   let h := (DRPolicyKL.init 499 1 ∅).2 in
   DRPolicyKL.update self h [] [] [] [] "Taxi-v3" 1 = Raised IndexError h).
Proof.
  split.
  - intros self.
    apply (proj1 (KL_bonuses self [] [] [] "Taxi-v3") (tab 500 1 (fun _ _ => 0))).
    + exact (aggregate_nil 500 1).
    + split; intros H; [discriminate H|].
      change (DRPolicyKL.sta_num self) with 500%nat.
      change (DRPolicyKL.act_num self) with 1%nat. lia.
  - intros self h.
    apply (proj2 (KL_bonuses self [] [] [] "Taxi-v3")).
    intros [_ H]. specialize (H eq_refl).
    change (DRPolicyKL.sta_num self) with 499%nat in H. lia.
Defined.

(** X10 — The bonuses of [DRPolicySinkhorn.update] (lines 143-145) and
    [DRPolicyWass.update] (lines 250-252): 'NChain-v0' adds 0.1 to cell
    (0,1) and 0.3 (Sinkhorn) or 0.1 (Wass) to cell (1,1); 'Taxi-v3' adds
    nothing in these two classes.  With fewer than 2 states or 2 actions the
    NChain update raises [IndexError] before the object or its table is
    touched. *)
Theorem NChain_bonuses :
  forall (m n : nat) observes actions advantages env_name,
    (forall (self : DRPolicySinkhorn.t) agg,
       DRPolicySinkhorn.sta_num self = m -> DRPolicySinkhorn.act_num self = n ->
       aggregate m n observes actions advantages = Ok agg ->
       nchain_room env_name m n ->
       DRPolicySinkhorn.advantage_table self observes actions advantages env_name =
       Ok (tab m n (fun s a => cell agg s a + nchain_bonus 0.3 env_name s a))) /\
    (forall (self : DRPolicyWass.t) agg,
       DRPolicyWass.sta_num self = m -> DRPolicyWass.act_num self = n ->
       aggregate m n observes actions advantages = Ok agg ->
       nchain_room env_name m n ->
       DRPolicyWass.advantage_table self observes actions advantages env_name =
       Ok (tab m n (fun s a => cell agg s a + nchain_bonus 0.1 env_name s a))) /\
    (~ nchain_room env_name m n ->
     (forall (self : DRPolicySinkhorn.t) h disc_freqs eps,
        DRPolicySinkhorn.sta_num self = m -> DRPolicySinkhorn.act_num self = n ->
        DRPolicySinkhorn.update self h observes actions advantages disc_freqs
          env_name eps = Raised IndexError (self, h)) /\
     (forall (self : DRPolicyWass.t) h disc_freqs eps rnd,
        DRPolicyWass.sta_num self = m -> DRPolicyWass.act_num self = n ->
        DRPolicyWass.update self h observes actions advantages disc_freqs
          env_name eps rnd = Raised IndexError (self, h))).
Proof.
  intros m n observes actions advantages env_name. split; [|split; [|split]].
  - intros self agg <- <- Hagg Hroom. unfold DRPolicySinkhorn.advantage_table.
    rewrite Hagg. simpl. rewrite (aggregate_tab _ _ _ _ _ _ Hagg) at 1.
    by apply (nchain_adjust_closed _ _ _ env_name 0.3).
  - intros self agg <- <- Hagg Hroom. unfold DRPolicyWass.advantage_table.
    rewrite Hagg. simpl. rewrite (aggregate_tab _ _ _ _ _ _ Hagg) at 1.
    by apply (nchain_adjust_closed _ _ _ env_name 0.1).
  - intros self h disc_freqs eps <- <-.
    unfold DRPolicySinkhorn.update, DRPolicySinkhorn.advantage_table.
    destruct (aggregate_cases (DRPolicySinkhorn.sta_num self)
                (DRPolicySinkhorn.act_num self) observes actions advantages)
      as [(f & ->) | ->]; simpl; [|done].
    unfold DRPolicySinkhorn.adjust.
    by rewrite (proj2 (nchain_adjust_closed _ _ f env_name 0.3) H).
  - intros self h disc_freqs eps rnd <- <-.
    unfold DRPolicyWass.update, DRPolicyWass.advantage_table.
    destruct (aggregate_cases (DRPolicyWass.sta_num self)
                (DRPolicyWass.act_num self) observes actions advantages)
      as [(f & ->) | ->]; simpl; [|done].
    unfold DRPolicyWass.adjust.
    by rewrite (proj2 (nchain_adjust_closed _ _ f env_name 0.1) H).
Qed.

Lemma NChain_bonuses_witness :
  DRPolicySinkhorn.advantage_table (DRPolicySinkhorn.init 2 2 ∅).1 [] [] []
    "NChain-v0" =
  Ok (tab 2 2 (fun s a => cell (tab 2 2 (fun _ _ => 0)) s a +
                          nchain_bonus 0.3 "NChain-v0" s a)) /\
  DRPolicyWass.update (DRPolicyWass.init 1 2 ∅).1 (DRPolicyWass.init 1 2 ∅).2
    [] [] [] [] "NChain-v0" 1 0 =
  Raised IndexError ((DRPolicyWass.init 1 2 ∅).1, (DRPolicyWass.init 1 2 ∅).2).
Proof.
  split.
  - apply (proj1 (NChain_bonuses 2 2 [] [] [] "NChain-v0")
             (DRPolicySinkhorn.init 2 2 ∅).1 (tab 2 2 (fun _ _ => 0))
             eq_refl eq_refl (aggregate_nil 2 2)).
    intros _. lia.
  - assert (~ nchain_room "NChain-v0" 1 2) as Hno
      by (intros H; specialize (H eq_refl); lia).
    apply (proj2 (proj2 (proj2 (NChain_bonuses 1 2 [] [] [] "NChain-v0")) Hno));
      reflexivity.
Defined.

(** ** DRPolicySinkhorn.update *)

(** A completed update in cells. *)
Lemma Sinkhorn_update_rows (self self' : DRPolicySinkhorn.t) (h h' : heap)
    observes actions advantages disc_freqs env_name eps (s : nat) :
  let p := DRPolicySinkhorn.distributions self in
  let m := DRPolicySinkhorn.sta_num self in
  let n := DRPolicySinkhorn.act_num self in
  table_at h p m n ->
  DRPolicySinkhorn.update self h observes actions advantages disc_freqs env_name
    eps = Done (self', h') ->
  pmf (row_of (load h p) s) ->
  exists fa fo b self1,
    DRPolicySinkhorn.advantage_table self observes actions advantages env_name =
      Ok (tab m n fa) /\
    h !! p = Some (tab m n fo) /\
    DRPolicySinkhorn.configure self env_name eps = (Some b, self1) /\
    self' = DRPolicySinkhorn.set_distributions self1 (fresh (dom h)) /\
    h' = <[fresh (dom h) :=
             tab m n (sinkhorn_new n (DRPolicySinkhorn.lamb self1) b fa fo)]> h /\
    (s < m)%nat /\ (0 < n)%nat /\
    (forall a, (a < n)%nat -> 0 <= fo s a) /\ sum_upto n (fo s) = 1.
Proof.
  intros p m n Hwf%table_at_tab Hup Hpmf.
  rewrite (load_Some _ _ _ Hwf) in Hpmf.
  apply row_of_pmf in Hpmf as (Hs & Hn & Hpos & Hsum).
  destruct (Sinkhorn_update_done _ _ _ _ _ _ _ _ _ _ _ Hwf ltac:(lia) Hn Hup)
    as (fa & b & self1 & Hfa & Hc & -> & ->).
  exists fa, (cell (load h p)), b, self1. done.
Qed.

(** What [configure] leaves in [self.lamb]. *)
Lemma Sinkhorn_configure_lamb (self : DRPolicySinkhorn.t) env_name eps :
  let self1 := (DRPolicySinkhorn.configure self env_name eps).2 in
  DRPolicySinkhorn.lamb self1 =
    (if String.eqb env_name "Taxi-v3"
     then if decide (eps ^ 2 >= 6) then 5.5 else eps ^ 2
     else DRPolicySinkhorn.lamb self) /\
  DRPolicySinkhorn.delta self1 = DRPolicySinkhorn.delta self.
Proof.
  unfold DRPolicySinkhorn.configure. cbv zeta.
  destruct (String.eqb env_name "Taxi-v3").
  - by destruct (decide (eps ^ 2 >= 6)).
  - by destruct (String.eqb env_name "NChain-v0").
Qed.

(** The worked batch under 'Taxi-v3' with a small [eps]. *)
Lemma example_Sinkhorn_run (eps : R) :
  eps ^ 2 < 6 ->
  let self := (DRPolicySinkhorn.init 2 2 ∅).1 in
  let h := (DRPolicySinkhorn.init 2 2 ∅).2 in
  let p := DRPolicySinkhorn.distributions self in
  table_at h p 2 2 /\
  DRPolicySinkhorn.advantage_table self [0; 0; 1; 1]%Z [0; 1; 0; 1]%Z [1; -1; 0; 0]
    "Taxi-v3" = Ok (tab 2 2 example_advantage) /\
  DRPolicySinkhorn.update self h [0; 0; 1; 1]%Z [0; 1; 0; 1]%Z [1; -1; 0; 0] []
    "Taxi-v3" eps =
  Done (DRPolicySinkhorn.set_distributions
          (DRPolicySinkhorn.set_lamb self (eps ^ 2)) (fresh (dom h)),
        <[fresh (dom h) :=
            tab 2 2 (sinkhorn_new 2 (eps ^ 2) 3 example_advantage
                       (fun _ _ => 1 / INR 2))]> h) /\
  pmf (row_of (load h p) 0).
Proof.
  intros Heps self h p. destruct (Sinkhorn_init_table 2 2 ∅) as (Hh & Hm & Hn).
  fold self h p in Hh, Hm, Hn.
  assert (DRPolicySinkhorn.advantage_table self [0; 0; 1; 1]%Z [0; 1; 0; 1]%Z
            [1; -1; 0; 0] "Taxi-v3" = Ok (tab 2 2 example_advantage)) as Hadv.
  { unfold DRPolicySinkhorn.advantage_table. by rewrite Hm, Hn, example_aggregate. }
  assert (DRPolicySinkhorn.configure self "Taxi-v3" eps =
          (Some 3, DRPolicySinkhorn.set_lamb self (eps ^ 2))) as Hc.
  { unfold DRPolicySinkhorn.configure.
    change (String.eqb "Taxi-v3" "Taxi-v3") with true. cbv iota.
    destruct (decide (eps ^ 2 >= 6)); [exfalso; lra | reflexivity]. }
  split; [by eapply table_at_intro|]. split; [exact Hadv|]. split.
  - exact (Sinkhorn_update_total self _ h 2 2 _ _ 3 _ _ _ [] "Taxi-v3" eps
             Hm Hn Hh Hadv Hc).
  - rewrite (load_Some _ _ _ Hh), row_of_tab by lia. apply (uniform_row_pmf 2). lia.
Qed.





(** X13 — What [DRPolicySinkhorn.update] does to the object (lines 151-171):
    'Taxi-v3' overwrites [self.lamb] with [eps**2], or with 5.5 when that is
    6 or more, so afterwards [0 <= self.lamb < 6]; any other name leaves
    [self.lamb] as it was, so an 'NChain-v0' update runs with the value the
    last 'Taxi-v3' update stored.  The sizes and [delta] never change.  This
    holds for whatever state the update ends in, completed or not, once the
    advantage table is built. *)
Theorem Sinkhorn_update_fields :
  forall (self : DRPolicySinkhorn.t) (h : heap) observes actions advantages
         disc_freqs env_name eps (adv : table),
    DRPolicySinkhorn.advantage_table self observes actions advantages env_name =
      Ok adv ->
    let self' := (final (DRPolicySinkhorn.update self h observes actions advantages
                           disc_freqs env_name eps)).1 in
    DRPolicySinkhorn.sta_num self' = DRPolicySinkhorn.sta_num self /\
    DRPolicySinkhorn.act_num self' = DRPolicySinkhorn.act_num self /\
    DRPolicySinkhorn.delta self' = DRPolicySinkhorn.delta self /\
    DRPolicySinkhorn.lamb self' =
      (if String.eqb env_name "Taxi-v3"
       then if decide (eps ^ 2 >= 6) then 5.5 else eps ^ 2
       else DRPolicySinkhorn.lamb self) /\
    (String.eqb env_name "Taxi-v3" = true -> 0 <= DRPolicySinkhorn.lamb self' < 6).
Proof.
  intros self h observes actions advantages disc_freqs env_name eps adv Hadv self'.
  assert (exists l, self' = DRPolicySinkhorn.set_distributions
                              (DRPolicySinkhorn.configure self env_name eps).2 l)
    as (l & Hself').
  { subst self'. unfold DRPolicySinkhorn.update. rewrite Hadv.
    destruct (DRPolicySinkhorn.configure self env_name eps) as [beta self1].
    simpl. destruct (for_range _ _ _); simpl; eauto. }
  destruct (DRPolicySinkhorn.configure self env_name eps) as [beta self1] eqn:Hc.
  destruct (Sinkhorn_configure_fields _ _ _ _ _ Hc) as (Hm & Hn & _).
  destruct (Sinkhorn_configure_lamb self env_name eps) as (Hl & Hd).
  rewrite Hc in Hl, Hd. cbn [snd] in Hl, Hd, Hself'. rewrite Hself'.
  unfold DRPolicySinkhorn.set_distributions.
  cbn [DRPolicySinkhorn.sta_num DRPolicySinkhorn.act_num DRPolicySinkhorn.delta
       DRPolicySinkhorn.lamb].
  split; [assumption|]. split; [assumption|]. split; [assumption|].
  split; [assumption|]. intros HT. rewrite Hl, HT.
  destruct (decide (eps ^ 2 >= 6)); [lra|].
  pose proof (pow2_ge_0 eps). lra.
Qed.

Lemma Sinkhorn_update_fields_witness :
  let self := (DRPolicySinkhorn.init 2 2 ∅).1 in
  let h := (DRPolicySinkhorn.init 2 2 ∅).2 in
  let self' := (final (DRPolicySinkhorn.update self h [0; 0; 1; 1]%Z
                         [0; 1; 0; 1]%Z [1; -1; 0; 0] [] "Taxi-v3" 3)).1 in
  DRPolicySinkhorn.sta_num self' = DRPolicySinkhorn.sta_num self /\
  DRPolicySinkhorn.act_num self' = DRPolicySinkhorn.act_num self /\
  DRPolicySinkhorn.delta self' = DRPolicySinkhorn.delta self /\
  DRPolicySinkhorn.lamb self' =
    (if String.eqb "Taxi-v3" "Taxi-v3"
     then if decide (3 ^ 2 >= 6) then 5.5 else 3 ^ 2
     else DRPolicySinkhorn.lamb self) /\
  (String.eqb "Taxi-v3" "Taxi-v3" = true -> 0 <= DRPolicySinkhorn.lamb self' < 6).
Proof.
  intros self h.
  destruct (example_Sinkhorn_run 1 ltac:(lra)) as (_ & Hadv & _).
  exact (Sinkhorn_update_fields self h _ _ _ [] "Taxi-v3" 3 _ Hadv).
Defined.

Lemma sinkhorn_new_lam_0 (n : nat) (b : R) (fa fo : nat -> nat -> R) (s i : nat) :
  (0 < n)%nat -> sinkhorn_new n 0 b fa fo s i = sum_upto n (fo s) / INR n.
Proof.
  intros Hn. unfold sinkhorn_new, sinkhorn_share.
  assert (forall i j, sinkhorn_score 0 b fa s i j = 1) as Hone.
  { intros i' j. unfold sinkhorn_score.
    replace (0 / b * fa s i' - 0 * DRPolicySinkhorn.calc_d i' j) with 0
      by (unfold Rdiv; ring).
    apply exp_0. }
  rewrite (sum_upto_ext _ _ (fun j => fo s j / INR n)).
  - apply sum_upto_div.
  - intros j _. rewrite Hone.
    rewrite (sum_upto_ext n (fun k => sinkhorn_score 0 b fa s k j) (fun _ => 1))
      by (intros k _; apply Hone).
    rewrite sum_upto_const. assert (0 < INR n) by (by apply lt_0_INR).
    field. lra.
Qed.

(** X14 — With [self.lamb = 0] after lines 151-166 (a 'Taxi-v3' update with
    [eps = 0], or an 'NChain-v0' update of an object whose [lamb] is 0) the
    advantages and the old probabilities are forgotten: every row that was
    a probability vector becomes the uniform row [1/act_num]. *)
Theorem Sinkhorn_lamb_zero_uniform :
  forall (self self' : DRPolicySinkhorn.t) (h h' : heap) observes actions
         advantages disc_freqs env_name eps (s i : nat),
    let p := DRPolicySinkhorn.get_policy self in
    table_at h p (DRPolicySinkhorn.sta_num self) (DRPolicySinkhorn.act_num self) ->
    DRPolicySinkhorn.update self h observes actions advantages disc_freqs env_name
      eps = Done (self', h') ->
    DRPolicySinkhorn.lamb self' = 0 ->
    pmf (row_of (load h p) s) -> (i < DRPolicySinkhorn.act_num self)%nat ->
    cell (load h' (DRPolicySinkhorn.get_policy self')) s i =
    1 / INR (DRPolicySinkhorn.act_num self).
Proof.
  intros self self' h h' observes actions advantages disc_freqs env_name eps
    s i p Hwf Hup Hlam Hpmf Hi.
  subst p. unfold DRPolicySinkhorn.get_policy in *.
  destruct (Sinkhorn_update_rows _ _ _ _ _ _ _ _ _ _ _ Hwf Hup Hpmf)
    as (fa & fo & b & self1 & Hfa & Hh & Hc & -> & -> & Hs & Hn & Hpos & Hsum).
  simpl in Hlam. simpl. rewrite load_insert, cell_tab by assumption.
  by rewrite Hlam, sinkhorn_new_lam_0, Hsum.
Qed.

Lemma Sinkhorn_lamb_zero_uniform_witness :
  let self := (DRPolicySinkhorn.init 2 2 ∅).1 in
  let h := (DRPolicySinkhorn.init 2 2 ∅).2 in
  let st := final (DRPolicySinkhorn.update self h [0; 0; 1; 1]%Z [0; 1; 0; 1]%Z
                     [1; -1; 0; 0] [] "Taxi-v3" 0) in
  cell (load st.2 (DRPolicySinkhorn.get_policy st.1)) 0 0 =
  1 / INR (DRPolicySinkhorn.act_num self).
Proof.
  intros self h st.
  destruct (example_Sinkhorn_run 0 ltac:(lra)) as (Hwf & Hadv & Hup & Hpmf).
  fold self h in Hwf, Hadv, Hup, Hpmf.
  assert (DRPolicySinkhorn.update self h [0; 0; 1; 1]%Z [0; 1; 0; 1]%Z
            [1; -1; 0; 0] [] "Taxi-v3" 0 = Done st) as Hup'
    by (subst st; by rewrite Hup).
  assert (DRPolicySinkhorn.lamb st.1 = 0) as Hlam.
  { subst st. rewrite Hup. simpl. lra. }
  destruct st as [self' h'].
  exact (Sinkhorn_lamb_zero_uniform self self' h h' _ _ _ _ "Taxi-v3" 0 0 0
           Hwf Hup' Hlam Hpmf ltac:(simpl; lia)).
Defined.

(** ** DRPolicyWass.update *)

(** A completed update in cells. *)
Lemma Wass_update_rows (self self' : DRPolicyWass.t) (h h' : heap)
    observes actions advantages disc_freqs env_name eps rnd (s : nat) :
  let p := DRPolicyWass.distributions self in
  let m := DRPolicyWass.sta_num self in
  let n := DRPolicyWass.act_num self in
  table_at h p m n ->
  DRPolicyWass.update self h observes actions advantages disc_freqs env_name
    eps rnd = Done (self', h') ->
  pmf (row_of (load h p) s) ->
  exists fa fo beta,
    DRPolicyWass.advantage_table self observes actions advantages env_name =
      Ok (tab m n fa) /\
    h !! p = Some (tab m n fo) /\
    DRPolicyWass.choose_beta env_name rnd = Some beta /\
    self' = DRPolicyWass.set_distributions self (fresh (dom h)) /\
    h' = <[fresh (dom h) :=
             tab m n (fun s j => wass_received fo (wass_best n fa beta) s j n)]> h /\
    (s < m)%nat /\ (0 < n)%nat /\
    (forall a, (a < n)%nat -> 0 <= fo s a) /\ sum_upto n (fo s) = 1.
Proof.
  intros p m n Hwf%table_at_tab Hup Hpmf.
  rewrite (load_Some _ _ _ Hwf) in Hpmf.
  apply row_of_pmf in Hpmf as (Hs & Hn & Hpos & Hsum).
  destruct (Wass_update_done _ _ _ _ _ _ _ _ _ _ _ _ Hwf Hup)
    as (fa & beta & Hfa & Hbeta & -> & ->).
  exists fa, (cell (load h p)), beta. done.
Qed.

(** Every radius lines 278-283 can choose is positive. *)
Lemma Wass_choose_beta_pos (env_name : string) (rnd beta : R) :
  DRPolicyWass.choose_beta env_name rnd = Some beta -> 0 <= rnd < 1 -> 0 < beta.
Proof.
  unfold DRPolicyWass.choose_beta. intros H Hrnd.
  destruct (String.eqb env_name "CliffWalking-v0"); [injection H as <-; lra|].
  destruct (String.eqb env_name "NChain-v0"); [injection H as <-; lra|].
  destruct (String.eqb env_name "Taxi-v3"); [injection H as <-; lra|].
  discriminate.
Qed.

(** [best_j[s][i]] is the first maximiser of the value. *)
Lemma wass_best_argmax (n : nat) (fa : nat -> nat -> R) (beta : R) (s i : nat) :
  (0 < n)%nat ->
  let b := wass_best n fa beta s i in
  (b < n)%nat /\
  (forall j, (j < n)%nat -> wass_value fa beta s i j <= wass_value fa beta s i b) /\
  (forall j, (j < b)%nat -> wass_value fa beta s i j < wass_value fa beta s i b).
Proof.
  intros Hn b. subst b. unfold wass_best.
  destruct (scan_upto_spec fa beta s i n) as (Hv & Hlt & Hmax & Hfirst).
  rewrite <- Hv. split; [lia|]. split; assumption.
Qed.

(** The expectation under the row the moves build. *)
Lemma wass_received_expected (n : nat) (fo : nat -> nat -> R)
    (fb : nat -> nat -> nat) (x : nat -> R) (s : nat) :
  (forall i, (i < n)%nat -> (fb s i < n)%nat) ->
  sum_upto n (fun j => wass_received fo fb s j n * x j) =
  sum_upto n (fun i => fo s i * x (fb s i)).
Proof.
  intros Hfb. unfold wass_received.
  rewrite (sum_upto_ext n _
             (fun j => sum_upto n (fun i => if decide (j = fb s i)
                                            then fo s i * x (fb s i) else 0))).
  2: { intros j _. rewrite Rmult_comm, <- sum_upto_scal.
       apply sum_upto_ext. intros i _.
       destruct (decide (j = fb s i)) as [->|]; lra. }
  rewrite sum_upto_swap. apply sum_upto_ext. intros i Hi.
  by rewrite sum_upto_indicator by (by apply Hfb).
Qed.

(** The worked batch under 'CliffWalking-v0', radius 0.5. *)
Lemma example_Wass_run :
  let self := (DRPolicyWass.init 2 2 ∅).1 in
  let h := (DRPolicyWass.init 2 2 ∅).2 in
  let p := DRPolicyWass.distributions self in
  table_at h p 2 2 /\
  DRPolicyWass.advantage_table self [0; 0; 1; 1]%Z [0; 1; 0; 1]%Z [1; -1; 0; 0]
    "CliffWalking-v0" = Ok (tab 2 2 example_advantage) /\
  DRPolicyWass.update self h [0; 0; 1; 1]%Z [0; 1; 0; 1]%Z [1; -1; 0; 0] []
    "CliffWalking-v0" 1 0 =
  Done (DRPolicyWass.set_distributions self (fresh (dom h)),
        <[fresh (dom h) :=
            tab 2 2 (fun s j => wass_received (fun _ _ => 1 / INR 2)
                                  (wass_best 2 example_advantage 0.5) s j 2)]> h) /\
  pmf (row_of (load h p) 0) /\ pmf (row_of (load h p) 1).
Proof.
  intros self h p. destruct (Wass_init_table 2 2 ∅) as (Hh & Hm & Hn).
  fold self h p in Hh, Hm, Hn.
  assert (DRPolicyWass.advantage_table self [0; 0; 1; 1]%Z [0; 1; 0; 1]%Z
            [1; -1; 0; 0] "CliffWalking-v0" = Ok (tab 2 2 example_advantage))
    as Hadv.
  { unfold DRPolicyWass.advantage_table. by rewrite Hm, Hn, example_aggregate. }
  split; [by eapply table_at_intro|]. split; [exact Hadv|]. split; [|split].
  - exact (Wass_update_total self h 2 2 _ _ 0.5 _ _ _ [] "CliffWalking-v0" 1 0
             Hm Hn Hh Hadv eq_refl).
  - rewrite (load_Some _ _ _ Hh), row_of_tab by lia. apply (uniform_row_pmf 2). lia.
  - rewrite (load_Some _ _ _ Hh), row_of_tab by lia. apply (uniform_row_pmf 2). lia.
Qed.

(** X15 — [DRPolicyWass.update] never lowers the expected advantage of a
    row: every source action sends its probability to an action whose
    advantage is at least its own, because the radius chosen in lines
    278-283 is positive for a draw in [0, 1). *)
Theorem Wass_update_improves :
  forall (self self' : DRPolicyWass.t) (h h' : heap) observes actions advantages
         disc_freqs env_name eps rnd (adv : table) (s : nat),
    let p := DRPolicyWass.get_policy self in
    let n := DRPolicyWass.act_num self in
    table_at h p (DRPolicyWass.sta_num self) n ->
    DRPolicyWass.advantage_table self observes actions advantages env_name =
      Ok adv ->
    DRPolicyWass.update self h observes actions advantages disc_freqs env_name
      eps rnd = Done (self', h') ->
    0 <= rnd < 1 ->
    pmf (row_of (load h p) s) ->
    expected n (cell (load h p) s) (cell adv s) <=
    expected n (cell (load h' (DRPolicyWass.get_policy self')) s) (cell adv s).
Proof.
  intros self self' h h' observes actions advantages disc_freqs env_name eps rnd
    adv s p n Hwf Hadv Hup Hrnd Hpmf.
  subst p n. unfold DRPolicyWass.get_policy in *.
  destruct (Wass_update_rows _ _ _ _ _ _ _ _ _ _ _ _ Hwf Hup Hpmf)
    as (fa & fo & beta & Hfa & Hh & Hbeta & -> & -> & Hs & Hn & Hpos & Hsum).
  rewrite Hadv in Hfa. injection Hfa as ->.
  pose proof (Wass_choose_beta_pos _ _ _ Hbeta Hrnd) as Hb.
  simpl. rewrite load_insert, (load_Some _ _ _ Hh). unfold expected.
  set (n := DRPolicyWass.act_num self) in *.
  set (m := DRPolicyWass.sta_num self) in *.
  rewrite (sum_upto_ext n (fun a => cell (tab m n fo) s a * cell (tab m n fa) s a)
             (fun a => fo s a * fa s a))
    by (intros a Ha; by rewrite !cell_tab).
  rewrite (sum_upto_ext n
             (fun a => cell (tab m n (fun s j => wass_received fo
                                        (wass_best n fa beta) s j n)) s a *
                       cell (tab m n fa) s a)
             (fun a => wass_received fo (wass_best n fa beta) s a n * fa s a))
    by (intros a Ha; by rewrite !cell_tab).
  rewrite wass_received_expected by (intros i _; by apply wass_best_lt).
  apply sum_upto_le. intros i Hi.
  apply Rmult_le_compat_l; [by apply Hpos|].
  destruct (wass_best_argmax n fa beta s i Hn) as (_ & Hmax & _).
  specialize (Hmax i Hi). unfold wass_value, DRPolicyWass.calc_d in Hmax.
  rewrite (decide_True (P := i = i)) in Hmax by reflexivity.
  destruct (decide (wass_best n fa beta s i = i)); lra.
Qed.

Lemma Wass_update_improves_witness :
  let self := (DRPolicyWass.init 2 2 ∅).1 in
  let h := (DRPolicyWass.init 2 2 ∅).2 in
  let st := final (DRPolicyWass.update self h [0; 0; 1; 1]%Z [0; 1; 0; 1]%Z
                     [1; -1; 0; 0] [] "CliffWalking-v0" 1 0) in
  let adv := tab 2 2 example_advantage in
  expected 2 (cell (load h (DRPolicyWass.get_policy self)) 0) (cell adv 0) <=
  expected 2 (cell (load st.2 (DRPolicyWass.get_policy st.1)) 0) (cell adv 0).
Proof.
  intros self h st adv.
  destruct example_Wass_run as (Hwf & Hadv & Hup & Hpmf & _).
  fold self h in Hwf, Hadv, Hup, Hpmf.
  assert (DRPolicyWass.update self h [0; 0; 1; 1]%Z [0; 1; 0; 1]%Z
            [1; -1; 0; 0] [] "CliffWalking-v0" 1 0 = Done st) as Hup'
    by (subst st; by rewrite Hup).
  destruct st as [self' h'].
  exact (Wass_update_improves self self' h h' _ _ _ _ "CliffWalking-v0" 1 0 adv 0
           Hwf Hadv Hup' ltac:(lra) Hpmf).
Defined.

(** X16 — The radius is a threshold.  A row whose advantages differ by less
    than [beta] between any two actions is copied unchanged, and a row with
    one action whose advantage exceeds every other by more than [beta]
    collapses onto that action: it gets probability 1 and all others 0, so
    this update, unlike the KL one, can take an action out of the support. *)
Theorem Wass_update_threshold :
  forall (self self' : DRPolicyWass.t) (h h' : heap) observes actions advantages
         disc_freqs env_name eps rnd (adv : table) (beta : R) (s : nat),
    let p := DRPolicyWass.get_policy self in
    let n := DRPolicyWass.act_num self in
    let old := load h p in
    let new := load h' (DRPolicyWass.get_policy self') in
    table_at h p (DRPolicyWass.sta_num self) n ->
    DRPolicyWass.advantage_table self observes actions advantages env_name =
      Ok adv ->
    DRPolicyWass.update self h observes actions advantages disc_freqs env_name
      eps rnd = Done (self', h') ->
    DRPolicyWass.choose_beta env_name rnd = Some beta ->
    0 <= rnd < 1 ->
    pmf (row_of old s) ->
    ((forall i j, (i < n)%nat -> (j < n)%nat -> i <> j ->
        cell adv s j - cell adv s i < beta) ->
     row_of new s = row_of old s) /\
    (forall b, (b < n)%nat ->
       (forall i, (i < n)%nat -> i <> b -> cell adv s b - cell adv s i > beta) ->
       forall i, (i < n)%nat -> cell new s i = if decide (i = b) then 1 else 0).
Proof.
  intros self self' h h' observes actions advantages disc_freqs env_name eps rnd
    adv beta s p n old new Hwf Hadv Hup Hbeta Hrnd Hpmf.
  subst p old new n. unfold DRPolicyWass.get_policy in *.
  destruct (Wass_update_rows _ _ _ _ _ _ _ _ _ _ _ _ Hwf Hup Hpmf)
    as (fa & fo & beta' & Hfa & Hh & Hbeta' & -> & -> & Hs & Hn & Hpos & Hsum).
  rewrite Hadv in Hfa. injection Hfa as ->.
  rewrite Hbeta in Hbeta'. injection Hbeta' as <-.
  pose proof (Wass_choose_beta_pos _ _ _ Hbeta Hrnd) as Hb.
  simpl. rewrite load_insert, (load_Some _ _ _ Hh).
  set (m := DRPolicyWass.sta_num self) in *.
  set (n := DRPolicyWass.act_num self) in *.
  split.
  - intros Hsmall. rewrite !row_of_tab by assumption. apply map_seq_eq.
    intros j Hj. unfold wass_received.
    rewrite (sum_upto_ext n _ (fun i => if decide (i = j) then fo s j else 0)).
    + by apply sum_upto_indicator.
    + intros i Hi.
      assert (wass_best n fa beta s i = i) as Hbest.
      { destruct (wass_best_argmax n fa beta s i Hn) as (Hlt & Hmax & _).
        destruct (decide (wass_best n fa beta s i = i)) as [|Hne]; [done|].
        exfalso. specialize (Hmax i Hi).
        specialize (Hsmall i _ Hi Hlt ltac:(congruence)).
        rewrite !cell_tab in Hsmall by assumption.
        unfold wass_value, DRPolicyWass.calc_d in Hmax.
        rewrite (decide_True (P := i = i)) in Hmax by reflexivity.
        rewrite decide_False in Hmax by assumption. lra. }
      rewrite Hbest. destruct (decide (j = i)) as [->|Hne].
      * by rewrite decide_True.
      * by rewrite decide_False by congruence.
  - intros b Hlt Hdom i Hi. rewrite cell_tab by assumption.
    assert (forall i', (i' < n)%nat -> wass_best n fa beta s i' = b) as Hbest.
    { intros i' Hi'.
      destruct (wass_best_argmax n fa beta s i' Hn) as (Hlt' & Hmax & _).
      destruct (decide (wass_best n fa beta s i' = b)) as [|Hne]; [done|].
      exfalso. specialize (Hmax b Hlt).
      specialize (Hdom _ Hlt' Hne). rewrite !cell_tab in Hdom by assumption.
      unfold wass_value, DRPolicyWass.calc_d in Hmax.
      destruct (decide (b = i')); destruct (decide (wass_best n fa beta s i' = i'));
        lra. }
    unfold wass_received.
    rewrite (sum_upto_ext n _ (fun i' => (if decide (i = b) then 1 else 0) * fo s i')).
    + rewrite sum_upto_scal, Hsum. lra.
    + intros i' Hi'. rewrite Hbest by assumption.
      destruct (decide (i = b)); lra.
Qed.

Lemma Wass_update_threshold_witness :
  let self := (DRPolicyWass.init 2 2 ∅).1 in
  let h := (DRPolicyWass.init 2 2 ∅).2 in
  let st := final (DRPolicyWass.update self h [0; 0; 1; 1]%Z [0; 1; 0; 1]%Z
                     [1; -1; 0; 0] [] "CliffWalking-v0" 1 0) in
  let old := load h (DRPolicyWass.get_policy self) in
  let new := load st.2 (DRPolicyWass.get_policy st.1) in
  row_of new 1 = row_of old 1 /\ cell new 0 0 = 1 /\ cell new 0 1 = 0.
Proof.
  intros self h st old new.
  destruct example_Wass_run as (Hwf & Hadv & Hup & Hpmf0 & Hpmf1).
  fold self h in Hwf, Hadv, Hup, Hpmf0, Hpmf1.
  assert (DRPolicyWass.update self h [0; 0; 1; 1]%Z [0; 1; 0; 1]%Z
            [1; -1; 0; 0] [] "CliffWalking-v0" 1 0 = Done st) as Hup'
    by (subst st; by rewrite Hup).
  subst new. destruct st as [self' h'].
  assert (0 <= 0 < 1) as Hrnd by lra.
  split; [|split].
  - apply (proj1 (Wass_update_threshold self self' h h' _ _ _ _ "CliffWalking-v0"
                    1 0 _ 0.5 1 Hwf Hadv Hup' eq_refl Hrnd Hpmf1)).
    intros i j Hi Hj _. rewrite !cell_tab by (assumption || lia).
    unfold example_advantage. lra.
  - apply (proj2 (Wass_update_threshold self self' h h' _ _ _ _ "CliffWalking-v0"
                    1 0 _ 0.5 0 Hwf Hadv Hup' eq_refl Hrnd Hpmf0) 0%nat
             ltac:(simpl; lia)); [|simpl; lia].
    intros i Hi Hne. rewrite !cell_tab by (assumption || simpl; lia).
    change (DRPolicyWass.act_num self) with 2%nat in Hi.
    destruct i as [|[|i]]; [done | | lia]. unfold example_advantage. lra.
  - apply (proj2 (Wass_update_threshold self self' h h' _ _ _ _ "CliffWalking-v0"
                    1 0 _ 0.5 0 Hwf Hadv Hup' eq_refl Hrnd Hpmf0) 0%nat
             ltac:(simpl; lia)); [|simpl; lia].
    intros i Hi Hne. rewrite !cell_tab by (assumption || simpl; lia).
    change (DRPolicyWass.act_num self) with 2%nat in Hi.
    destruct i as [|[|i]]; [done | | lia]. unfold example_advantage. lra.
Defined.

(** ** When [update] completes *)

Lemma accumulate_ok (m n : nat) observes actions advantages i st o a v :
  tabs m n st ->
  observes !! i = Some o -> actions !! i = Some a -> advantages !! i = Some v ->
  (- Z.of_nat m <= o < Z.of_nat m)%Z -> (- Z.of_nat n <= a < Z.of_nat n)%Z ->
  exists st', accumulate observes actions advantages i st = Done st' /\ tabs m n st'.
Proof.
  intros Hst Ho Ha Hv Hro Hra.
  destruct (accumulate_cases m n observes actions advantages i st Hst)
    as [? | Hr]; [assumption|].
  exfalso. destruct Hst as (f & g & ->). revert Hr.
  unfold accumulate, getitem_nat. rewrite Ho, Ha, Hv. simpl.
  destruct (iadd2_tab m n f o a v) as [(i1 & j1 & _ & _ & _ & _ & ->) | [[H | H] _]].
  - simpl.
    destruct (iadd2_tab m n g o a 1) as [(i2 & j2 & _ & _ & _ & _ & ->) | [[H | H] _]];
      [discriminate | |].
    + unfold norm_index in H. repeat case_decide; (discriminate || lia).
    + unfold norm_index in H. repeat case_decide; (discriminate || lia).
  - unfold norm_index in H. repeat case_decide; (discriminate || lia).
  - unfold norm_index in H. repeat case_decide; (discriminate || lia).
Qed.

(** A sample that is not there, or that points outside the table, stops the
    loop of lines 54-56. *)
Lemma accumulate_rejects (m n : nat) observes actions advantages i st :
  tabs m n st ->
  ~ (exists o a v,
       observes !! i = Some o /\ actions !! i = Some a /\
       advantages !! i = Some v /\
       (- Z.of_nat m <= o < Z.of_nat m)%Z /\ (- Z.of_nat n <= a < Z.of_nat n)%Z) ->
  accumulate observes actions advantages i st = Raised IndexError st.
Proof.
  intros Hst Hno.
  destruct (accumulate_cases m n observes actions advantages i st Hst)
    as [(st' & Hdone & _) | Hr]; [|assumption].
  exfalso. apply Hno. destruct Hst as (f & g & ->). revert Hdone.
  unfold accumulate, getitem_nat.
  destruct (observes !! i) as [o|]; [|discriminate].
  destruct (actions !! i) as [a|]; [|discriminate].
  destruct (advantages !! i) as [v|]; [|discriminate]. simpl.
  destruct (iadd2_tab m n f o a v) as [(i1 & j1 & Hi & Hj & _ & _ & ->) | [_ ->]];
    [|discriminate].
  intros _. exists o, a, v. repeat split; try reflexivity.
  - unfold norm_index in Hi. repeat case_decide; (discriminate || lia).
  - unfold norm_index in Hi. repeat case_decide; (discriminate || lia).
  - unfold norm_index in Hj. repeat case_decide; (discriminate || lia).
  - unfold norm_index in Hj. repeat case_decide; (discriminate || lia).
Qed.

Lemma aggregate_accepted (m n : nat) observes actions advantages :
  (accepted m n observes actions advantages ->
   exists f, aggregate m n observes actions advantages = Ok (tab m n f)) /\
  (~ accepted m n observes actions advantages ->
   aggregate m n observes actions advantages = Raise IndexError) /\
  (forall t, aggregate m n observes actions advantages = Ok t ->
             accepted m n observes actions advantages).
Proof.
  assert (forall t, aggregate m n observes actions advantages = Ok t ->
                    accepted m n observes actions advantages) as Hback.
  { intros t Hok i Hi.
    destruct (observes !! i) as [o|] eqn:Ho.
    2: { apply lookup_ge_None in Ho. lia. }
    assert (forall P : Prop, (~ P -> False) -> Decision P -> P) as Hdn
      by (intros P HP [|]; [done | by exfalso]).
    destruct (actions !! i) as [a|] eqn:Ha; [destruct (advantages !! i) as [v|] eqn:Hv|].
    - destruct (decide ((- Z.of_nat m <= o < Z.of_nat m)%Z /\
                        (- Z.of_nat n <= a < Z.of_nat n)%Z)) as [[? ?] | Hbad].
      + by exists o, a, v.
      + exfalso.
        rewrite (aggregate_raises m n observes actions advantages i Hi) in Hok;
          [discriminate|].
        intros st Hst. apply (accumulate_rejects m n); [assumption|].
        intros (o' & a' & v' & Ho' & Ha' & _ & ? & ?).
        rewrite Ho in Ho'. rewrite Ha in Ha'.
        injection Ho' as <-. injection Ha' as <-. by apply Hbad.
    - exfalso.
      rewrite (aggregate_raises m n observes actions advantages i Hi) in Hok;
        [discriminate|].
      intros st Hst. apply (accumulate_rejects m n); [assumption|].
      intros (o' & a' & v' & _ & _ & Hv' & _). congruence.
    - exfalso.
      rewrite (aggregate_raises m n observes actions advantages i Hi) in Hok;
        [discriminate|].
      intros st Hst. apply (accumulate_rejects m n); [assumption|].
      intros (o' & a' & v' & _ & Ha' & _). congruence. }
  split; [|split; [|exact Hback]].
  - intros Hacc.
    assert (exists st', for_range (length observes)
              (accumulate observes actions advantages)
              (replicate m (np_zeros n), replicate m (np_zeros n)) = Done st' /\
            tabs m n st') as (st1 & H1 & Hst1).
    { apply (for_in_total (tabs m n)); [|apply zeros_tabs].
      intros i st Hi%elem_of_seq Hst.
      destruct (Hacc i ltac:(lia)) as (o & a & v & Ho & Ha & Hv & Hro & Hra).
      by eapply accumulate_ok. }
    unfold aggregate. rewrite H1. simpl.
    destruct (average_loop_tabs m n st1 Hst1) as (st2 & -> & (f & g & ->)).
    by exists f.
  - intros Hno.
    destruct (aggregate_cases m n observes actions advantages) as [(f & Hf) | Hf];
      [|assumption].
    exfalso. by apply Hno, (Hback _ Hf).
Qed.

(** X17 — When [update] completes, for a policy whose table has its
    [sta_num] rows of [act_num] entries.  [DRPolicyKL.update] completes
    exactly when the batch is accepted (every sample below [len(observes)]
    has an action and an advantage and subscripts inside the table) and the
    table has room for the bonuses of [env_name]; it raises for no other
    reason, since [beta] is bound on every path.  [DRPolicyWass.update]
    needs in addition one of its three names, and
    [DRPolicySinkhorn.update] one of its two names unless the policy has no
    state or no action. *)
Theorem update_completes_iff :
  (forall (self : DRPolicyKL.t) (h : heap) observes actions advantages
          disc_freqs env_name eps,
     let m := DRPolicyKL.sta_num self in
     let n := DRPolicyKL.act_num self in
     table_at h (DRPolicyKL.distributions self) m n ->
     (exists h', DRPolicyKL.update self h observes actions advantages disc_freqs
                   env_name eps = Done h') <->
     accepted m n observes actions advantages /\
     nchain_room env_name m n /\ taxi_room env_name m n) /\
  (forall (self : DRPolicySinkhorn.t) (h : heap) observes actions advantages
          disc_freqs env_name eps,
     let m := DRPolicySinkhorn.sta_num self in
     let n := DRPolicySinkhorn.act_num self in
     table_at h (DRPolicySinkhorn.distributions self) m n ->
     (exists st, DRPolicySinkhorn.update self h observes actions advantages
                   disc_freqs env_name eps = Done st) <->
     accepted m n observes actions advantages /\ nchain_room env_name m n /\
     (env_name = "Taxi-v3" \/ env_name = "NChain-v0" \/ m = O \/ n = O)) /\
  (forall (self : DRPolicyWass.t) (h : heap) observes actions advantages
          disc_freqs env_name eps rnd,
     let m := DRPolicyWass.sta_num self in
     let n := DRPolicyWass.act_num self in
     table_at h (DRPolicyWass.distributions self) m n ->
     (exists st, DRPolicyWass.update self h observes actions advantages
                   disc_freqs env_name eps rnd = Done st) <->
     accepted m n observes actions advantages /\ nchain_room env_name m n /\
     (env_name = "Taxi-v3" \/ env_name = "NChain-v0" \/
      env_name = "CliffWalking-v0")).
Proof.
  split; [|split].
  - intros self h observes actions advantages disc_freqs env_name eps m n
      Hwf%table_at_tab.
    destruct (aggregate_accepted m n observes actions advantages)
      as (Hacc & Hrej & Hback).
    split.
    + intros (h' & Hup). unfold DRPolicyKL.update, DRPolicyKL.advantage_table in Hup.
      fold m n in Hup.
      destruct (aggregate_cases m n observes actions advantages)
        as [(f & Hf) | Hf]; rewrite Hf in Hup; simpl in Hup; [|discriminate].
      split; [by eapply Hback|].
      destruct (KL_adjust_closed m n f env_name) as (_ & Hno).
      assert (forall P : Prop, Decision P -> (~ P -> False) -> P) as Hdn
        by (intros P [|] HP; [done | by exfalso]).
      unfold nchain_room, taxi_room in *.
      destruct (String.eqb env_name "NChain-v0") eqn:HN;
        destruct (String.eqb env_name "Taxi-v3") eqn:HT.
      * apply String.eqb_eq in HN, HT. congruence.
      * split; [|intros; discriminate]. intros _. apply Hdn; [apply _|].
        intros Hbad. rewrite Hno in Hup; [discriminate|]. intros [H _]. by apply Hbad, H.
      * split; [intros; discriminate|]. intros _. apply Hdn; [apply _|].
        intros Hbad. rewrite Hno in Hup; [discriminate|]. intros [_ H]. by apply Hbad, H.
      * split; intros; discriminate.
    + intros (Ha & HN & HT). destruct (Hacc Ha) as (fa & Hfa). eexists.
      eapply (KL_update_total self h m n _ _ _ _ _ _ _ _ eq_refl eq_refl Hwf).
      unfold DRPolicyKL.advantage_table. fold m n. rewrite Hfa. simpl.
      by apply KL_adjust_closed.
  - intros self h observes actions advantages disc_freqs env_name eps m n
      Hwf%table_at_tab.
    destruct (aggregate_accepted m n observes actions advantages)
      as (Hacc & Hrej & Hback).
    split.
    + intros (st & Hup).
      unfold DRPolicySinkhorn.update, DRPolicySinkhorn.advantage_table in Hup.
      fold m n in Hup.
      destruct (aggregate_cases m n observes actions advantages)
        as [(f & Hf) | Hf]; rewrite Hf in Hup; simpl in Hup; [|discriminate].
      split; [by eapply Hback|].
      destruct (nchain_adjust_closed m n f env_name 0.3) as (Hyes & Hno).
      cbv zeta in Hyes, Hno. unfold DRPolicySinkhorn.adjust in Hup.
      assert (nchain_room env_name m n) as Hroom.
      { unfold nchain_room. intros HN.
        destruct (decide ((2 <= m)%nat /\ (2 <= n)%nat)) as [|Hbad]; [done|].
        rewrite Hno in Hup; [discriminate|]. intros H. by apply Hbad, H. }
      split; [assumption|]. rewrite (Hyes Hroom) in Hup.
      destruct (decide (env_name = "Taxi-v3")) as [|HT]; [by left|].
      destruct (decide (env_name = "NChain-v0")) as [|HN]; [by right; left|].
      destruct (decide (m = O)) as [|Hm]; [by right; right; left|].
      destruct (decide (n = O)) as [|Hn]; [by right; right; right|].
      exfalso. rewrite Sinkhorn_configure_unbound in Hup by assumption.
      simpl in Hup. fold m n in Hup.
      rewrite (Sinkhorn_unbound_loop _ _ _ m n) in Hup by (reflexivity || lia).
      discriminate.
    + intros (Ha & Hroom & Henv). destruct (Hacc Ha) as (fa & Hfa).
      assert (DRPolicySinkhorn.advantage_table self observes actions advantages
                env_name =
              Ok (tab m n (fun s a => fa s a + nchain_bonus 0.3 env_name s a)))
        as Hadv.
      { unfold DRPolicySinkhorn.advantage_table. fold m n. rewrite Hfa. simpl.
        by apply (nchain_adjust_closed m n fa env_name 0.3). }
      destruct (DRPolicySinkhorn.configure self env_name eps) as [[b|] self1] eqn:Hc.
      * eexists.
        exact (Sinkhorn_update_total self self1 h m n _ _ b _ _ _ disc_freqs
                 env_name eps eq_refl eq_refl Hwf Hadv Hc).
      * pose proof (Sinkhorn_configure_beta self env_name eps) as Hb.
        rewrite Hc in Hb. simpl in Hb.
        destruct Henv as [-> | [-> | Hempty]]; [discriminate.. |].
        unfold DRPolicySinkhorn.update. rewrite Hadv, Hc. simpl.
        destruct (Sinkhorn_configure_fields _ _ _ _ _ Hc) as (Hm1 & Hn1 & _).
        rewrite Hm1, Hn1. fold m n.
        rewrite (Sinkhorn_empty_loop _ _ _ _ m n) by (simpl; tauto || lia).
        eauto.
  - intros self h observes actions advantages disc_freqs env_name eps rnd m n
      Hwf%table_at_tab.
    destruct (aggregate_accepted m n observes actions advantages)
      as (Hacc & Hrej & Hback).
    split.
    + intros (st & Hup).
      unfold DRPolicyWass.update, DRPolicyWass.advantage_table in Hup.
      fold m n in Hup.
      destruct (aggregate_cases m n observes actions advantages)
        as [(f & Hf) | Hf]; rewrite Hf in Hup; simpl in Hup; [|discriminate].
      split; [by eapply Hback|].
      destruct (nchain_adjust_closed m n f env_name 0.1) as (Hyes & Hno).
      cbv zeta in Hyes, Hno. unfold DRPolicyWass.adjust in Hup.
      assert (nchain_room env_name m n) as Hroom.
      { unfold nchain_room. intros HN.
        destruct (decide ((2 <= m)%nat /\ (2 <= n)%nat)) as [|Hbad]; [done|].
        rewrite Hno in Hup; [discriminate|]. intros H. by apply Hbad, H. }
      split; [assumption|]. rewrite (Hyes Hroom) in Hup.
      destruct (decide (env_name = "Taxi-v3")) as [|HT]; [by left|].
      destruct (decide (env_name = "NChain-v0")) as [|HN]; [by right; left|].
      destruct (decide (env_name = "CliffWalking-v0")) as [|HC]; [by right; right|].
      exfalso. rewrite Wass_choose_beta_unbound in Hup by assumption.
      discriminate.
    + intros (Ha & Hroom & Henv). destruct (Hacc Ha) as (fa & Hfa).
      assert (DRPolicyWass.advantage_table self observes actions advantages
                env_name =
              Ok (tab m n (fun s a => fa s a + nchain_bonus 0.1 env_name s a)))
        as Hadv.
      { unfold DRPolicyWass.advantage_table. fold m n. rewrite Hfa. simpl.
        by apply (nchain_adjust_closed m n fa env_name 0.1). }
      assert (exists beta, DRPolicyWass.choose_beta env_name rnd = Some beta)
        as (beta & Hb).
      { destruct Henv as [-> | [-> | ->]]; eexists; reflexivity. }
      eexists.
      exact (Wass_update_total self h m n _ _ beta _ _ _ disc_freqs env_name eps
               rnd eq_refl eq_refl Hwf Hadv Hb).
Qed.

Lemma update_completes_iff_witness :
  let self := (DRPolicyKL.init 2 2 ∅).1 in
  accepted (DRPolicyKL.sta_num self) (DRPolicyKL.act_num self)
    [0; 0; 1; 1]%Z [0; 1; 0; 1]%Z [1; -1; 0; 0] /\
  nchain_room "FrozenLake-v0" (DRPolicyKL.sta_num self) (DRPolicyKL.act_num self) /\
  taxi_room "FrozenLake-v0" (DRPolicyKL.sta_num self) (DRPolicyKL.act_num self).
Proof.
  intros self.
  destruct (example_KL_run [] 1) as (_ & Hwf & _ & Hup & _).
  apply (proj1 (proj1 update_completes_iff self (DRPolicyKL.init 2 2 ∅).2
                  [0; 0; 1; 1]%Z [0; 1; 0; 1]%Z [1; -1; 0; 0] [] "FrozenLake-v0" 1
                  Hwf)).
  eexists. exact Hup.
Defined.

(** ** [sample] as inverse-CDF sampling *)

Lemma np_sum_take_mono (p : row) (a b : nat) :
  Forall (fun x => 0 <= x) p -> (a <= b)%nat ->
  np_sum (take a p) <= np_sum (take b p).
Proof.
  intros Hpos. revert a b. induction Hpos as [|x p Hx Hpos IH]; intros a b Hab.
  - rewrite !take_nil. lra.
  - destruct a as [|a]; destruct b as [|b]; [simpl; lra | | lia |].
    + simpl. assert (np_sum (take 0 p) <= np_sum (take b p)) as H
        by (apply IH; lia).
      simpl in H. unfold np_sum in *. simpl in *. lra.
    + simpl. specialize (IH a b ltac:(lia)). unfold np_sum in *. simpl. lra.
Qed.

Lemma np_sum_cons (x : R) (l : row) : np_sum (x :: l) = x + np_sum l.
Proof. reflexivity. Qed.

(** The position [searchsorted] returns in the scaled cumulative sums. *)
Lemma searchsorted_bracket (p : row) (acc c u : R) :
  let a := searchsorted_right (np_div (cumsum_from acc p) c) u in
  (a <= length p)%nat /\
  ((0 < a)%nat -> (acc + np_sum (take a p)) / c <= u) /\
  ((a < length p)%nat -> u < (acc + np_sum (take (S a) p)) / c).
Proof.
  unfold np_div. revert acc. induction p as [|x p IH]; intros acc;
    cbn [cumsum_from map searchsorted_right length].
  - split; [lia|]. split; intros; lia.
  - destruct (decide ((acc + x) / c <= u)) as [Hle | Hgt].
    + destruct (IH (acc + x)) as (Hlen & Hlow & Hup).
      set (a' := searchsorted_right (map (fun x0 => x0 / c) (cumsum_from (acc + x) p)) u)
        in *.
      split; [lia|]. split.
      * intros _. rewrite firstn_cons, np_sum_cons, <- Rplus_assoc.
        destruct a' as [|a']; [|apply Hlow; lia].
        rewrite take_0. unfold np_sum. simpl. by rewrite Rplus_0_r.
      * intros Hlt. rewrite firstn_cons, np_sum_cons, <- Rplus_assoc.
        apply Hup. lia.
    + split; [lia|]. split; [intros; lia|]. intros _.
      rewrite firstn_cons, take_0, np_sum_cons. unfold np_sum. simpl.
      rewrite Rplus_0_r. apply Rnot_le_lt. exact Hgt.
Qed.

Lemma numpy_accepts_mass (n : nat) (p : row) :
  numpy_accepts n p -> 0 < np_sum p /\ p <> [].
Proof.
  intros (Hn & Hlen & Hpos & Hsum).
  assert (choice_atol < 1).
  { unfold choice_atol. rewrite <- Rinv_1. apply Rinv_lt_contravar; [|].
    - rewrite Rmult_1_l. apply pow_lt. lra.
    - replace 1 with (1 ^ 26) by (apply pow1). simpl. lra. }
  assert (0 < np_sum p)
    by (unfold Rabs in Hsum; destruct (Rcase_abs (np_sum p - 1)); lra).
  split; [assumption|]. intros ->. simpl in *. lra.
Qed.

(** The sampler on a row it accepts. *)
Lemma np_random_choice_accepts (n : nat) (p : row) (u : R) :
  numpy_accepts n p ->
  np_random_choice n p u =
  Ok (searchsorted_right (np_div (cumsum_from 0 p) (np_sum p)) u).
Proof.
  intros Hacc. destruct (numpy_accepts_mass n p Hacc) as (Hmass & Hne).
  destruct Hacc as (Hn & Hlen & Hpos & Hsum).
  unfold np_random_choice.
  rewrite decide_False by assumption. rewrite decide_True by assumption.
  rewrite decide_False.
  2: { rewrite Exists_exists. intros (x & Hin & Hx).
       rewrite Forall_forall in Hpos. specialize (Hpos x Hin). lra. }
  rewrite decide_False by lra.
  unfold np_cumsum. rewrite cumsum_from_last by assumption.
  by rewrite Rplus_0_l.
Qed.

(** The sampler on a row it rejects. *)
Lemma np_random_choice_rejects (n : nat) (p : row) (u : R) :
  ~ numpy_accepts n p -> np_random_choice n p u = Raise ValueError.
Proof.
  intros Hno. unfold np_random_choice.
  destruct (decide (n = O)); [done|].
  destruct (decide (length p = n)); [|done].
  destruct (decide (Exists (fun x => x < 0) p)) as [|Hneg]; [done|].
  destruct (decide (Rabs (np_sum p - 1) > choice_atol)) as [|Hsum]; [done|].
  exfalso. apply Hno. repeat split; try assumption.
  - apply Forall_forall. intros x Hx.
    destruct (Rle_lt_dec 0 x) as [|Hlt]; [assumption|].
    exfalso. apply Hneg. apply Exists_exists. eauto.
  - lra.
Qed.

Lemma np_random_choice_drawn (n : nat) (p : row) (u : R) (a : nat) :
  numpy_accepts n p -> 0 <= u < 1 ->
  np_random_choice n p u = Ok a <-> drawn p u a.
Proof.
  intros Hacc Hu. destruct (numpy_accepts_mass n p Hacc) as (Hmass & Hne).
  rewrite (np_random_choice_accepts n p u Hacc).
  destruct (searchsorted_bracket p 0 (np_sum p) u) as (Hlen & Hlow & Hup).
  cbv zeta in Hlen, Hlow, Hup.
  set (a0 := searchsorted_right (np_div (cumsum_from 0 p) (np_sum p)) u) in *.
  destruct Hacc as (Hn & Hl & Hpos & Hsum).
  assert (a0 < length p)%nat as Hlt.
  { destruct (decide (a0 < length p)%nat) as [|Hge]; [done|]. exfalso.
    assert (a0 = length p) as Heq by lia.
    assert (0 < a0)%nat as H0 by (destruct p; simpl in *; [done | lia]).
    specialize (Hlow H0). rewrite Heq, firstn_all, Rplus_0_l in Hlow.
    replace (np_sum p / np_sum p) with 1 in Hlow by (field; lra). lra. }
  assert (drawn p u a0) as Hd0.
  { split; [assumption|]. split.
    - destruct a0 as [|a0].
      + simpl. unfold Rdiv. rewrite Rmult_0_l. lra.
      + specialize (Hlow ltac:(lia)). by rewrite Rplus_0_l in Hlow.
    - specialize (Hup Hlt). by rewrite Rplus_0_l in Hup. }
  split; [by intros [= <-]|].
  intros (Ha & Hal & Hau). f_equal.
  destruct Hd0 as (_ & H0l & H0u).
  assert (forall x y, x <= y -> x / np_sum p <= y / np_sum p) as Hmono.
  { intros x y Hxy. unfold Rdiv. apply Rmult_le_compat_r; [|assumption].
    apply Rlt_le, Rinv_0_lt_compat. assumption. }
  destruct (lt_eq_lt_dec a0 a) as [[Hlt' | ->] | Hgt]; [exfalso | reflexivity | exfalso].
  - pose proof (Hmono _ _ (np_sum_take_mono p (S a0) a Hpos ltac:(lia))). lra.
  - pose proof (Hmono _ _ (np_sum_take_mono p (S a) a0 Hpos ltac:(lia))). lra.
Qed.

Lemma sample_from_law (h : heap) (distributions act_num : nat) :
  sample_law (sample_from h distributions act_num) (load h distributions) act_num.
Proof.
  intros obs s r u Hs Hr. unfold sample_from, getitem. rewrite Hs. simpl.
  unfold getitem_nat. rewrite Hr. simpl. split.
  - apply np_random_choice_rejects.
  - intros Hacc Hu a. by apply np_random_choice_drawn.
Qed.

(** X18 — [sample] (lines 32-38, 113-119 and 218-224, the same text) is
    inverse-CDF sampling on the row of the state: when numpy accepts the
    row, the uniform draw [u] returns the action [a] with
    [sum(row[:a])/sum(row) <= u < sum(row[:a+1])/sum(row)] and no other, so
    action [a] is drawn on an interval of length [row[a]/sum(row)]; when
    numpy does not accept the row (no action, wrong length, a negative
    entry, or a sum further than sqrt(eps) from 1) the call raises
    [ValueError]. *)
Theorem sample_inverse_cdf :
  (forall (self : DRPolicyKL.t) (h : heap),
     sample_law (DRPolicyKL.sample self h)
       (load h (DRPolicyKL.get_policy self)) (DRPolicyKL.act_num self)) /\
  (forall (self : DRPolicySinkhorn.t) (h : heap),
     sample_law (DRPolicySinkhorn.sample self h)
       (load h (DRPolicySinkhorn.get_policy self)) (DRPolicySinkhorn.act_num self)) /\
  (forall (self : DRPolicyWass.t) (h : heap),
     sample_law (DRPolicyWass.sample self h)
       (load h (DRPolicyWass.get_policy self)) (DRPolicyWass.act_num self)).
Proof.
  split; [|split]; intros self h; apply sample_from_law.
Qed.

Lemma half_row_numpy_accepts : numpy_accepts 2 [1 / INR 2; 1 / INR 2].
Proof.
  destruct half_row_accepted as [Hsum Hpos]. by repeat split.
Qed.

Lemma sample_inverse_cdf_witness :
  let self := (DRPolicyKL.init 1 2 ∅).1 in
  let h := (DRPolicyKL.init 1 2 ∅).2 in
  DRPolicyKL.sample self h 0 0.7 = Ok 1%nat.
Proof.
  intros self h. destruct (KL_init_table 1 2 ∅) as (Hh & _ & _).
  fold self h in Hh. apply load_Some in Hh.
  assert (load h (DRPolicyKL.get_policy self) !! O = Some [1 / INR 2; 1 / INR 2])
    as Hr by (unfold DRPolicyKL.get_policy; by rewrite Hh).
  assert (norm_index (length (load h (DRPolicyKL.get_policy self))) 0 = Ok O)
    as Hs by (unfold DRPolicyKL.get_policy; by rewrite Hh).
  apply (proj2 (proj1 sample_inverse_cdf self h 0%Z O _ 0.7 Hs Hr)
           half_row_numpy_accepts ltac:(lra) 1%nat).
  split; [simpl; lia|]. unfold np_sum. simpl. lra.
Defined.

(** ** An update that stops half-way *)

Lemma np_sum_zeros (n : nat) : np_sum (replicate n 0) = 0.
Proof.
  induction n as [|n IH]; [reflexivity|].
  cbn [replicate]. rewrite np_sum_cons, IH. lra.
Qed.

(** X19 — [DRPolicySinkhorn.update] with a name other than 'Taxi-v3' and
    'NChain-v0', on a policy with a state and an action, stops with
    [UnboundLocalError] at line 177, after lines 168-171 have bound
    [self.distributions] to a new table of zeros: the object is left with a
    policy in which every row is all zero, and every later [sample] of a
    state in range raises [ValueError].  The old table is still where it
    was, but the object no longer refers to it. *)
Theorem Sinkhorn_failed_update_zero_table :
  forall (self : DRPolicySinkhorn.t) (h : heap) observes actions advantages
         disc_freqs env_name eps (adv : table),
    let m := DRPolicySinkhorn.sta_num self in
    let n := DRPolicySinkhorn.act_num self in
    env_name <> "Taxi-v3" -> env_name <> "NChain-v0" ->
    DRPolicySinkhorn.advantage_table self observes actions advantages env_name =
      Ok adv ->
    (0 < m)%nat -> (0 < n)%nat ->
    exists self' h',
      DRPolicySinkhorn.update self h observes actions advantages disc_freqs
        env_name eps = Raised UnboundLocalError (self', h') /\
      load h' (DRPolicySinkhorn.get_policy self') = replicate m (replicate n 0) /\
      (forall l, l <> DRPolicySinkhorn.get_policy self' -> h' !! l = h !! l) /\
      forall obs u, (- Z.of_nat m <= obs < Z.of_nat m)%Z ->
        DRPolicySinkhorn.sample self' h' obs u = Raise ValueError.
Proof.
  intros self h observes actions advantages disc_freqs env_name eps adv m n
    HT HN Hadv Hm Hn.
  unfold DRPolicySinkhorn.update. rewrite Hadv.
  rewrite Sinkhorn_configure_unbound by assumption. simpl. fold m n.
  rewrite (Sinkhorn_unbound_loop _ _ _ m n) by (reflexivity || lia).
  eexists _, _. split; [reflexivity|].
  unfold DRPolicySinkhorn.get_policy, DRPolicySinkhorn.sample. simpl.
  rewrite load_insert. split; [reflexivity|]. split.
  - intros l Hl. by rewrite lookup_insert_ne.
  - intros obs u Hobs. unfold sample_from. rewrite load_insert.
    destruct (norm_index_cases (length (replicate m (np_zeros n))) obs)
      as [(s & Hs & Hlt) | Hout].
    + unfold getitem. rewrite Hs. simpl. unfold getitem_nat.
      rewrite length_replicate in Hlt. rewrite lookup_replicate_2 by assumption.
      simpl. apply np_random_choice_rejects.
      intros (_ & _ & _ & Hsum). unfold np_zeros in Hsum.
      rewrite np_sum_zeros in Hsum.
      replace (0 - 1) with (- (1)) in Hsum by lra.
      rewrite Rabs_Ropp, Rabs_R1 in Hsum.
      assert (choice_atol < 1); [|lra].
      unfold choice_atol. rewrite <- Rinv_1. apply Rinv_lt_contravar; [|].
      * rewrite Rmult_1_l. apply pow_lt. lra.
      * replace 1 with (1 ^ 26) by (apply pow1). simpl. lra.
    + rewrite length_replicate in Hout. unfold norm_index in Hout.
      repeat case_decide; (discriminate || lia).
Qed.

Lemma Sinkhorn_failed_update_zero_table_witness :
  let self := (DRPolicySinkhorn.init 1 2 ∅).1 in
  let h := (DRPolicySinkhorn.init 1 2 ∅).2 in
  exists self' h',
    DRPolicySinkhorn.update self h [] [] [] [] "MountainCar-v0" 1 =
      Raised UnboundLocalError (self', h') /\
    load h' (DRPolicySinkhorn.get_policy self') =
      replicate (DRPolicySinkhorn.sta_num self)
        (replicate (DRPolicySinkhorn.act_num self) 0) /\
    (forall l, l <> DRPolicySinkhorn.get_policy self' -> h' !! l = h !! l) /\
    forall obs u,
      (- Z.of_nat (DRPolicySinkhorn.sta_num self) <= obs <
       Z.of_nat (DRPolicySinkhorn.sta_num self))%Z ->
      DRPolicySinkhorn.sample self' h' obs u = Raise ValueError.
Proof.
  intros self h.
  apply (Sinkhorn_failed_update_zero_table self h [] [] [] [] "MountainCar-v0" 1
           (tab 1 2 (fun _ _ => 0))).
  - discriminate.
  - discriminate.
  - unfold DRPolicySinkhorn.advantage_table.
    change (DRPolicySinkhorn.sta_num self) with 1%nat.
    change (DRPolicySinkhorn.act_num self) with 2%nat.
    by rewrite aggregate_nil.
  - simpl. lia.
  - simpl. lia.
Defined.

(** ** What [update] reads of its arguments *)

Lemma for_in_ext {A St : Type} (xs : list A) (body body' : A -> St -> outcome St) st :
  (forall x st, x ∈ xs -> body x st = body' x st) ->
  for_in xs body st = for_in xs body' st.
Proof.
  revert st. induction xs as [|x xs IH]; intros st H; simpl; [reflexivity|].
  rewrite <- (H x st) by left. destruct (body x st); simpl; [|reflexivity].
  apply IH. intros y st' Hy. apply H. by right.
Qed.

Lemma aggregate_prefix (m n : nat) observes actions actions' advantages advantages' :
  (forall i, (i < length observes)%nat ->
     actions !! i = actions' !! i /\ advantages !! i = advantages' !! i) ->
  aggregate m n observes actions advantages =
  aggregate m n observes actions' advantages'.
Proof.
  intros H. unfold aggregate, for_range.
  rewrite (for_in_ext _ (accumulate observes actions advantages)
             (accumulate observes actions' advantages')); [reflexivity|].
  intros i [t c] Hi%elem_of_seq. destruct (H i ltac:(lia)) as [Ha Hv].
  unfold accumulate, getitem_nat. by rewrite Ha, Hv.
Qed.

(** X20 — The batch is as long as [observes]: the loops of lines 54-56,
    135-137 and 242-244 run over [range(len(observes))], so entries of
    [actions] and [advantages] beyond that length are never read; and
    [disc_freqs] is read by no statement that runs, nor is [eps] outside
    [DRPolicySinkhorn].  Two calls that agree on what is read have the same
    outcome. *)
Theorem update_reads_len_observes :
  forall observes actions actions' advantages advantages',
    (forall i, (i < length observes)%nat ->
       actions !! i = actions' !! i /\ advantages !! i = advantages' !! i) ->
    (forall (self : DRPolicyKL.t) h disc_freqs disc_freqs' env_name eps eps',
       DRPolicyKL.update self h observes actions advantages disc_freqs env_name eps =
       DRPolicyKL.update self h observes actions' advantages' disc_freqs' env_name
         eps') /\
    (forall (self : DRPolicySinkhorn.t) h disc_freqs disc_freqs' env_name eps,
       DRPolicySinkhorn.update self h observes actions advantages disc_freqs
         env_name eps =
       DRPolicySinkhorn.update self h observes actions' advantages' disc_freqs'
         env_name eps) /\
    (forall (self : DRPolicyWass.t) h disc_freqs disc_freqs' env_name eps eps' rnd,
       DRPolicyWass.update self h observes actions advantages disc_freqs env_name
         eps rnd =
       DRPolicyWass.update self h observes actions' advantages' disc_freqs'
         env_name eps' rnd).
Proof.
  intros observes actions actions' advantages advantages' H.
  split; [|split]; intros.
  - unfold DRPolicyKL.update, DRPolicyKL.advantage_table.
    by rewrite (aggregate_prefix _ _ _ _ actions' _ advantages' H).
  - unfold DRPolicySinkhorn.update, DRPolicySinkhorn.advantage_table.
    by rewrite (aggregate_prefix _ _ _ _ actions' _ advantages' H).
  - unfold DRPolicyWass.update, DRPolicyWass.advantage_table.
    by rewrite (aggregate_prefix _ _ _ _ actions' _ advantages' H).
Qed.

Lemma update_reads_len_observes_witness :
  let self := (DRPolicyKL.init 1 2 ∅).1 in
  let h := (DRPolicyKL.init 1 2 ∅).2 in
  DRPolicyKL.update self h [0]%Z [0; 7]%Z [3; 4; 5] [] "FrozenLake-v0" 1 =
  DRPolicyKL.update self h [0]%Z [0]%Z [3] [1] "FrozenLake-v0" 2.
Proof.
  intros self h.
  apply (proj1 (update_reads_len_observes [0]%Z [0; 7]%Z [0]%Z [3; 4; 5] [3]
                  ltac:(intros [|i] Hi; [done | simpl in Hi; lia]))).
Defined.

(** ** Invariants of a run *)

Lemma valid_policy_intro (h : heap) (p m n : nat) (fo : nat -> nat -> R) :
  h !! p = Some (tab m n fo) ->
  (forall s a, (s < m)%nat -> (a < n)%nat -> 0 <= fo s a) ->
  (forall s, (s < m)%nat -> sum_upto n (fo s) = 1) ->
  valid_policy h p m n.
Proof.
  intros Hh Hpos Hsum. split; [by eapply table_at_intro|].
  intros s Hs. rewrite (load_Some _ _ _ Hh), row_of_tab by assumption.
  apply pmf_row. split; [intros a Ha; by apply Hpos | by apply Hsum].
Qed.

Lemma valid_policy_elim (h : heap) (p m n : nat) :
  valid_policy h p m n ->
  exists fo, h !! p = Some (tab m n fo) /\
    (forall s a, (s < m)%nat -> (a < n)%nat -> 0 <= fo s a) /\
    (forall s, (s < m)%nat -> sum_upto n (fo s) = 1).
Proof.
  intros [Hwf%table_at_tab Hrows]. exists (cell (load h p)).
  split; [assumption|].
  assert (forall s, (s < m)%nat ->
            (forall a, (a < n)%nat -> 0 <= cell (load h p) s a) /\
            sum_upto n (cell (load h p) s) = 1) as H.
  { intros s Hs. specialize (Hrows s Hs).
    rewrite (load_Some _ _ _ Hwf) in Hrows at 1.
    by apply row_of_pmf in Hrows as (_ & _ & Hpos & Hsum). }
  split; [intros s a Hs Ha; by apply (H s Hs) | intros s Hs; by apply (H s Hs)].
Qed.



Lemma uniform_positive (n : nat) : (0 < n)%nat -> 0 < 1 / INR n.
Proof. intros Hn. apply Rdiv_lt_0_compat; [lra | by apply lt_0_INR]. Qed.

Lemma uniform_sum (n : nat) : (0 < n)%nat -> sum_upto n (fun _ => 1 / INR n) = 1.
Proof.
  intros Hn. rewrite sum_upto_const. assert (0 < INR n) by (by apply lt_0_INR).
  field. lra.
Qed.







(** * The nested functions *)

Lemma freq_lookup (disc_freqs : list R) (s : nat) :
  (s < length disc_freqs)%nat -> getitem_nat disc_freqs s = Ok (freq disc_freqs s).
Proof.
  intros Hs. unfold getitem_nat, freq.
  destruct (lookup_lt_is_Some_2 disc_freqs s Hs) as [x ->]. reflexivity.
Qed.



(** ** [DRPolicyKL.objective] and [DRPolicyKL.gradient] *)

Section KLNested.

Variables (self : DRPolicyKL.t) (h : heap) (m n : nat) (fa fo : nat -> nat -> R).
Variables (disc_freqs : list R) (beta : R).
Hypothesis Hh : h !! DRPolicyKL.distributions self = Some (tab m n fo).






End KLNested.





(** ** Derivatives, pointwise *)














(** ** [DRPolicyWass.objective] *)

Section WassNested.

Variables (self : DRPolicyWass.t) (h : heap) (m n : nat) (fa fo : nat -> nat -> R).
Variables (fb : nat -> nat -> nat) (disc_freqs : list R) (beta : R).
Hypothesis Hh : h !! DRPolicyWass.distributions self = Some (tab m n fo).
Hypothesis Hfb : forall s i, (s < m)%nat -> (i < n)%nat -> (fb s i < n)%nat.

Lemma Wass_objective_step_ok (s i : nat) (acc : R) :
  (s < m)%nat -> (i < n)%nat -> (s < length disc_freqs)%nat ->
  DRPolicyWass.objective_step self h (tab m n fa) disc_freqs beta (tab m n fb)
    s i acc =
  Done (acc + freq disc_freqs s * fo s i * wass_value fa beta s i (fb s i)).
Proof.
  intros Hs Hi Hf. unfold DRPolicyWass.objective_step.
  rewrite getitem_nat_tab by assumption. simpl.
  rewrite getitem_nat_row by assumption. simpl.
  rewrite freq_lookup by assumption. simpl.
  rewrite (load_Some _ _ _ Hh), get2_tab by assumption. simpl.
  rewrite Wass_value_ok by (try assumption; by apply Hfb). reflexivity.
Qed.

Lemma Wass_objective_actions (s k : nat) (acc : R) :
  (s < m)%nat -> (k <= n)%nat -> (s < length disc_freqs)%nat ->
  for_range k
    (DRPolicyWass.objective_step self h (tab m n fa) disc_freqs beta (tab m n fb) s)
    acc =
  Done (acc + sum_upto k (fun i => freq disc_freqs s * fo s i *
                                   wass_value fa beta s i (fb s i))).
Proof.
  intros Hs Hk Hf. induction k as [|k IH].
  - rewrite for_range_0. f_equal. unfold sum_upto. simpl. lra.
  - rewrite for_range_S, IH by lia. simpl.
    rewrite Wass_objective_step_ok by (assumption || lia).
    f_equal. rewrite sum_upto_S. lra.
Qed.

Lemma Wass_objective_states (k : nat) (acc : R) :
  (k <= m)%nat -> (k <= length disc_freqs)%nat ->
  for_range k
    (fun s =>
       for_range n
         (DRPolicyWass.objective_step self h (tab m n fa) disc_freqs beta
            (tab m n fb) s)) acc =
  Done (acc + sum_upto k (fun s => sum_upto n (fun i =>
          freq disc_freqs s * fo s i * wass_value fa beta s i (fb s i)))).
Proof.
  intros Hk Hf. induction k as [|k IH].
  - rewrite for_range_0. f_equal. unfold sum_upto. simpl. lra.
  - rewrite for_range_S, IH by lia. simpl.
    rewrite Wass_objective_actions by lia.
    f_equal. rewrite sum_upto_S. lra.
Qed.

End WassNested.

Lemma init_valid_policy_Wass (m n : nat) (h : heap) :
  (0 < n)%nat ->
  let st := DRPolicyWass.init m n h in
  valid_policy st.2 (DRPolicyWass.get_policy st.1) m n.
Proof.
  intros Hn st. destruct (Wass_init_table m n h) as (Hh & _ & _). fold st in Hh.
  eapply valid_policy_intro; [exact Hh | |].
  - intros. by apply Rlt_le, uniform_positive.
  - intros. by apply uniform_sum.
Qed.

(** X24 — [DRPolicyWass.update]'s nested [objective] (lines 269-276), which
    only commented-out code calls.  On a policy whose rows are probability
    vectors, with an advantage table of the same shape and one frequency
    per state, it returns
    [beta*delta + sum_s sum_i disc_freqs[s] * pi[s][i] *
                  (adv[s][best(s,i)] - beta*d(best(s,i), i))]
    for the table [best] that [find_best_j(beta)] returns, and with
    non-negative frequencies this is at least
    [beta*delta + sum_s disc_freqs[s] * sum_i pi[s][i]*adv[s][i]], for any
    [beta]: staying at [i] is one of the candidates of the maximum. *)
Theorem Wass_objective_dual_bound :
  forall (self : DRPolicyWass.t) (h : heap) (adv : table) (disc_freqs : list R)
         (beta : R),
    let p := DRPolicyWass.get_policy self in
    let m := DRPolicyWass.sta_num self in
    let n := DRPolicyWass.act_num self in
    valid_policy h p m n -> shaped m n adv -> (m <= length disc_freqs)%nat ->
    exists v best,
      DRPolicyWass.find_best_j self adv beta = Ok (tab m n best) /\
      DRPolicyWass.objective self h adv disc_freqs beta = Ok v /\
      v = beta * DRPolicyWass.delta self +
          sum_upto m (fun s => sum_upto n (fun i =>
            freq disc_freqs s * cell (load h p) s i *
            (cell adv s (best s i) -
             beta * DRPolicyWass.calc_d (best s i) i))) /\
      (Forall (fun f => 0 <= f) disc_freqs ->
       beta * DRPolicyWass.delta self +
       sum_upto m (fun s => freq disc_freqs s *
                            expected n (cell (load h p) s) (cell adv s)) <= v).
Proof.
  intros self h adv disc_freqs beta p m n Hvalid Hadv Hlen.
  subst p. unfold DRPolicyWass.get_policy in *.
  destruct (valid_policy_elim _ _ _ _ Hvalid) as (fo & Hh & Hpos & Hsum).
  rewrite (shaped_tab m n adv Hadv). set (fa := cell adv).
  assert (forall s i, (s < m)%nat -> (i < n)%nat ->
                      (wass_best n fa beta s i < n)%nat) as Hfb
    by (intros s i _ Hi; apply wass_best_lt; lia).
  exists (beta * DRPolicyWass.delta self +
          sum_upto m (fun s => sum_upto n (fun i =>
            freq disc_freqs s * fo s i *
            wass_value fa beta s i (wass_best n fa beta s i)))),
    (wass_best n fa beta).
  pose proof (Wass_find_best_j_ok self beta fa m n eq_refl eq_refl) as Hbest.
  split; [exact Hbest|]. split; [|split].
  - unfold DRPolicyWass.objective. rewrite Hbest. simpl. fold m n.
    by rewrite (Wass_objective_states self h m n fa fo _ disc_freqs beta Hh Hfb m)
      by lia.
  - rewrite (load_Some _ _ _ Hh). f_equal. apply sum_upto_ext. intros s Hs.
    apply sum_upto_ext. intros i Hi. unfold wass_value.
    rewrite !cell_tab by (try assumption; by apply Hfb). reflexivity.
  - intros Hf. rewrite (load_Some _ _ _ Hh). apply Rplus_le_compat_l.
    apply sum_upto_le. intros s Hs.
    assert (0 <= freq disc_freqs s) as Hfs.
    { unfold freq. destruct (disc_freqs !! s) as [x|] eqn:Hx; simpl; [|lra].
      rewrite Forall_forall in Hf. apply Hf. by eapply list_elem_of_lookup_2. }
    unfold expected. rewrite <- sum_upto_scal. apply sum_upto_le. intros i Hi.
    rewrite !cell_tab by assumption.
    assert (n <> O) as Hn by lia.
    destruct (wass_best_argmax n fa beta s i ltac:(lia)) as (_ & Hmax & _).
    specialize (Hmax i Hi). unfold wass_value at 1 in Hmax.
    unfold DRPolicyWass.calc_d at 1 in Hmax.
    rewrite (decide_True (P := i = i)) in Hmax by reflexivity.
    pose proof (Hpos s i Hs Hi) as Hp.
    assert (fo s i * fa s i <=
            fo s i * wass_value fa beta s i (wass_best n fa beta s i)) as Hstep
      by (apply Rmult_le_compat_l; lra).
    replace (freq disc_freqs s * fo s i *
             wass_value fa beta s i (wass_best n fa beta s i))
      with (freq disc_freqs s *
            (fo s i * wass_value fa beta s i (wass_best n fa beta s i))) by ring.
    by apply Rmult_le_compat_l.
Qed.

Lemma Wass_objective_dual_bound_witness :
  let self := (DRPolicyWass.init 2 2 ∅).1 in
  let h := (DRPolicyWass.init 2 2 ∅).2 in
  let p := DRPolicyWass.get_policy self in
  let adv := tab 2 2 example_advantage in
  exists v best,
    DRPolicyWass.find_best_j self adv 0.5 = Ok (tab 2 2 best) /\
    DRPolicyWass.objective self h adv [1; 2] 0.5 = Ok v /\
    v = 0.5 * DRPolicyWass.delta self +
        sum_upto 2 (fun s => sum_upto 2 (fun i =>
          freq [1; 2] s * cell (load h p) s i *
          (cell adv s (best s i) - 0.5 * DRPolicyWass.calc_d (best s i) i))) /\
    (Forall (fun f => 0 <= f) [1; 2] ->
     0.5 * DRPolicyWass.delta self +
     sum_upto 2 (fun s => freq [1; 2] s *
                          expected 2 (cell (load h p) s) (cell adv s)) <= v).
Proof.
  intros self h p adv.
  apply (Wass_objective_dual_bound self h adv [1; 2] 0.5
           (init_valid_policy_Wass 2 2 ∅ ltac:(lia)) (tab_shaped 2 2 _)).
  simpl. lia.
Defined.

(** * What the three updates optimise *)













Lemma tilted_ext_both (n : nat) (fa fa' fo fo' : nat -> nat -> R) (beta : R)
    (s a : nat) :
  (forall a', (a' < n)%nat -> fa s a' = fa' s a') ->
  (forall a', (a' < n)%nat -> fo s a' = fo' s a') -> (a < n)%nat ->
  tilted n fa fo beta s a = tilted n fa' fo' beta s a.
Proof.
  intros Ha Ho Hlt. unfold tilted. rewrite (Ha a Hlt), (Ho a Hlt). f_equal.
  apply sum_upto_ext. intros a' Ha'. by rewrite (Ha a' Ha'), (Ho a' Ha').
Qed.





(** ** The plan behind [DRPolicyWass.update] *)

(** The plan that sends all of source [i] to [fb i]. *)
Lemma greedy_plan (n : nat) (src : nat -> R) (fb : nat -> nat)
    (gain : nat -> nat -> R) :
  (forall i, (i < n)%nat -> 0 <= src i) ->
  (forall i, (i < n)%nat -> (fb i < n)%nat) ->
  let G := fun i j => if decide (j = fb i) then src i else 0 in
  plan n G src /\
  plan_value n G gain = sum_upto n (fun i => src i * gain i (fb i)).
Proof.
  intros Hsrc Hfb G. split; [split|].
  - intros i j Hi Hj. subst G. cbv beta.
    destruct (decide (j = fb i)); [by apply Hsrc | lra].
  - intros i Hi. subst G. cbv beta. by apply sum_upto_indicator, Hfb.
  - unfold plan_value. apply sum_upto_ext. intros i Hi. subst G. cbv beta.
    rewrite (sum_upto_ext n _
               (fun j => if decide (j = fb i) then src i * gain i (fb i) else 0)).
    + by apply sum_upto_indicator, Hfb.
    + intros j _. destruct (decide (j = fb i)) as [->|]; lra.
Qed.

(** No plan out of [src] collects more than the one that sends every source
    to a destination of largest gain. *)
Lemma plan_value_le (n : nat) (T : nat -> nat -> R) (src : nat -> R)
    (fb : nat -> nat) (gain : nat -> nat -> R) :
  plan n T src ->
  (forall i j, (i < n)%nat -> (j < n)%nat -> gain i j <= gain i (fb i)) ->
  plan_value n T gain <= sum_upto n (fun i => src i * gain i (fb i)).
Proof.
  intros [Hpos Hrow] Hmax. unfold plan_value. apply sum_upto_le. intros i Hi.
  rewrite <- (Hrow i Hi), Rmult_comm, <- sum_upto_scal.
  apply sum_upto_le. intros j Hj. rewrite (Rmult_comm (gain i (fb i))).
  apply Rmult_le_compat_l; [by apply Hpos | by apply Hmax].
Qed.

(** X27 — The row [DRPolicyWass.update] stores is where the best transport
    plan arrives.  Among all plans that take the old row of a state apart
    (non-negative masses [T i j] from source [i] to destination [j], each
    source handing out exactly [old[s][i]]), the one that collects the most
    of [adv[s][j] - beta*d(j, i)] per unit moved sends every source wholly
    to [best_j[s][i]], and the new row is the mass that plan delivers at
    each destination. *)
Theorem Wass_update_optimal_plan :
  forall (self self' : DRPolicyWass.t) (h h' : heap) observes actions advantages
         disc_freqs env_name eps rnd (adv : table) (beta : R) (s : nat),
    let p := DRPolicyWass.get_policy self in
    let n := DRPolicyWass.act_num self in
    let old := cell (load h p) s in
    let new := cell (load h' (DRPolicyWass.get_policy self')) s in
    let gain := fun i j => cell adv s j - beta * DRPolicyWass.calc_d j i in
    table_at h p (DRPolicyWass.sta_num self) n ->
    DRPolicyWass.advantage_table self observes actions advantages env_name =
      Ok adv ->
    DRPolicyWass.update self h observes actions advantages disc_freqs env_name
      eps rnd = Done (self', h') ->
    DRPolicyWass.choose_beta env_name rnd = Some beta ->
    pmf (row_of (load h p) s) ->
    exists G,
      plan n G old /\
      (forall j, (j < n)%nat -> new j = arrivals n G j) /\
      forall T, plan n T old -> plan_value n T gain <= plan_value n G gain.
Proof.
  intros self self' h h' observes actions advantages disc_freqs env_name eps rnd
    adv beta s p n old new gain Hwf Hadv Hup Hbeta Hpmf.
  subst p old new n. unfold DRPolicyWass.get_policy in *.
  destruct (Wass_update_rows _ _ _ _ _ _ _ _ _ _ _ _ Hwf Hup Hpmf)
    as (fa & fo & beta' & Hfa & Hh & Hbeta' & -> & -> & Hs & Hn & Hpos & Hsum).
  rewrite Hadv in Hfa. injection Hfa as ->.
  rewrite Hbeta in Hbeta'. injection Hbeta' as <-.
  simpl. rewrite load_insert, (load_Some _ _ _ Hh).
  set (m := DRPolicyWass.sta_num self) in *.
  set (n := DRPolicyWass.act_num self) in *.
  set (fb := wass_best n fa beta s).
  assert (forall i, (i < n)%nat -> 0 <= cell (tab m n fo) s i) as Hsrc
    by (intros i Hi; rewrite cell_tab by assumption; by apply Hpos).
  assert (forall i, (i < n)%nat -> (fb i < n)%nat) as Hfb
    by (intros i _; by apply wass_best_lt).
  destruct (greedy_plan n (cell (tab m n fo) s) fb gain Hsrc Hfb) as (Hplan & Hval).
  cbv zeta in Hplan, Hval.
  eexists. split; [exact Hplan|]. split.
  - intros j Hj. rewrite cell_tab by assumption. unfold arrivals, wass_received.
    apply sum_upto_ext. intros i Hi. subst fb.
    destruct (decide (j = wass_best n fa beta s i)); [by rewrite cell_tab | done].
  - intros T HT. rewrite Hval. apply (plan_value_le n T _ fb gain HT).
    intros i j Hi Hj. subst gain fb. cbv beta.
    destruct (wass_best_argmax n fa beta s i Hn) as (Hlt & Hmax & _).
    specialize (Hmax j Hj). unfold wass_value in Hmax.
    by rewrite !cell_tab.
Qed.

Lemma Wass_update_optimal_plan_witness :
  let self := (DRPolicyWass.init 2 2 ∅).1 in
  let h := (DRPolicyWass.init 2 2 ∅).2 in
  let st := final (DRPolicyWass.update self h [0; 0; 1; 1]%Z [0; 1; 0; 1]%Z
                     [1; -1; 0; 0] [] "CliffWalking-v0" 1 0) in
  let adv := tab 2 2 example_advantage in
  let old := cell (load h (DRPolicyWass.get_policy self)) 0 in
  let new := cell (load st.2 (DRPolicyWass.get_policy st.1)) 0 in
  let gain := fun i j => cell adv 0 j - 0.5 * DRPolicyWass.calc_d j i in
  exists G,
    plan 2 G old /\
    (forall j, (j < 2)%nat -> new j = arrivals 2 G j) /\
    forall T, plan 2 T old -> plan_value 2 T gain <= plan_value 2 G gain.
Proof.
  intros self h st adv old new gain.
  destruct example_Wass_run as (Hwf & Hadv & Hup & Hpmf & _).
  fold self h in Hwf, Hadv, Hup, Hpmf.
  assert (DRPolicyWass.update self h [0; 0; 1; 1]%Z [0; 1; 0; 1]%Z
            [1; -1; 0; 0] [] "CliffWalking-v0" 1 0 = Done st) as Hup'
    by (subst st; by rewrite Hup).
  subst new. destruct st as [self' h'].
  exact (Wass_update_optimal_plan self self' h h' _ _ _ _ "CliffWalking-v0" 1 0
           adv 0.5 0 Hwf Hadv Hup' eq_refl Hpmf).
Defined.

(** ** The plan behind [DRPolicySinkhorn.update] *)





(** ** A second [DRPolicyWass.update] with the same advantages *)

Lemma scan_upto_ext (fa fa' : nat -> nat -> R) (beta : R) (s i k : nat) :
  (forall j, (j < Nat.max 1 k)%nat -> fa s j = fa' s j) ->
  scan_upto fa beta s i k = scan_upto fa' beta s i k.
Proof.
  induction k as [|k IH]; intros H.
  - simpl. unfold wass_value. by rewrite (H O) by lia.
  - simpl. rewrite IH by (intros j Hj; apply H; lia).
    unfold wass_value. by rewrite (H k) by lia.
Qed.

Lemma wass_best_ext (n : nat) (fa fa' : nat -> nat -> R) (beta : R) (s i : nat) :
  (0 < n)%nat -> (forall j, (j < n)%nat -> fa s j = fa' s j) ->
  wass_best n fa beta s i = wass_best n fa' beta s i.
Proof.
  intros Hn H. unfold wass_best. f_equal. apply scan_upto_ext.
  intros j Hj. apply H. lia.
Qed.

(** With a positive radius the destination of a destination is itself. *)
Lemma wass_best_idem (n : nat) (fa : nat -> nat -> R) (beta : R) (s i : nat) :
  (0 < n)%nat -> (i < n)%nat -> 0 < beta ->
  let b := wass_best n fa beta s i in
  wass_best n fa beta s b = b.
Proof.
  intros Hn Hi Hbeta b.
  destruct (decide (b = i)) as [Heq | Hbi]; [by rewrite Heq|].
  destruct (wass_best_argmax n fa beta s i Hn) as (Hb & Hmax & _). fold b in Hb, Hmax.
  destruct (wass_best_argmax n fa beta s b Hn) as (Hb' & Hmax' & _).
  set (b' := wass_best n fa beta s b) in *.
  destruct (decide (b' = b)) as [|Hne]; [assumption|]. exfalso.
  specialize (Hmax' b Hb). pose proof (Hmax b' Hb') as H1. pose proof (Hmax i Hi) as H2.
  unfold wass_value, DRPolicyWass.calc_d in *.
  rewrite (decide_True (P := b = b)) in Hmax' by reflexivity.
  rewrite (decide_True (P := i = i)) in H2 by reflexivity.
  rewrite (decide_False (P := b' = b)) in Hmax' by assumption.
  rewrite (decide_False (P := b = i)) in H1, H2 by assumption.
  destruct (decide (b' = i)); lra.
Qed.

(** All of a row the moves build sits on destinations. *)
Lemma wass_received_stays (n : nat) (fo : nat -> nat -> R) (fa : nat -> nat -> R)
    (beta : R) (s j : nat) :
  (0 < n)%nat -> (j < n)%nat -> 0 < beta ->
  let fb := wass_best n fa beta in
  let fo1 := fun s j => wass_received fo fb s j n in
  wass_received fo1 fb s j n = fo1 s j.
Proof.
  intros Hn Hj Hbeta fb fo1.
  assert (forall i, (i < n)%nat -> fb s i <> i -> fo1 s i = 0) as Hzero.
  { intros i Hi Hne. subst fo1. cbv beta. unfold wass_received.
    rewrite (sum_upto_ext n _ (fun _ => 0)); [apply sum_upto_0|].
    intros i' Hi'. destruct (decide (i = fb s i')) as [->|]; [|reflexivity].
    exfalso. apply Hne. by apply wass_best_idem. }
  unfold wass_received at 1.
  rewrite (sum_upto_ext n _ (fun i => if decide (i = j) then fo1 s j else 0)).
  - by apply sum_upto_indicator.
  - intros i Hi.
    destruct (decide (j = fb s i)) as [Hjb | Hjb]; destruct (decide (i = j)) as [Hij | Hij].
    + by rewrite Hij.
    + apply Hzero; [assumption | congruence].
    + rewrite <- Hij. symmetry. apply Hzero; [assumption | congruence].
    + reflexivity.
Qed.

(** X29 — A second [DRPolicyWass.update] with the same advantage table and
    the same radius changes nothing: after the first update all probability
    of a row sits on actions that are their own best destination, so the
    second copies the row.  (The KL update, in contrast, tilts again.) *)
Theorem Wass_update_idempotent :
  forall (self self1 self2 : DRPolicyWass.t) (h h1 h2 : heap)
         observes1 actions1 advantages1 disc_freqs1 env_name1 eps1 rnd1
         observes2 actions2 advantages2 disc_freqs2 env_name2 eps2 rnd2
         (adv : table) (beta : R) (s : nat),
    let p := DRPolicyWass.get_policy self in
    table_at h p (DRPolicyWass.sta_num self) (DRPolicyWass.act_num self) ->
    DRPolicyWass.advantage_table self observes1 actions1 advantages1 env_name1 =
      Ok adv ->
    DRPolicyWass.update self h observes1 actions1 advantages1 disc_freqs1
      env_name1 eps1 rnd1 = Done (self1, h1) ->
    DRPolicyWass.choose_beta env_name1 rnd1 = Some beta ->
    DRPolicyWass.advantage_table self1 observes2 actions2 advantages2 env_name2 =
      Ok adv ->
    DRPolicyWass.update self1 h1 observes2 actions2 advantages2 disc_freqs2
      env_name2 eps2 rnd2 = Done (self2, h2) ->
    DRPolicyWass.choose_beta env_name2 rnd2 = Some beta ->
    0 < beta ->
    pmf (row_of (load h p) s) ->
    row_of (load h2 (DRPolicyWass.get_policy self2)) s =
    row_of (load h1 (DRPolicyWass.get_policy self1)) s.
Proof.
  intros self self1 self2 h h1 h2 observes1 actions1 advantages1 disc_freqs1
    env_name1 eps1 rnd1 observes2 actions2 advantages2 disc_freqs2 env_name2 eps2
    rnd2 adv beta s p Hwf Hadv1 Hup1 Hb1 Hadv2 Hup2 Hb2 Hbeta Hpmf.
  subst p. unfold DRPolicyWass.get_policy in *.
  destruct (Wass_update_rows _ _ _ _ _ _ _ _ _ _ _ _ Hwf Hup1 Hpmf)
    as (fa & fo & beta1 & Hfa & Hh & Hbeta1 & -> & -> & Hs & Hn & Hpos & Hsum).
  rewrite Hadv1 in Hfa. injection Hfa as ->.
  rewrite Hb1 in Hbeta1. injection Hbeta1 as <-.
  set (m := DRPolicyWass.sta_num self) in *.
  set (n := DRPolicyWass.act_num self) in *.
  set (fb := wass_best n fa beta) in *.
  set (fo1 := fun s j => wass_received fo fb s j n) in *.
  set (l1 := fresh (dom h)) in *.
  set (self1 := DRPolicyWass.set_distributions self l1) in *.
  set (h1 := <[l1 := tab m n fo1]> h) in *.
  assert (h1 !! DRPolicyWass.distributions self1 = Some (tab m n fo1)) as Hh1
    by (subst h1 self1; simpl; apply lookup_insert_eq).
  assert (table_at h1 (DRPolicyWass.distributions self1)
            (DRPolicyWass.sta_num self1) (DRPolicyWass.act_num self1)) as Hwf1
    by (by eapply table_at_intro).
  assert (pmf (row_of (load h1 (DRPolicyWass.distributions self1)) s)) as Hpmf1.
  { rewrite (load_Some _ _ _ Hh1), row_of_tab by assumption. apply pmf_row. split.
    - intros j Hj. subst fo1. cbv beta. apply wass_received_nonneg.
      intros i Hi. by apply Hpos.
    - subst fo1. cbv beta. rewrite wass_received_sum; [assumption|].
      intros i _. subst fb. by apply wass_best_lt. }
  destruct (Wass_update_rows _ _ _ _ _ _ _ _ _ _ _ _ Hwf1 Hup2 Hpmf1)
    as (fa2 & fo2 & beta2 & Hfa2 & Hh2 & Hbeta2 & -> & -> & _).
  rewrite Hadv2 in Hfa2. rewrite Hb2 in Hbeta2. injection Hbeta2 as <-.
  injection Hfa2 as Hfa2. change (DRPolicyWass.sta_num self1) with m in *.
  change (DRPolicyWass.act_num self1) with n in *.
  rewrite Hh1 in Hh2. injection Hh2 as Hfo2.
  simpl. rewrite load_insert. subst h1. rewrite load_insert.
  rewrite !row_of_tab by assumption. apply map_seq_eq. intros j Hj.
  assert (forall i, (i < n)%nat -> wass_best n fa2 beta s i = fb s i) as Hbest.
  { intros i Hi. subst fb. apply wass_best_ext; [assumption|].
    intros j' Hj'. symmetry. by apply (tab_inj m n). }
  assert (forall i, (i < n)%nat -> fo2 s i = fo1 s i) as Hfo
    by (intros i Hi; symmetry; by apply (tab_inj m n)).
  unfold wass_received at 1.
  rewrite (sum_upto_ext n _ (fun i => if decide (j = fb s i) then fo1 s i else 0)).
  - apply (wass_received_stays n fo fa beta s j Hn Hj Hbeta).
  - intros i Hi. by rewrite Hbest, Hfo.
Qed.

Lemma Wass_update_idempotent_witness :
  let self := (DRPolicyWass.init 2 2 ∅).1 in
  let h := (DRPolicyWass.init 2 2 ∅).2 in
  let st1 := final (DRPolicyWass.update self h [0; 0; 1; 1]%Z [0; 1; 0; 1]%Z
                      [1; -1; 0; 0] [] "CliffWalking-v0" 1 0) in
  let st2 := final (DRPolicyWass.update st1.1 st1.2 [0; 0; 1; 1]%Z [0; 1; 0; 1]%Z
                      [1; -1; 0; 0] [] "CliffWalking-v0" 1 0) in
  row_of (load st2.2 (DRPolicyWass.get_policy st2.1)) 0 =
  row_of (load st1.2 (DRPolicyWass.get_policy st1.1)) 0.
Proof.
  intros self h st1 st2.
  destruct example_Wass_run as (Hwf & Hadv & Hup & Hpmf & _).
  fold self h in Hwf, Hadv, Hup, Hpmf.
  assert (DRPolicyWass.update self h [0; 0; 1; 1]%Z [0; 1; 0; 1]%Z
            [1; -1; 0; 0] [] "CliffWalking-v0" 1 0 = Done st1) as Hup1
    by (subst st1; by rewrite Hup).
  assert (st1.2 !! DRPolicyWass.distributions st1.1 =
          Some (tab 2 2 (fun s j => wass_received (fun _ _ => 1 / INR 2)
                                      (wass_best 2 example_advantage 0.5) s j 2)))
    as Hh1 by (subst st1; rewrite Hup; simpl; apply lookup_insert_eq).
  assert (DRPolicyWass.sta_num st1.1 = 2%nat /\ DRPolicyWass.act_num st1.1 = 2%nat)
    as [Hm1 Hn1] by (subst st1; by rewrite Hup).
  assert (DRPolicyWass.advantage_table st1.1 [0; 0; 1; 1]%Z [0; 1; 0; 1]%Z
            [1; -1; 0; 0] "CliffWalking-v0" = Ok (tab 2 2 example_advantage))
    as Hadv1.
  { unfold DRPolicyWass.advantage_table. by rewrite Hm1, Hn1, example_aggregate. }
  assert (DRPolicyWass.update st1.1 st1.2 [0; 0; 1; 1]%Z [0; 1; 0; 1]%Z
            [1; -1; 0; 0] [] "CliffWalking-v0" 1 0 = Done st2) as Hup2.
  { subst st2.
    by rewrite (Wass_update_total st1.1 st1.2 2 2 _ _ 0.5 _ _ _ []
                  "CliffWalking-v0" 1 0 Hm1 Hn1 Hh1 Hadv1 eq_refl). }
  destruct st1 as [self1 h1]. destruct st2 as [self2 h2].
  exact (Wass_update_idempotent self self1 self2 h h1 h2
           _ _ _ _ "CliffWalking-v0" 1 0 _ _ _ _ "CliffWalking-v0" 1 0
           (tab 2 2 example_advantage) 0.5 0
           Hwf Hadv Hup1 eq_refl Hadv1 Hup2 eq_refl ltac:(lra) Hpmf).
Defined.

(** ** Rows are updated one by one *)

Lemma row_of_tab_eq (m n : nat) (f g : nat -> nat -> R) (s : nat) :
  (s < m)%nat ->
  row_of (tab m n f) s = row_of (tab m n g) s <->
  forall a, (a < n)%nat -> f s a = g s a.
Proof. intros Hs. rewrite !row_of_tab by assumption. apply map_seq_eq. Qed.

Lemma sinkhorn_new_ext (n : nat) (lam b : R) (fa fa' fo fo' : nat -> nat -> R)
    (s i : nat) :
  (forall a, (a < n)%nat -> fa s a = fa' s a) ->
  (forall a, (a < n)%nat -> fo s a = fo' s a) -> (i < n)%nat ->
  sinkhorn_new n lam b fa fo s i = sinkhorn_new n lam b fa' fo' s i.
Proof.
  intros Ha Ho Hi. unfold sinkhorn_new, sinkhorn_share, sinkhorn_score.
  apply sum_upto_ext. intros j Hj. rewrite (Ho j Hj), (Ha i Hi). f_equal.
  apply sum_upto_ext. intros k Hk. by rewrite (Ha k Hk).
Qed.

Lemma wass_received_ext (n : nat) (fo fo' : nat -> nat -> R)
    (fb fb' : nat -> nat -> nat) (s j : nat) :
  (forall i, (i < n)%nat -> fo s i = fo' s i) ->
  (forall i, (i < n)%nat -> fb s i = fb' s i) ->
  wass_received fo fb s j n = wass_received fo' fb' s j n.
Proof.
  intros Ho Hb. unfold wass_received. apply sum_upto_ext. intros i Hi.
  by rewrite (Ho i Hi), (Hb i Hi).
Qed.

(** X30 — No update lets one state see another: the new row of a state is
    a function of the old row and the advantage row of that state alone
    (and, for [DRPolicySinkhorn], of [self.lamb], [env_name] and [eps]; for
    [DRPolicyWass], of the radius).  Two calls on the same object, with
    whatever tables and batches, that agree on the old row and on the
    advantage row of state [s] store the same new row for [s]. *)
Theorem update_rows_independent :
  (forall (self : DRPolicyKL.t) (h1 h2 h1' h2' : heap)
          observes1 actions1 advantages1 disc_freqs1 env_name1 eps1
          observes2 actions2 advantages2 disc_freqs2 env_name2 eps2
          (adv1 adv2 : table) (s : nat),
     let p := DRPolicyKL.get_policy self in
     let m := DRPolicyKL.sta_num self in
     let n := DRPolicyKL.act_num self in
     table_at h1 p m n -> table_at h2 p m n -> (s < m)%nat ->
     DRPolicyKL.advantage_table self observes1 actions1 advantages1 env_name1 =
       Ok adv1 ->
     DRPolicyKL.advantage_table self observes2 actions2 advantages2 env_name2 =
       Ok adv2 ->
     DRPolicyKL.update self h1 observes1 actions1 advantages1 disc_freqs1
       env_name1 eps1 = Done h1' ->
     DRPolicyKL.update self h2 observes2 actions2 advantages2 disc_freqs2
       env_name2 eps2 = Done h2' ->
     row_of (load h1 p) s = row_of (load h2 p) s ->
     row_of adv1 s = row_of adv2 s ->
     row_of (load h1' p) s = row_of (load h2' p) s) /\
  (forall (self self1 self2 : DRPolicySinkhorn.t) (h1 h2 h1' h2' : heap)
          observes1 actions1 advantages1 disc_freqs1
          observes2 actions2 advantages2 disc_freqs2 env_name eps
          (adv1 adv2 : table) (s : nat),
     let p := DRPolicySinkhorn.get_policy self in
     let m := DRPolicySinkhorn.sta_num self in
     let n := DRPolicySinkhorn.act_num self in
     table_at h1 p m n -> table_at h2 p m n -> (s < m)%nat -> (0 < n)%nat ->
     DRPolicySinkhorn.advantage_table self observes1 actions1 advantages1
       env_name = Ok adv1 ->
     DRPolicySinkhorn.advantage_table self observes2 actions2 advantages2
       env_name = Ok adv2 ->
     DRPolicySinkhorn.update self h1 observes1 actions1 advantages1 disc_freqs1
       env_name eps = Done (self1, h1') ->
     DRPolicySinkhorn.update self h2 observes2 actions2 advantages2 disc_freqs2
       env_name eps = Done (self2, h2') ->
     row_of (load h1 p) s = row_of (load h2 p) s ->
     row_of adv1 s = row_of adv2 s ->
     row_of (load h1' (DRPolicySinkhorn.get_policy self1)) s =
     row_of (load h2' (DRPolicySinkhorn.get_policy self2)) s) /\
  (forall (self self1 self2 : DRPolicyWass.t) (h1 h2 h1' h2' : heap)
          observes1 actions1 advantages1 disc_freqs1 env_name1 eps1 rnd1
          observes2 actions2 advantages2 disc_freqs2 env_name2 eps2 rnd2
          (adv1 adv2 : table) (beta : R) (s : nat),
     let p := DRPolicyWass.get_policy self in
     let m := DRPolicyWass.sta_num self in
     let n := DRPolicyWass.act_num self in
     table_at h1 p m n -> table_at h2 p m n -> (s < m)%nat ->
     DRPolicyWass.advantage_table self observes1 actions1 advantages1 env_name1 =
       Ok adv1 ->
     DRPolicyWass.advantage_table self observes2 actions2 advantages2 env_name2 =
       Ok adv2 ->
     DRPolicyWass.choose_beta env_name1 rnd1 = Some beta ->
     DRPolicyWass.choose_beta env_name2 rnd2 = Some beta ->
     DRPolicyWass.update self h1 observes1 actions1 advantages1 disc_freqs1
       env_name1 eps1 rnd1 = Done (self1, h1') ->
     DRPolicyWass.update self h2 observes2 actions2 advantages2 disc_freqs2
       env_name2 eps2 rnd2 = Done (self2, h2') ->
     row_of (load h1 p) s = row_of (load h2 p) s ->
     row_of adv1 s = row_of adv2 s ->
     row_of (load h1' (DRPolicyWass.get_policy self1)) s =
     row_of (load h2' (DRPolicyWass.get_policy self2)) s).
Proof.
  split; [|split].
  - intros self h1 h2 h1' h2' observes1 actions1 advantages1 disc_freqs1 env_name1
      eps1 observes2 actions2 advantages2 disc_freqs2 env_name2 eps2 adv1 adv2 s
      p m n Hwf1 Hwf2 Hs Hadv1 Hadv2 Hup1 Hup2 Hold Hadv.
    subst p. unfold DRPolicyKL.get_policy in *.
    destruct (KL_update_rows _ _ _ _ _ _ _ _ _ _ Hwf1 Hadv1 Hup1)
      as (fa1 & fo1 & -> & Hh1 & ->).
    destruct (KL_update_rows _ _ _ _ _ _ _ _ _ _ Hwf2 Hadv2 Hup2)
      as (fa2 & fo2 & -> & Hh2 & ->).
    rewrite (load_Some _ _ _ Hh1), (load_Some _ _ _ Hh2) in Hold.
    fold m n in Hold, Hadv.
    rewrite row_of_tab_eq in Hold, Hadv by assumption.
    rewrite !load_insert. fold m n. apply row_of_tab_eq; [assumption|].
    intros a Ha. by apply tilted_ext_both.
  - intros self self1 self2 h1 h2 h1' h2' observes1 actions1 advantages1
      disc_freqs1 observes2 actions2 advantages2 disc_freqs2 env_name eps adv1
      adv2 s p m n Hwf1%table_at_tab Hwf2%table_at_tab Hs Hn Hadv1 Hadv2 Hup1 Hup2
      Hold Hadv.
    subst p. unfold DRPolicySinkhorn.get_policy in *.
    destruct (Sinkhorn_update_done _ _ _ _ _ _ _ _ _ _ _ Hwf1 ltac:(lia) Hn Hup1)
      as (fa1 & b1 & c1 & Hfa1 & Hc1 & -> & ->).
    destruct (Sinkhorn_update_done _ _ _ _ _ _ _ _ _ _ _ Hwf2 ltac:(lia) Hn Hup2)
      as (fa2 & b2 & c2 & Hfa2 & Hc2 & -> & ->).
    rewrite Hc1 in Hc2. injection Hc2 as <- <-.
    rewrite Hadv1 in Hfa1. injection Hfa1 as ->.
    rewrite Hadv2 in Hfa2. injection Hfa2 as ->.
    rewrite (load_Some _ _ _ Hwf1), (load_Some _ _ _ Hwf2) in Hold at 1.
    fold m n in Hold, Hadv.
    rewrite row_of_tab_eq in Hold, Hadv by assumption.
    simpl. rewrite !load_insert. fold m n. apply row_of_tab_eq; [assumption|].
    intros i Hi. by apply sinkhorn_new_ext.
  - intros self self1 self2 h1 h2 h1' h2' observes1 actions1 advantages1
      disc_freqs1 env_name1 eps1 rnd1 observes2 actions2 advantages2 disc_freqs2
      env_name2 eps2 rnd2 adv1 adv2 beta s p m n Hwf1%table_at_tab
      Hwf2%table_at_tab Hs Hadv1 Hadv2 Hb1 Hb2 Hup1 Hup2 Hold Hadv.
    subst p. unfold DRPolicyWass.get_policy in *.
    destruct (Wass_update_done _ _ _ _ _ _ _ _ _ _ _ _ Hwf1 Hup1)
      as (fa1 & beta1 & Hfa1 & Hbeta1 & -> & ->).
    destruct (Wass_update_done _ _ _ _ _ _ _ _ _ _ _ _ Hwf2 Hup2)
      as (fa2 & beta2 & Hfa2 & Hbeta2 & -> & ->).
    rewrite Hb1 in Hbeta1. injection Hbeta1 as <-.
    rewrite Hb2 in Hbeta2. injection Hbeta2 as <-.
    rewrite Hadv1 in Hfa1. injection Hfa1 as ->.
    rewrite Hadv2 in Hfa2. injection Hfa2 as ->.
    rewrite (load_Some _ _ _ Hwf1), (load_Some _ _ _ Hwf2) in Hold at 1.
    fold m n in Hold, Hadv.
    rewrite row_of_tab_eq in Hold, Hadv by assumption.
    simpl. rewrite !load_insert. fold m n. apply row_of_tab_eq; [assumption|].
    intros j Hj. apply wass_received_ext; [assumption|].
    intros i Hi. apply wass_best_ext; [lia | assumption].
Qed.

Lemma update_rows_independent_witness :
  let self := (DRPolicyKL.init 2 2 ∅).1 in
  let h := (DRPolicyKL.init 2 2 ∅).2 in
  let p := DRPolicyKL.get_policy self in
  let h1 := final (DRPolicyKL.update self h [0; 0; 1; 1]%Z [0; 1; 0; 1]%Z
                     [1; -1; 0; 0] [] "FrozenLake-v0" 1) in
  let h2 := final (DRPolicyKL.update self h [0; 0]%Z [0; 1]%Z [2; 0] []
                     "FrozenLake-v0" 1) in
  row_of (load h1 p) 1 = row_of (load h2 p) 1.
Proof.
  intros self h p h1 h2.
  destruct (example_KL_run [] 1) as (Hh & Hwf & Hadv & Hup & Hpmf).
  fold self h in Hh, Hup.
  assert (DRPolicyKL.update self h [0; 0; 1; 1]%Z [0; 1; 0; 1]%Z
            [1; -1; 0; 0] [] "FrozenLake-v0" 1 = Done h1) as Hup1
    by (subst h1; by rewrite Hup).
  assert (DRPolicyKL.advantage_table self [0; 0]%Z [0; 1]%Z [2; 0] "FrozenLake-v0" =
          Ok (tab 2 2 (fun s a => match s, a with O, O => 2 | _, _ => 0 end)))
    as Hadv2.
  { unfold DRPolicyKL.advantage_table.
    change (DRPolicyKL.sta_num self) with 2%nat.
    change (DRPolicyKL.act_num self) with 2%nat. by rewrite shifted_aggregate. }
  assert (DRPolicyKL.update self h [0; 0]%Z [0; 1]%Z [2; 0] [] "FrozenLake-v0" 1 =
          Done h2) as Hup2.
  { subst h2. by rewrite (KL_update_total self h 2 2 _ _ _ _ _ [] "FrozenLake-v0" 1
                            eq_refl eq_refl Hh Hadv2). }
  apply (proj1 update_rows_independent self h h h1 h2 _ _ _ _ _ _ _ _ _ _ _ _ _ _
           1%nat Hwf Hwf ltac:(simpl; lia) Hadv Hadv2 Hup1 Hup2 eq_refl).
  apply row_of_tab_eq; [lia|]. intros [|[|a]] Ha; [reflexivity | reflexivity | lia].
Defined.
